(** * A shallow embedding of the ongniud/wal write-ahead log

    The development follows the Go sources: the segment (block buffer,
    chunk framing, flush, read cache), the position codec, the log that
    owns the segments and rotates them, and the streaming reader.

    Conventions of the embedding.
    - Go's [int] and [int64] are modelled as [Z]; no value in the
      program comes near 2^63, so no wrap-around is written out for them.
      The narrowing conversions [uint32], [uint16] and [byte] are written
      out as reductions modulo 2^32, 2^16 and 2^8.
    - A byte is [Byte.byte]; a slice of bytes is a [list byte].
    - A segment file is the list of its bytes.  The file is opened with
      O_APPEND, so [fd.Write] appends; [Seek] followed by [io.ReadFull]
      reads from an absolute offset.  The in-memory file never fails.
    - The methods mutate the segment even when they fail, so each returns
      the new segment together with a [result]. *)

From Stdlib Require Import ZArith Lia Strings.Byte String Ascii.
From stdpp Require Import gmap list sorting.

Open Scope Z_scope.

(* ================================================================== *)
(** ** Bytes, slices and little-endian integers *)

Definition len {A} (l : list A) : Z := Z.of_nat (length l).

(** The conversion [byte(x)] of Go: the low eight bits. *)
Definition byte_of_Z (z : Z) : byte :=
  match Byte.of_N (Z.to_N (z mod 256)) with
  | Some b => b
  | None => x00
  end.

Definition Z_of_byte (b : byte) : Z := Z.of_N (Byte.to_N b).

(** [l[lo:]] and [l[lo:hi]] for indices already known to be in range. *)
Definition slice_from {A} (l : list A) (lo : Z) : list A :=
  drop (Z.to_nat lo) l.

Definition slice {A} (l : list A) (lo hi : Z) : list A :=
  take (Z.to_nat (hi - lo)) (drop (Z.to_nat lo) l).

(** [uint32(x)] and [uint16(x)]. *)
Definition uint32 (z : Z) : Z := z mod 2 ^ 32.
Definition uint16 (z : Z) : Z := z mod 2 ^ 16.

(** [binary.LittleEndian.PutUint32], [PutUint16], [Uint32], [Uint16]. *)
Definition PutUint32 (v : Z) : list byte :=
  [byte_of_Z v; byte_of_Z (Z.shiftr v 8);
   byte_of_Z (Z.shiftr v 16); byte_of_Z (Z.shiftr v 24)].

Definition PutUint16 (v : Z) : list byte :=
  [byte_of_Z v; byte_of_Z (Z.shiftr v 8)].

Definition Uint32 (b : list byte) : Z :=
  match b with
  | b0 :: b1 :: b2 :: b3 :: _ =>
      Z.lor (Z_of_byte b0)
        (Z.lor (Z.shiftl (Z_of_byte b1) 8)
           (Z.lor (Z.shiftl (Z_of_byte b2) 16) (Z.shiftl (Z_of_byte b3) 24)))
  | _ => 0
  end.

Definition Uint16 (b : list byte) : Z :=
  match b with
  | b0 :: b1 :: _ => Z.lor (Z_of_byte b0) (Z.shiftl (Z_of_byte b1) 8)
  | _ => 0
  end.

(* ================================================================== *)
(** ** Errors *)

(** The error values the package returns.  [ErrPanic] stands for a Go
    run-time panic (a slice index out of range, a nil dereference) and
    [ErrOutOfFuel] is the only outcome that belongs to the model alone:
    a loop of the embedding that was given too few iterations. *)
Inductive error : Type :=
  | ErrClosed
  | ErrInvalidCRC
  | ErrEndOfBlock
  | ErrEOF                       (* io.EOF *)
  | ErrUnexpectedEOF             (* io.ErrUnexpectedEOF *)
  | ErrSeek                      (* seek to a negative offset *)
  | ErrInvalidFirstChunkType (t : Z)
  | ErrInvalidChunkType (t : Z)
  | ErrInvalidFormat             (* errors.New("invalid format") *)
  | ErrHexInvalidByte (b : byte) (* hex.InvalidByteError *)
  | ErrHexLength                 (* hex.ErrLength *)
  | ErrSegmentNotFound
  | ErrRotationFailed (cause : error)
  | ErrPanic
  | ErrOutOfFuel.

Inductive result (A : Type) : Type :=
  | Ok (a : A)
  | Err (e : error).
Arguments Ok {A} a.
Arguments Err {A} e.

(* ================================================================== *)
(** ** hash/crc32 and encoding/hex, as the Go library defines them *)

Module crc32.

(** The reversed IEEE polynomial. *)
Definition IEEE : Z := 0xedb88320.

(** One iteration of the inner loop of [simplePopulateTable]. *)
Definition shift1 (crc : Z) : Z :=
  if Z.testbit crc 0 then Z.lxor (Z.shiftr crc 1) IEEE else Z.shiftr crc 1.

(** The table entry for index [i]: eight iterations from [uint32(i)]. *)
Definition entry (i : Z) : Z :=
  shift1 (shift1 (shift1 (shift1 (shift1 (shift1 (shift1 (shift1 i))))))).

(** One iteration of [simpleUpdate]:
    [crc = tab[byte(crc)^v] ^ (crc >> 8)]. *)
Definition step (crc : Z) (v : byte) : Z :=
  Z.lxor (entry (Z.lxor (Z.land crc 255) (Z_of_byte v))) (Z.shiftr crc 8).

Definition ones32 : Z := 0xffffffff.

Definition simpleUpdate (crc : Z) (p : list byte) : Z :=
  Z.lxor (fold_left step p (Z.lxor crc ones32)) ones32.

Definition ChecksumIEEE (data : list byte) : Z := simpleUpdate 0 data.

End crc32.

Module hex.

Definition hextable : list byte :=
  list_byte_of_string "0123456789abcdef".

Definition digit (n : Z) : byte := nth (Z.to_nat n) hextable x00.

(** [hex.EncodeToString]: two lowercase digits per byte. *)
Fixpoint EncodeToString (src : list byte) : list byte :=
  match src with
  | [] => []
  | v :: rest =>
      digit (Z.shiftr (Z_of_byte v) 4) :: digit (Z.land (Z_of_byte v) 15)
        :: EncodeToString rest
  end.

(** [reverseHexTable]: the value of a digit, [None] for any other
    byte (the table holds 0xff there). *)
Definition fromHexChar (c : byte) : option Z :=
  let z := Z_of_byte c in
  if (48 <=? z) && (z <=? 57) then Some (z - 48)
  else if (97 <=? z) && (z <=? 102) then Some (z - 97 + 10)
  else if (65 <=? z) && (z <=? 70) then Some (z - 65 + 10)
  else None.

(** [hex.DecodeString]: pairs of digits; an invalid byte is reported
    before an odd length. *)
Fixpoint DecodeString (s : list byte) : result (list byte) :=
  match s with
  | [] => Ok []
  | p :: [] =>
      match fromHexChar p with
      | None => Err (ErrHexInvalidByte p)
      | Some _ => Err ErrHexLength
      end
  | p :: q :: rest =>
      match fromHexChar p with
      | None => Err (ErrHexInvalidByte p)
      | Some a =>
          match fromHexChar q with
          | None => Err (ErrHexInvalidByte q)
          | Some b =>
              match DecodeString rest with
              | Ok out => Ok (byte_of_Z (Z.lor (Z.shiftl a 4) b) :: out)
              | Err e => Err e
              end
          end
      end
  end.

End hex.

(* ================================================================== *)
(** ** Position and its codec *)

Record Position : Type := mkPosition {
  SegmentId : Z;
  BlockId : Z;
  Offset : Z
}.

Module Pos.

Definition Encode (p : Position) : list byte :=
  PutUint32 (uint32 (SegmentId p)) ++ PutUint32 (uint32 (BlockId p))
    ++ PutUint32 (uint32 (Offset p)).

Definition EncodeString (p : Position) : list byte :=
  hex.EncodeToString (Encode p).

(** [Decode] overwrites the receiver; the embedding returns the new
    value of the receiver. *)
Definition Decode (data : list byte) : result Position :=
  if negb (len data =? 12) then Err ErrInvalidFormat
  else Ok {| SegmentId := Uint32 (slice data 0 4);
             BlockId := Uint32 (slice data 4 8);
             Offset := Uint32 (slice data 8 12) |}.

Definition DecodeString (data : list byte) : result Position :=
  match hex.DecodeString data with
  | Err e => Err e
  | Ok bytes => Decode bytes
  end.

(** Lexicographic order on (segment, block, offset). *)
Definition lt (p q : Position) : Prop :=
  SegmentId p < SegmentId q
  \/ (SegmentId p = SegmentId q
      /\ (BlockId p < BlockId q
          \/ (BlockId p = BlockId q /\ Offset p < Offset q))).

End Pos.

(* ================================================================== *)
(** ** The segment *)

Definition B : Z := 1.
Definition KB : Z := 1024 * B.
Definition MB : Z := 1024 * KB.
Definition GB : Z := 1024 * MB.

Definition blockSize : Z := 32 * KB.
Definition chunkHeaderSize : Z := 7.

(** [ChunkType] is a byte; its four named values. *)
Definition kFullType : Z := 0.
Definition kFirstType : Z := 1.
Definition kMiddleType : Z := 2.
Definition kLastType : Z := 3.

Definition paddingBlock : list byte := repeat x00 (Z.to_nat blockSize).

Record block : Type := mkBlock {
  blk_id : Z;
  data : list byte;
  flushed : Z
}.

Record Segment : Type := mkSegment {
  seg_id : Z;
  fd : list byte;          (* the bytes of the file behind the descriptor *)
  closed : bool;
  currentBlock : block;
  cachedBlock : block
}.

Record chunk : Type := mkChunk {
  chk_data : list byte;
  chunkType : Z
}.

Definition set_currentBlock (s : Segment) (b : block) : Segment :=
  {| seg_id := seg_id s; fd := fd s; closed := closed s;
     currentBlock := b; cachedBlock := cachedBlock s |}.

Definition set_cachedBlock (s : Segment) (b : block) : Segment :=
  {| seg_id := seg_id s; fd := fd s; closed := closed s;
     currentBlock := currentBlock s; cachedBlock := b |}.

Definition set_fd (s : Segment) (f : list byte) : Segment :=
  {| seg_id := seg_id s; fd := f; closed := closed s;
     currentBlock := currentBlock s; cachedBlock := cachedBlock s |}.

Definition set_closed (s : Segment) (c : bool) : Segment :=
  {| seg_id := seg_id s; fd := fd s; closed := c;
     currentBlock := currentBlock s; cachedBlock := cachedBlock s |}.

(** [NewSegment id path], given the bytes already in the file at [path]
    (none when the file is created by the call). *)
Definition NewSegment (id : Z) (file : list byte) : Segment :=
  let offset := len file in
  let blockCount := offset / blockSize in
  let blockOccupy := offset mod blockSize in
  let blockData :=
    if negb (blockOccupy =? 0)
    then slice file (offset - blockOccupy) offset
    else [] in
  {| seg_id := id;
     fd := file;
     closed := false;
     currentBlock :=
       {| blk_id := blockCount; data := blockData; flushed := len blockData |};
     cachedBlock :=
       {| blk_id := -1; data := repeat x00 (Z.to_nat blockSize); flushed := 0 |} |}.

Definition Size (s : Segment) : Z :=
  if flushed (currentBlock s) =? 0 then blk_id (currentBlock s) * blockSize
  else if blk_id (currentBlock s) <=? 0 then flushed (currentBlock s)
  else (blk_id (currentBlock s) - 1) * blockSize + flushed (currentBlock s).

Definition Id (s : Segment) : Z := seg_id s.

(** [writeChunk] appends the 7-byte header and the payload to the
    current block and returns the position of the header. *)
Definition chunkHeader (payload : list byte) (t : Z) : list byte :=
  PutUint32 (crc32.ChecksumIEEE payload)
    ++ PutUint16 (uint16 (len payload)) ++ [byte_of_Z t].

Definition writeChunk (s : Segment) (payload : list byte) (t : Z)
  : Segment * Position :=
  let cb := currentBlock s in
  let offset := len (data cb) in
  let cb' := {| blk_id := blk_id cb;
                data := (data cb ++ chunkHeader payload t) ++ payload;
                flushed := flushed cb |} in
  (set_currentBlock s cb',
   {| SegmentId := seg_id s; BlockId := blk_id cb; Offset := offset |}).

(** [flushBlock]: the slice expression [data[flushed:]] panics when
    [flushed] is out of range. *)
Definition flushBlock (s : Segment) (padding : bool) : Segment * result unit :=
  let cb := currentBlock s in
  if (flushed cb <? 0) || (len (data cb) <? flushed cb) then (s, Err ErrPanic)
  else
    let pending := slice_from (data cb) (flushed cb) in
    if (len pending =? 0) && negb padding then (s, Ok tt)
    else
      let buf :=
        if padding && (len (data cb) <? blockSize)
        then data cb ++ slice paddingBlock 0 (blockSize - len (data cb))
        else data cb in
      let pending := slice_from buf (flushed cb) in
      let n := len pending in
      let flushed' := flushed cb + n in
      let cb' :=
        if flushed' =? blockSize
        then {| blk_id := blk_id cb + 1; data := []; flushed := 0 |}
        else {| blk_id := blk_id cb; data := buf; flushed := flushed' |} in
      (set_currentBlock (set_fd s (fd s ++ pending)) cb', Ok tt).

(** The loop [for remaining > 0] of [splitIntoChunks].  Each iteration
    consumes at least one byte, so [length data] iterations suffice. *)
Fixpoint splitLoop (fuel : nat) (input : list byte) (offset remaining : Z)
  : list chunk :=
  match fuel with
  | O => []
  | S fuel' =>
      if remaining >? 0 then
        let chunkSize :=
          if blockSize - chunkHeaderSize >? remaining then remaining
          else blockSize - chunkHeaderSize in
        let t :=
          if (remaining =? len input) && (chunkSize =? len input) then kFullType
          else if remaining =? len input then kFirstType
          else if remaining =? chunkSize then kLastType
          else kMiddleType in
        {| chk_data := slice input offset (offset + chunkSize); chunkType := t |}
          :: splitLoop fuel' input (offset + chunkSize) (remaining - chunkSize)
      else []
  end.

Definition splitIntoChunks (s : Segment) (input : list byte) : list chunk :=
  let remaining := len input in
  let offset := 0 in
  let remainingSpace :=
    blockSize - len (data (currentBlock s)) - chunkHeaderSize in
  if remainingSpace >? 0 then
    let chunkSize :=
      if remainingSpace >? remaining then remaining else remainingSpace in
    let t :=
      if (remaining =? len input) && (chunkSize =? len input) then kFullType
      else kFirstType in
    {| chk_data := slice input offset (offset + chunkSize); chunkType := t |}
      :: splitLoop (length input) input (offset + chunkSize)
           (remaining - chunkSize)
  else splitLoop (length input) input offset remaining.

(** The loop of [Write] over the chunks.  It returns the position of
    every chunk it wrote, in order; [Write] keeps the first ([i == 0]). *)
Fixpoint writeChunks (s : Segment) (chunks : list chunk)
  : Segment * result (list Position) :=
  match chunks with
  | [] => (s, Ok [])
  | chk :: rest =>
      let '(s1, r) :=
        if len (data (currentBlock s)) + chunkHeaderSize + len (chk_data chk)
             >? blockSize
        then flushBlock s true
        else (s, Ok tt) in
      match r with
      | Err e => (s1, Err e)
      | Ok _ =>
          let '(s2, position) := writeChunk s1 (chk_data chk) (chunkType chk) in
          match writeChunks s2 rest with
          | (s3, Ok ps) => (s3, Ok (position :: ps))
          | (s3, Err e) => (s3, Err e)
          end
      end
  end.

(** [Write]: the result is [None] when the returned pointer is nil,
    which happens when no chunk was written. *)
Definition Write (s : Segment) (input : list byte)
  : Segment * result (option Position) :=
  if closed s then (s, Err ErrClosed)
  else
    match writeChunks s (splitIntoChunks s input) with
    | (s', Ok ps) => (s', Ok (head ps))
    | (s', Err e) => (s', Err e)
    end.

(** [Seek(off)] followed by [io.ReadFull(fd, buf)]: the bytes read
    replace a prefix of [buf], the rest of [buf] keeps its content. *)
Definition ReadFull (file : list byte) (off : Z) (buf : list byte)
  : list byte * option error :=
  let avail := slice_from file off in
  let n := Z.min (len buf) (len avail) in
  let buf' := slice avail 0 n ++ slice_from buf n in
  (buf',
   if n =? len buf then None
   else if n =? 0 then Some ErrEOF
   else Some ErrUnexpectedEOF).

Definition readBlock (s : Segment) (blockID : Z)
  : Segment * result (list byte) :=
  if closed s then (s, Err ErrClosed)
  else if blk_id (cachedBlock s) =? blockID
  then (s, Ok (data (cachedBlock s)))
  else
    let blockOffset := blockID * blockSize in
    if blockOffset <? 0 then (s, Err ErrSeek)
    else
      let buf := slice (data (cachedBlock s)) 0 blockSize in
      let '(buf', err) := ReadFull (fd s) blockOffset buf in
      let s' :=
        set_cachedBlock s
          {| blk_id := blockID; data := buf';
             flushed := flushed (cachedBlock s) |} in
      match err with
      | Some ErrUnexpectedEOF | None => (s', Ok buf')
      | Some e => (s', Err e)
      end.

Definition readChunk (buf : list byte) : result chunk :=
  if len buf <? chunkHeaderSize then Err ErrEndOfBlock
  else
    let expectedCRC := Uint32 (slice buf 0 4) in
    let length := Uint16 (slice buf 4 6) in
    let t := Z_of_byte (nth 6 buf x00) in
    if length + chunkHeaderSize >? len buf then Err ErrEndOfBlock
    else
      let chunkData := slice buf chunkHeaderSize (chunkHeaderSize + length) in
      let actualCRC := crc32.ChecksumIEEE chunkData in
      if negb (actualCRC =? expectedCRC) then Err ErrInvalidCRC
      else Ok {| chk_data := chunkData; chunkType := t |}.

(** The loop of [Read].  A negative offset makes the slice expression
    [blockData[currPos.Offset:]] panic. *)
Fixpoint Read_loop (fuel : nat) (s : Segment) (currPos : Position)
  (entry : list byte) : Segment * result (list byte) :=
  match fuel with
  | O => (s, Err ErrOutOfFuel)
  | S fuel' =>
      match readBlock s (BlockId currPos) with
      | (s1, Err e) => (s1, Err e)
      | (s1, Ok blockData) =>
          if Offset currPos >=? len blockData then (s1, Err ErrEndOfBlock)
          else if Offset currPos <? 0 then (s1, Err ErrPanic)
          else
            match readChunk (slice_from blockData (Offset currPos)) with
            | Err e => (s1, Err e)
            | Ok chk =>
                if len (chk_data chk) =? 0 then (s1, Err ErrEOF)
                else if (len entry =? 0)
                        && negb (chunkType chk =? kFullType)
                        && negb (chunkType chk =? kFirstType)
                then (s1, Err (ErrInvalidFirstChunkType (chunkType chk)))
                else if negb (len entry =? 0)
                        && negb (chunkType chk =? kMiddleType)
                        && negb (chunkType chk =? kLastType)
                then (s1, Err (ErrInvalidChunkType (chunkType chk)))
                else
                  let entry' := entry ++ chk_data chk in
                  if (chunkType chk =? kLastType) || (chunkType chk =? kFullType)
                  then (s1, Ok entry')
                  else
                    let off :=
                      Offset currPos + (chunkHeaderSize + len (chk_data chk)) in
                    let next :=
                      if off >=? len blockData
                      then {| SegmentId := SegmentId currPos;
                              BlockId := BlockId currPos + 1; Offset := 0 |}
                      else {| SegmentId := SegmentId currPos;
                              BlockId := BlockId currPos; Offset := off |} in
                    Read_loop fuel' s1 next entry'
            end
      end
  end.

(** Every iteration of the loop either returns or moves to a later
    chunk; a block holds at most [blockSize / 8 + 1] non-empty chunks
    and only blocks that start inside the file (or the cached one) can
    be loaded, which bounds the iterations. *)
Definition Read_fuel (s : Segment) : nat :=
  Z.to_nat ((len (fd s) / blockSize + 3) * (blockSize / 8 + 1)).

Definition Read (s : Segment) (pos : Position) : Segment * result (list byte) :=
  Read_loop (Read_fuel s) s
    {| SegmentId := SegmentId pos; BlockId := BlockId pos; Offset := Offset pos |}
    [].

(** [fd.Sync] has no effect on the bytes of the file. *)
Definition Sync (s : Segment) : Segment * result unit :=
  if closed s then (s, Err ErrClosed)
  else flushBlock s false.

Definition Close (s : Segment) : Segment * result unit :=
  if closed s then (s, Ok tt)
  else
    match flushBlock s true with
    | (s', Err e) => (s', Err e)
    | (s', Ok _) => (set_closed s' true, Ok tt)
    end.

(* ================================================================== *)
(** ** The log *)

(** Of the options only [SegmentSize] decides what the methods compute:
    [Directory] is the directory the log is opened on (an argument of
    [Open] here) and [SyncInterval] the period of the background tick,
    whose effect is a call of [Sync]. *)
Record Options : Type := mkOptions {
  SegmentSize : Z
}.

(** [w.segments] is the store of the segment objects, keyed by id;
    [w.segment] and the [current] field of a reader are pointers into
    it, represented by the key.  The directory holds the files
    [seg_{id}.log] of exactly the segments in the map. *)
Record WAL : Type := mkWAL {
  opts : Options;
  segment : Z;
  segments : gmap Z Segment;
  closeC : bool
}.

Definition set_segments (w : WAL) (m : gmap Z Segment) : WAL :=
  {| opts := opts w; segment := segment w; segments := m; closeC := closeC w |}.

(** [initialize] on a directory whose files [seg_{id}.log] are given
    with their bytes. *)
Definition initialize (o : Options) (dir : gmap Z (list byte)) : WAL :=
  let segIds := merge_sort Z.le (fst <$> map_to_list dir) in
  match last segIds with
  | None =>
      {| opts := o; segment := 0;
         segments := <[0 := NewSegment 0 []]> ∅; closeC := false |}
  | Some top =>
      {| opts := o; segment := top;
         segments :=
           foldl (fun m segId =>
                    <[segId := NewSegment segId (default [] (dir !! segId))]> m)
                 ∅ segIds;
         closeC := false |}
  end.

Definition Open (o : Options) (dir : gmap Z (list byte)) : WAL :=
  initialize o dir.

Module Log.

Definition Read (w : WAL) (pos : Position) : WAL * result (list byte) :=
  match segments w !! SegmentId pos with
  | None => (w, Err ErrSegmentNotFound)
  | Some seg =>
      let '(seg', r) := Read seg pos in
      (set_segments w (<[SegmentId pos := seg']> (segments w)), r)
  end.

(** [rotate]: the file of the new segment is created empty unless the
    directory already has it. *)
Definition rotate (w : WAL) : WAL * result unit :=
  match segments w !! segment w with
  | None => (w, Err ErrPanic)
  | Some active =>
      match Sync active with
      | (active', Err e) =>
          (set_segments w (<[segment w := active']> (segments w)), Err e)
      | (active', Ok _) =>
          let m := <[segment w := active']> (segments w) in
          let segId := Id active' + 1 in
          let file :=
            match m !! segId with
            | Some old => fd old
            | None => []
            end in
          let seg := NewSegment segId file in
          ({| opts := opts w; segment := segId;
              segments := <[segId := seg]> m; closeC := closeC w |}, Ok tt)
      end
  end.

Definition Write (w : WAL) (input : list byte)
  : WAL * result (option Position) :=
  match segments w !! segment w with
  | None => (w, Err ErrPanic)
  | Some active =>
      let '(w1, r) :=
        if Size active >=? SegmentSize (opts w) then rotate w
        else (w, Ok tt) in
      match r with
      | Err e => (w1, Err (ErrRotationFailed e))
      | Ok _ =>
          match segments w1 !! segment w1 with
          | None => (w1, Err ErrPanic)
          | Some seg =>
              let '(seg', r') := Write seg input in
              (set_segments w1 (<[segment w1 := seg']> (segments w1)), r')
          end
      end
  end.

Definition Sync (w : WAL) : WAL * result unit :=
  match segments w !! segment w with
  | None => (w, Err ErrPanic)
  | Some active =>
      let '(active', r) := Sync active in
      (set_segments w (<[segment w := active']> (segments w)), r)
  end.

(** [Close]: every segment of the map is closed; the error, if any,
    is the aggregate of the segments' errors. *)
Definition Close (w : WAL) : WAL * result unit :=
  if closeC w then (w, Ok tt)
  else
    let m := (fun s => fst (Close s)) <$> segments w in
    let errs :=
      omap (fun kv => match snd (Close (snd kv)) with
                      | Err e => Some e
                      | Ok _ => None
                      end) (map_to_list (segments w)) in
    ({| opts := opts w; segment := segment w; segments := m; closeC := true |},
     match errs with
     | [] => Ok tt
     | e :: _ => Err e
     end).

End Log.

(* ================================================================== *)
(** ** The streaming reader *)

Record Reader : Type := mkReader {
  pos : Position;
  current : Z;
  rd_closed : bool
}.

Definition NewReader (w : WAL) (p : Position) : result Reader :=
  match segments w !! SegmentId p with
  | None => Err ErrSegmentNotFound
  | Some _ => Ok {| pos := p; current := SegmentId p; rd_closed := false |}
  end.

(** The loop of [Next].  Each iteration that does not return moves to
    the segment with the next id, which must be in the map. *)
Fixpoint Next_loop (fuel : nat) (r : Reader) (w : WAL)
  : Reader * WAL * result (list byte) :=
  match fuel with
  | O => (r, w, Err ErrOutOfFuel)
  | S fuel' =>
      match segments w !! current r with
      | None => (r, w, Err ErrPanic)
      | Some seg =>
          let '(seg', res) := Read seg (pos r) in
          let w' := set_segments w (<[current r := seg']> (segments w)) in
          match res with
          | Err e =>
              match e with
              | ErrEOF | ErrUnexpectedEOF =>
                  let nextSegmentId := SegmentId (pos r) + 1 in
                  match segments w' !! nextSegmentId with
                  | None =>
                      ({| pos := pos r; current := current r; rd_closed := true |},
                       w', Err ErrEOF)
                  | Some _ =>
                      Next_loop fuel'
                        {| pos := {| SegmentId := nextSegmentId;
                                     BlockId := 0; Offset := 0 |};
                           current := nextSegmentId;
                           rd_closed := rd_closed r |}
                        w'
                  end
              | _ => (r, w', Err e)
              end
          | Ok entry =>
              let off := Offset (pos r) + (chunkHeaderSize + len entry) in
              let p' :=
                if off >=? blockSize
                then {| SegmentId := SegmentId (pos r);
                        BlockId := BlockId (pos r) + 1; Offset := 0 |}
                else {| SegmentId := SegmentId (pos r);
                        BlockId := BlockId (pos r); Offset := off |} in
              ({| pos := p'; current := current r; rd_closed := rd_closed r |},
               w', Ok entry)
          end
      end
  end.

Definition Next (r : Reader) (w : WAL) : Reader * WAL * result (list byte) :=
  if rd_closed r then (r, w, Err ErrEOF)
  else Next_loop (S (size (segments w))) r w.

(** [Reader.Close] also drops [current] and [pos]; a closed reader never
    reads them again. *)
Definition Reader_Close (r : Reader) : Reader :=
  if rd_closed r then r
  else {| pos := pos r; current := current r; rd_closed := true |}.

(* ================================================================== *)
(** ** Predicates used to state the properties *)

(** Every character is a hexadecimal digit, of either case. *)
Definition is_hex (s : list byte) : bool :=
  forallb (fun c => match hex.fromHexChar c with
                    | Some _ => true
                    | None => false
                    end) s.

(** The three components fit in an unsigned 32-bit integer. *)
Definition fits_u32 (p : Position) : Prop :=
  0 <= SegmentId p < 2 ^ 32 /\ 0 <= BlockId p < 2 ^ 32
  /\ 0 <= Offset p < 2 ^ 32.

(** Auxiliary definitions for the checksum proofs: the table indices,
    the check (by evaluation) that a table entry fits in 32 bits and
    that its top byte determines its index, and the table index used by
    one update step. *)
Definition crc_indices : list Z := seqZ 0 256.

Definition crc_entry_ok (i : Z) : bool :=
  (0 <=? crc32.entry i) && (crc32.entry i <? 2 ^ 32)
  && forallb (fun j =>
       negb (Z.shiftr (crc32.entry i) 24 =? Z.shiftr (crc32.entry j) 24)
       || (i =? j))
     crc_indices.

Definition crc_index (crc : Z) (v : byte) : Z :=
  Z.lxor (Z.land crc 255) (Z_of_byte v).

(** The invariant of a segment between two calls of its methods: the
    flushed watermark lies inside the buffer, the buffer holds at most a
    block, a full block is never left flushed, the file holds the whole
    blocks before the current one and the flushed part of the current
    one, and the cache buffer is one block long. *)
Definition wf (s : Segment) : Prop :=
  0 <= flushed (currentBlock s)
  /\ flushed (currentBlock s) <= len (data (currentBlock s))
  /\ len (data (currentBlock s)) <= blockSize
  /\ flushed (currentBlock s) < blockSize
  /\ 0 <= blk_id (currentBlock s)
  /\ len (fd s) = blk_id (currentBlock s) * blockSize + flushed (currentBlock s)
  /\ len (data (cachedBlock s)) = blockSize.

(** The bytes of the segment in file order: what is in the file followed
    by what is buffered and not yet flushed. *)
Definition stream (s : Segment) : list byte :=
  fd s ++ slice_from (data (currentBlock s)) (flushed (currentBlock s)).

(** The position the next chunk gets if it fits in the current block. *)
Definition frontier (s : Segment) : Position :=
  {| SegmentId := seg_id s; BlockId := blk_id (currentBlock s);
     Offset := len (data (currentBlock s)) |}.

Definition Pos_le (p q : Position) : Prop := Pos.lt p q \/ p = q.

(** The segments a program can hold: opened on some file, then used
    through the methods. *)
Inductive reachable : Segment -> Prop :=
  | reach_new (id : Z) (file : list byte) : reachable (NewSegment id file)
  | reach_Write (s : Segment) (input : list byte) :
      reachable s -> reachable (fst (Write s input))
  | reach_Sync (s : Segment) : reachable s -> reachable (fst (Sync s))
  | reach_Read (s : Segment) (p : Position) :
      reachable s -> reachable (fst (Read s p))
  | reach_Close (s : Segment) : reachable s -> reachable (fst (Close s)).

(** A chunk written at position [p] lies inside the block of [p]. *)
Definition chunk_fits (c : chunk) (p : Position) : Prop :=
  0 <= Offset p
  /\ Offset p + (chunkHeaderSize + len (chk_data c)) <= blockSize.

(** The bytes of a chunk as they are appended to the block. *)
Definition chunk_bytes (c : chunk) : list byte :=
  chunkHeader (chk_data c) (chunkType c) ++ chk_data c.

(** Every chunk of the list but the last carries a full block's worth
    of payload. *)
Fixpoint all_but_last_full (cs : list chunk) : Prop :=
  match cs with
  | c :: (_ :: _) as rest =>
      len (chk_data c) = blockSize - chunkHeaderSize /\ all_but_last_full rest
  | _ => True
  end.

(* ================================================================== *)
(** ** Scenarios of the tests and of the README, as programs *)

(** The README example: open a log on an empty directory, write an
    entry and read it back at the returned position, with no call of
    [Sync] in between. *)
Definition write_then_read (w : WAL) (input : list byte) : result (list byte) :=
  match Log.Write w input with
  | (w1, Ok (Some p)) => snd (Log.Read w1 p)
  | (_, Ok None) => Err ErrPanic
  | (_, Err e) => Err e
  end.

(** The same with a call of [Sync] between the write and the read, as
    [TestSegment_WriteRead] does. *)
Definition write_sync_read (w : WAL) (input : list byte) : result (list byte) :=
  match Log.Write w input with
  | (w1, Ok (Some p)) =>
      match Log.Sync w1 with
      | (w2, Ok _) => snd (Log.Read w2 p)
      | (_, Err e) => Err e
      end
  | (_, Ok None) => Err ErrPanic
  | (_, Err e) => Err e
  end.

(** [TestReader]: three writes, a sync, then a reader from the first
    position; the results of four calls of [Next]. *)
Definition reader_scenario (segment_size : Z) : list (result (list byte)) :=
  let w0 := Open {| SegmentSize := segment_size |} ∅ in
  let '(w1, r1) := Log.Write w0 (list_byte_of_string "entry1") in
  let '(w2, _) := Log.Write w1 (list_byte_of_string "entry2") in
  let '(w3, _) := Log.Write w2 (list_byte_of_string "entry3") in
  let '(w4, _) := Log.Sync w3 in
  match r1 with
  | Ok (Some pos1) =>
      match NewReader w4 pos1 with
      | Ok rd0 =>
          let '(rd1, w5, e1) := Next rd0 w4 in
          let '(rd2, w6, e2) := Next rd1 w5 in
          let '(rd3, w7, e3) := Next rd2 w6 in
          let '(_, _, e4) := Next rd3 w7 in
          [e1; e2; e3; e4]
      | Err e => [Err e]
      end
  | Ok None => [Err ErrPanic]
  | Err e => [Err e]
  end.


(** A segment driven by writes, syncs and loads of one block. *)
Inductive cache_op : Type :=
  | CWrite (input : list byte)
  | CSync
  | CReadBlock.

Definition run_cache_op (b : Z) (s : Segment) (o : cache_op) : Segment :=
  match o with
  | CWrite input => fst (Write s input)
  | CSync => fst (Sync s)
  | CReadBlock => fst (readBlock s b)
  end.

(** Write e1, sync, read it (which caches block 0), write e2 into the
    same block, sync, read at the position of e2.  The results: the two
    positions, the two reads, and the chunk that the file holds at the
    second position after the last sync. *)
Definition stale_cache_scenario
  : option (Position * Position * result (list byte) * result (list byte)
            * result chunk) :=
  let s0 := NewSegment 0 [] in
  match Write s0 (list_byte_of_string "e1") with
  | (s1, Ok (Some pos1)) =>
      let '(s2, _) := Sync s1 in
      let '(s3, r1) := Read s2 pos1 in
      match Write s3 (list_byte_of_string "e2") with
      | (s4, Ok (Some pos2)) =>
          let '(s5, _) := Sync s4 in
          let '(_, r2) := Read s5 pos2 in
          Some (pos1, pos2, r1, r2,
                readChunk (slice_from (fd s5)
                             (BlockId pos2 * blockSize + Offset pos2)))
      | _ => None
      end
  | _ => None
  end.

(** A segment opened on a file of one block and eight bytes, and a
    segment brought to the same shape through the methods: an entry
    that fills block 0 exactly, a one-byte entry, a sync. *)
Definition opened_on_partial_second_block : Segment :=
  NewSegment 0 (repeat x00 (Z.to_nat (blockSize + 8))).

Definition written_into_second_block : Segment :=
  let s0 := NewSegment 0 [] in
  let '(s1, _) :=
    Write s0 (repeat "a"%byte (Z.to_nat (blockSize - chunkHeaderSize))) in
  let '(s2, _) := Write s1 (list_byte_of_string "b") in
  fst (Sync s2).


(* ================================================================== *)
(** ** Histories of a log *)

(** The calls a program makes on a log.  The background tick is a call
    of [Sync]; a call of [Next] on any reader of the log changes the log
    only through the segments it reads. *)
Inductive wal_op : Type :=
  | OpWrite (input : list byte)
  | OpRead (p : Position)
  | OpSync
  | OpClose
  | OpNext (r : Reader).

(** One call: the new log and, for a write that succeeded and returned
    a position, that position. *)
Definition wal_step (w : WAL) (o : wal_op) : WAL * option Position :=
  match o with
  | OpWrite input =>
      match Log.Write w input with
      | (w', Ok (Some p)) => (w', Some p)
      | (w', _) => (w', None)
      end
  | OpRead p => (fst (Log.Read w p), None)
  | OpSync => (fst (Log.Sync w), None)
  | OpClose => (fst (Log.Close w), None)
  | OpNext r => (snd (fst (Next r w)), None)
  end.

(** A history: the final log and the positions the successful writes
    returned, in order. *)
Fixpoint wal_run (w : WAL) (ops : list wal_op) : WAL * list Position :=
  match ops with
  | [] => (w, [])
  | o :: rest =>
      let '(w1, po) := wal_step w o in
      let '(w2, ps) := wal_run w1 rest in
      (w2, match po with Some p => p :: ps | None => ps end)
  end.


(** Overwriting the byte at offset [i] of the file behind a segment,
    from outside the program. *)
Definition tamper (s : Segment) (i : Z) (v : byte) : Segment :=
  set_fd s (<[Z.to_nat i := v]> (fd s)).


(* ================================================================== *)
(** ** Chunk sequences *)

(** The types of the chunks of one entry: FULL alone, or FIRST, any
    number of MIDDLE, LAST. *)
Fixpoint tail_types (cs : list chunk) : Prop :=
  match cs with
  | [] => False
  | [c] => chunkType c = kLastType
  | c :: rest => chunkType c = kMiddleType /\ tail_types rest
  end.

Definition entry_types (cs : list chunk) : Prop :=
  match cs with
  | [] => False
  | [c] => chunkType c = kFullType
  | c :: rest => chunkType c = kFirstType /\ tail_types rest
  end.

(** The bytes [f] hold the chunk [c] at offset [O] of block [B], inside
    the block. *)
Definition chunk_at (f : list byte) (B O : Z) (c : chunk) : Prop :=
  0 <= B /\ 0 <= O
  /\ O + (chunkHeaderSize + len (chk_data c)) <= blockSize
  /\ exists pre post,
       f = pre ++ chunk_bytes c ++ post /\ len pre = B * blockSize + O.

(** The bytes [f] hold the chunks [cs] one per block from offset [O] of
    block [B] on: each chunk but the last ends where its block ends and
    the next one starts the next block. *)
Fixpoint laid_out (f : list byte) (B O : Z) (cs : list chunk) : Prop :=
  match cs with
  | [] => True
  | c :: rest =>
      chunk_at f B O c
      /\ match rest with
         | [] => True
         | _ :: _ =>
             O + (chunkHeaderSize + len (chk_data c)) = blockSize
             /\ laid_out f (B + 1) 0 rest
         end
  end.

(* ================================================================== *)
(** ** Histories of a segment *)

(** The calls a program makes on a segment. *)
Inductive seg_op : Type :=
  | SWrite (input : list byte)
  | SRead (p : Position)
  | SSync
  | SClose.

Definition seg_do (s : Segment) (o : seg_op) : Segment :=
  match o with
  | SWrite input => fst (Write s input)
  | SRead p => fst (Read s p)
  | SSync => fst (Sync s)
  | SClose => fst (Close s)
  end.

Definition seg_run (s : Segment) (ops : list seg_op) : Segment :=
  foldl seg_do s ops.

(** The flushed part of the current block is what the file holds from
    the start of that block on. *)
Definition flushed_in_file (s : Segment) : Prop :=
  slice_from (fd s) (blk_id (currentBlock s) * blockSize)
  = slice (data (currentBlock s)) 0 (flushed (currentBlock s)).

(* ================================================================== *)
(** ** Entries in a file, and a cache that agrees with the file *)

(** The bytes [f] hold the entry [e] at position [p]: the chunks of one
    entry, none of them empty, laid out from [p] on, whose payloads make
    up [e]. *)
Definition entry_at (f : list byte) (p : Position) (e : list byte) : Prop :=
  exists cs,
    laid_out f (BlockId p) (Offset p) cs
    /\ Forall (fun c => 0 < len (chk_data c)) cs
    /\ entry_types cs
    /\ concat (map chk_data cs) = e.

(** The read cache, when it holds a block, starts with what the file
    holds of that block now. *)
Definition cache_coherent (s : Segment) : Prop :=
  0 <= blk_id (cachedBlock s) ->
  exists rest,
    data (cachedBlock s)
    = slice (slice_from (fd s) (blk_id (cachedBlock s) * blockSize))
            0 blockSize
      ++ rest.

(** The entries a history writes, in order, and the two kinds of
    history used below: one that only writes non-empty entries and
    syncs, one that only reads. *)
Definition inputs (ops : list wal_op) : list (list byte) :=
  omap (fun o => match o with OpWrite input => Some input | _ => None end) ops.

Definition writes_and_syncs (ops : list wal_op) : Prop :=
  Forall (fun o => match o with
                   | OpWrite input => input <> []
                   | OpSync => True
                   | _ => False
                   end) ops.


(** The invariant of a log that has only been written and synced since
    it was opened: the active pointer leads into the map, every segment
    is stored under its id, is well formed, open and has never been
    read, no id is above the active one, every segment but the active
    one has all its bytes in its file, and every pair of [pairs] is an
    entry that the stream of its segment holds at its position. *)
Definition written_inv (w : WAL) (pairs : list (Position * list byte)) : Prop :=
  (exists active, segments w !! segment w = Some active)
  /\ (forall k s,
        segments w !! k = Some s ->
        seg_id s = k /\ wf s /\ closed s = false
        /\ blk_id (cachedBlock s) = -1
        /\ k <= segment w
        /\ (k <> segment w -> stream s = fd s))
  /\ Forall (fun pe =>
               exists s,
                 segments w !! SegmentId (fst pe) = Some s
                 /\ entry_at (stream s) (fst pe) (snd pe)) pairs.

(** The invariant of a log that is only read: every segment is well
    formed, open and has a cache in agreement with its file, and every
    pair of [pairs] is an entry that the file of its segment holds at
    its position. *)
Definition readable_inv (w : WAL) (pairs : list (Position * list byte)) : Prop :=
  (forall k s,
     segments w !! k = Some s ->
     wf s /\ closed s = false /\ cache_coherent s)
  /\ Forall (fun pe =>
               exists s,
                 segments w !! SegmentId (fst pe) = Some s
                 /\ entry_at (fd s) (fst pe) (snd pe)) pairs.

(** The invariant of a log under every call: the active pointer leads
    into the map, every segment is well formed, and once the log is
    closed every segment is closed. *)
Definition log_wf (w : WAL) : Prop :=
  (exists active, segments w !! segment w = Some active)
  /\ (forall k s, segments w !! k = Some s -> wf s)
  /\ (closeC w = true ->
      forall k s, segments w !! k = Some s -> closed s = true).

(* ================================================================== *)
(** ** Reading a log through a reader *)

(** [n] calls of [Next] in a row; the results, in order. *)
Fixpoint read_all (n : nat) (r : Reader) (w : WAL) : list (result (list byte)) :=
  match n with
  | O => []
  | S n' =>
      let '(r', w', res) := Next r w in
      res :: read_all n' r' w'
  end.

(** The bytes that entries written as FULL chunks one after the other
    occupy, and their number. *)
Definition frames (es : list (list byte)) : list byte :=
  concat (map (fun e => chunkHeader e kFullType ++ e) es).

Fixpoint framed_size (es : list (list byte)) : Z :=
  match es with
  | [] => 0
  | e :: rest => chunkHeaderSize + len e + framed_size rest
  end.

(** A segment 0 that holds the bytes [D] in its first block, buffered
    and not yet flushed, and has never been read. *)
Definition buffered (s : Segment) (D : list byte) : Prop :=
  seg_id s = 0 /\ closed s = false /\ fd s = []
  /\ currentBlock s = {| blk_id := 0; data := D; flushed := 0 |}
  /\ blk_id (cachedBlock s) = -1
  /\ data (cachedBlock s) = repeat x00 (Z.to_nat blockSize).

(** A segment whose file is [D], shorter than a block, and whose cache
    is untouched or holds block 0 loaded into the untouched buffer. *)
Definition reader_ready (s : Segment) (D : list byte) : Prop :=
  wf s /\ closed s = false /\ fd s = D
  /\ ((blk_id (cachedBlock s) = -1
       /\ data (cachedBlock s) = repeat x00 (Z.to_nat blockSize))
      \/ (blk_id (cachedBlock s) = 0
          /\ data (cachedBlock s)
             = D ++ repeat x00 (Z.to_nat blockSize - Z.to_nat (len D)))).

(** The directory a log leaves behind: the file of every segment. *)
Definition directory (w : WAL) : gmap Z (list byte) := fd <$> segments w.

(* ================================================================== *)
(** * Properties *)

(* ================================================================== *)
(** ** Bytes and little-endian integers *)

Lemma Z_of_byte_range (b : byte) : 0 <= Z_of_byte b < 256.
Proof.
  unfold Z_of_byte. pose proof (Byte.to_N_bounded b). lia.
Qed.


Lemma Z_of_byte_of_Z (z : Z) : Z_of_byte (byte_of_Z z) = z mod 256.
Proof.
  unfold byte_of_Z, Z_of_byte.
  assert (Hr : 0 <= z mod 256 < 256) by (apply Z.mod_pos_bound; lia).
  destruct (Byte.of_N (Z.to_N (z mod 256))) as [b|] eqn:E.
  - apply Byte.to_of_N in E. rewrite E. lia.
  - apply Byte.of_N_None_iff in E. lia.
Qed.


Lemma len_nonneg {A} (l : list A) : 0 <= len l.
Proof. unfold len. lia. Qed.

Lemma len_app {A} (l k : list A) : len (l ++ k) = len l + len k.
Proof. unfold len. rewrite length_app. lia. Qed.

Lemma len_nil {A} : len (@nil A) = 0.
Proof. reflexivity. Qed.

Lemma len_cons {A} (x : A) l : len (x :: l) = 1 + len l.
Proof. unfold len. simpl length. lia. Qed.

(** Bit [n] of the byte of [v] at bit offset [k], put back in place. *)
Lemma testbit_byte_at (v k n : Z) :
  0 <= k -> 0 <= n ->
  Z.testbit (Z.shiftl (Z.shiftr v k mod 256) k) n
  = (k <=? n) && (n <? k + 8) && Z.testbit v n.
Proof.
  intros Hk Hn. change 256 with (2 ^ 8).
  rewrite Z.shiftl_spec by lia.
  destruct (Z.leb_spec k n); simpl andb.
  - destruct (Z.ltb_spec n (k + 8)); simpl andb.
    + rewrite Z.mod_pow2_bits_low by lia.
      rewrite Z.shiftr_spec by lia. f_equal. lia.
    + apply Z.mod_pow2_bits_high. lia.
  - apply Z.testbit_neg_r. lia.
Qed.

Lemma testbit_above (v p n : Z) :
  0 <= v < 2 ^ p -> 0 <= p -> p <= n -> Z.testbit v n = false.
Proof.
  intros Hv Hp Hn.
  rewrite <- (Z.mod_small v (2 ^ p)) by assumption.
  apply Z.mod_pow2_bits_high. lia.
Qed.

(** Reassembling a 32-bit value from its four bytes. *)
Lemma lor_shiftl_bytes (v : Z) :
  0 <= v < 2 ^ 32 ->
  Z.lor (v mod 256)
    (Z.lor (Z.shiftl (Z.shiftr v 8 mod 256) 8)
       (Z.lor (Z.shiftl (Z.shiftr v 16 mod 256) 16)
          (Z.shiftl (Z.shiftr v 24 mod 256) 24))) = v.
Proof.
  intros Hv. apply Z.bits_inj'. intros n Hn.
  rewrite <- (Z.shiftl_0_r (v mod 256)).
  rewrite <- (Z.shiftr_0_r v) at 1.
  rewrite !Z.lor_spec, !testbit_byte_at by lia.
  destruct (Z_lt_dec n 32) as [Hlt|Hge].
  - destruct (Z.testbit v n); [|now rewrite !andb_false_r].
    rewrite !andb_true_r.
    destruct (Z.leb_spec 0 n), (Z.ltb_spec n (0 + 8)), (Z.leb_spec 8 n),
      (Z.ltb_spec n (8 + 8)), (Z.leb_spec 16 n), (Z.ltb_spec n (16 + 8)),
      (Z.leb_spec 24 n), (Z.ltb_spec n (24 + 8)); simpl; try reflexivity; lia.
  - rewrite (testbit_above v 32 n) by lia. now rewrite !andb_false_r.
Qed.

Lemma Uint32_PutUint32 (v : Z) (rest : list byte) :
  0 <= v < 2 ^ 32 -> Uint32 (PutUint32 v ++ rest) = v.
Proof.
  intros Hv. unfold PutUint32. simpl. rewrite !Z_of_byte_of_Z.
  now apply lor_shiftl_bytes.
Qed.

Lemma Uint16_PutUint16 (v : Z) (rest : list byte) :
  0 <= v < 2 ^ 16 -> Uint16 (PutUint16 v ++ rest) = v.
Proof.
  intros Hv. unfold PutUint16. simpl. rewrite !Z_of_byte_of_Z.
  apply Z.bits_inj'. intros n Hn.
  rewrite <- (Z.shiftl_0_r (v mod 256)).
  rewrite <- (Z.shiftr_0_r v) at 1.
  rewrite !Z.lor_spec, !testbit_byte_at by lia.
  destruct (Z_lt_dec n 16) as [Hlt|Hge].
  - destruct (Z.testbit v n); [|now rewrite !andb_false_r].
    rewrite !andb_true_r.
    destruct (Z.leb_spec 0 n), (Z.ltb_spec n (0 + 8)), (Z.leb_spec 8 n),
      (Z.ltb_spec n (8 + 8)); simpl; try reflexivity; lia.
  - rewrite (testbit_above v 16 n) by lia. now rewrite !andb_false_r.
Qed.

(* ================================================================== *)
(** ** The position codec *)

Lemma list_pair_ind {A} (P : list A -> Prop) :
  P [] -> (forall x, P [x]) -> (forall x y l, P l -> P (x :: y :: l)) ->
  forall l, P l.
Proof.
  intros H0 H1 H2.
  assert (H : forall l, P l /\ forall x, P (x :: l)).
  { induction l as [|y l [IH1 IH2]]; split; auto. }
  intros l. apply H.
Qed.

Lemma hex_DecodeString_spec (s : list byte) :
  if is_hex s then
    if Z.even (len s) then
      exists out, hex.DecodeString s = Ok out /\ 2 * len out = len s
    else hex.DecodeString s = Err ErrHexLength
  else exists b, hex.DecodeString s = Err (ErrHexInvalidByte b).
Proof.
  induction s as [|x|x y l IH] using list_pair_ind.
  - simpl. exists []. split; reflexivity.
  - unfold is_hex. simpl. destruct (hex.fromHexChar x); simpl; eauto.
  - unfold is_hex in *. simpl forallb. simpl hex.DecodeString.
    destruct (hex.fromHexChar x) as [a|]; cbn [andb]; cbv iota; [|eauto].
    destruct (hex.fromHexChar y) as [b|]; cbn [andb]; cbv iota; [|eauto].
    replace (Z.even (len (x :: y :: l))) with (Z.even (len l)).
    2:{ rewrite !len_cons. replace (1 + (1 + len l)) with (len l + 2 * 1) by lia.
        now rewrite Z.even_add_mul_2. }
    destruct (forallb _ l); cbv iota in IH |- *.
    + destruct (Z.even (len l)); cbv iota in IH |- *.
      * destruct IH as [out [Hd Hl]]. rewrite Hd. eexists.
        split; [reflexivity|]. rewrite !len_cons. lia.
      * now rewrite IH.
    + destruct IH as [c Hd]. rewrite Hd. eauto.
Qed.

Lemma Encode_length (p : Position) : len (Pos.Encode p) = 12.
Proof. reflexivity. Qed.

Lemma uint32_small (z : Z) : 0 <= z < 2 ^ 32 -> uint32 z = z.
Proof. intros H. unfold uint32. now apply Z.mod_small. Qed.

Lemma Decode_Encode (p : Position) :
  fits_u32 p -> Pos.Decode (Pos.Encode p) = Ok p.
Proof.
  intros (Hs & Hb & Ho). unfold Pos.Decode. rewrite Encode_length. simpl negb.
  cbv iota. unfold Pos.Encode. rewrite !uint32_small by assumption.
  destruct p as [sg bk off]. simpl SegmentId in *. simpl BlockId in *.
  simpl Offset in *.
  assert (H4 : forall v r, slice (PutUint32 v ++ r) 0 4 = PutUint32 v ++ [])
    by reflexivity.
  assert (H8 : forall u v r,
             slice (PutUint32 u ++ PutUint32 v ++ r) 4 8 = PutUint32 v ++ [])
    by reflexivity.
  assert (H12 : forall u v w,
             slice (PutUint32 u ++ PutUint32 v ++ PutUint32 w) 8 12
             = PutUint32 w ++ []) by reflexivity.
  rewrite H4, H8, H12, !Uint32_PutUint32 by assumption. reflexivity.
Qed.

Lemma Decode_fails_iff (d : list byte) :
  (Pos.Decode d = Err ErrInvalidFormat <-> len d <> 12)
  /\ (forall e, Pos.Decode d = Err e -> e = ErrInvalidFormat).
Proof.
  unfold Pos.Decode. destruct (Z.eqb_spec (len d) 12) as [E|E]; simpl.
  - split; [split; [discriminate | congruence] | discriminate].
  - split; [split; auto | congruence].
Qed.

(** C8 (as amended): a position whose components fit in u32 encodes to
    exactly 12 bytes and decodes back to itself; [Decode] fails, with
    the invalid-format error, exactly when its input is not 12 bytes
    long; [DecodeString] fails on every string that is not 24
    hexadecimal digits, with the hex decoder's invalid-byte error when
    some character is not a digit, with its odd-length error when all
    are digits and the length is odd, and with the invalid-format error
    when all are digits and the length is even but not 24; on 24 digits
    it succeeds. *)
Theorem position_codec (p : Position) (d s : list byte) :
  fits_u32 p ->
  (len (Pos.Encode p) = 12 /\ Pos.Decode (Pos.Encode p) = Ok p)
  /\ ((Pos.Decode d = Err ErrInvalidFormat <-> len d <> 12)
      /\ (forall e, Pos.Decode d = Err e -> e = ErrInvalidFormat))
  /\ (if is_hex s then
        if Z.even (len s) then
          if len s =? 24 then exists q, Pos.DecodeString s = Ok q
          else Pos.DecodeString s = Err ErrInvalidFormat
        else Pos.DecodeString s = Err ErrHexLength
      else exists b, Pos.DecodeString s = Err (ErrHexInvalidByte b)).
Proof.
  intros Hp. split; [split; [apply Encode_length | now apply Decode_Encode]|].
  split; [apply Decode_fails_iff|].
  pose proof (hex_DecodeString_spec s) as H. unfold Pos.DecodeString.
  destruct (is_hex s).
  - destruct (Z.even (len s)).
    + destruct H as [out [-> Hl]]. unfold Pos.Decode.
      destruct (Z.eqb_spec (len s) 24) as [E|E].
      * replace (len out =? 12) with true by (symmetry; apply Z.eqb_eq; lia).
        simpl. eauto.
      * replace (len out =? 12) with false by (symmetry; apply Z.eqb_neq; lia).
        reflexivity.
    + now rewrite H.
  - destruct H as [b ->]. eauto.
Qed.

Lemma position_codec_witness :
  fits_u32 {| SegmentId := 1; BlockId := 2; Offset := 300 |}
  /\ Pos.Decode (Pos.Encode {| SegmentId := 1; BlockId := 2; Offset := 300 |})
     = Ok {| SegmentId := 1; BlockId := 2; Offset := 300 |}.
Proof.
  assert (H : fits_u32 {| SegmentId := 1; BlockId := 2; Offset := 300 |})
    by (unfold fits_u32; simpl; lia).
  split; [exact H|].
  exact (proj2 (proj1 (position_codec _ [] [] H))).
Defined.

(** The claim as stated fails: a 24-character string that is not
    hexadecimal is rejected with the hex decoder's own error, not with
    the invalid-format error. *)
Lemma DecodeString_bad_hex_counterexample :
  let s := list_byte_of_string "zz0000000000000000000000" in
  len s = 24 /\ is_hex s = false
  /\ Pos.DecodeString s = Err (ErrHexInvalidByte "z"%byte)
  /\ Pos.DecodeString s <> Err ErrInvalidFormat.
Proof.
  vm_compute. repeat split; discriminate.
Qed.

(* ================================================================== *)
(** ** CRC-32: a changed byte changes the checksum *)

Lemma lxor_range (n a b : Z) :
  0 < n -> 0 <= a < 2 ^ n -> 0 <= b < 2 ^ n -> 0 <= Z.lxor a b < 2 ^ n.
Proof.
  intros Hn Ha Hb.
  assert (H0 : 0 <= Z.lxor a b) by (apply Z.lxor_nonneg; lia).
  split; [exact H0|].
  destruct (Z.eq_dec (Z.lxor a b) 0) as [->|Hne]; [lia|].
  apply Z.log2_lt_pow2; [lia|].
  pose proof (Z.log2_lxor a b ltac:(lia) ltac:(lia)) as Hl.
  assert (La : Z.log2 a < n).
  { destruct (Z.eq_dec a 0) as [->|]; [simpl; lia|]. apply Z.log2_lt_pow2; lia. }
  assert (Lb : Z.log2 b < n).
  { destruct (Z.eq_dec b 0) as [->|]; [simpl; lia|]. apply Z.log2_lt_pow2; lia. }
  lia.
Qed.



Lemma crc_table_ok_true : forallb crc_entry_ok crc_indices = true.
Proof. vm_compute. reflexivity. Qed.

Lemma in_crc_indices (i : Z) : 0 <= i < 256 -> In i crc_indices.
Proof.
  intros H. apply list_elem_of_In. unfold crc_indices. apply elem_of_seqZ. lia.
Qed.

Lemma crc_entry_ok_true (i : Z) : 0 <= i < 256 -> crc_entry_ok i = true.
Proof.
  intros Hi. apply (proj1 (forallb_forall _ _) crc_table_ok_true).
  now apply in_crc_indices.
Qed.

Lemma entry_range (i : Z) : 0 <= i < 256 -> 0 <= crc32.entry i < 2 ^ 32.
Proof.
  intros Hi. pose proof (crc_entry_ok_true i Hi) as H.
  unfold crc_entry_ok in H.
  apply andb_prop in H as [H _]. apply andb_prop in H as [H1 H2]. lia.
Qed.


Lemma crc_index_range (crc : Z) (v : byte) : 0 <= crc_index crc v < 256.
Proof.
  unfold crc_index. change 256 with (2 ^ 8). apply lxor_range; [lia| |].
  - change 255 with (Z.ones 8). rewrite Z.land_ones by lia.
    apply Z.mod_pos_bound. lia.
  - apply Z_of_byte_range.
Qed.

Lemma step_range (crc : Z) (v : byte) :
  0 <= crc < 2 ^ 32 -> 0 <= crc32.step crc v < 2 ^ 32.
Proof.
  intros Hc. unfold crc32.step. apply lxor_range; [lia| |].
  - apply entry_range, crc_index_range.
  - rewrite Z.shiftr_div_pow2 by lia. split.
    + apply Z.div_pos; lia.
    + apply Z.div_lt_upper_bound; lia.
Qed.




Lemma fold_step_range (p : list byte) (c : Z) :
  0 <= c < 2 ^ 32 -> 0 <= fold_left crc32.step p c < 2 ^ 32.
Proof.
  revert c. induction p as [|v p IH]; intros c Hc; simpl; [exact Hc|].
  apply IH, step_range, Hc.
Qed.


Lemma ChecksumIEEE_range (p : list byte) : 0 <= crc32.ChecksumIEEE p < 2 ^ 32.
Proof.
  unfold crc32.ChecksumIEEE, crc32.simpleUpdate. apply lxor_range; [lia| |].
  - apply fold_step_range. vm_compute. split; [discriminate|reflexivity].
  - vm_compute. split; [discriminate|reflexivity].
Qed.


(* ================================================================== *)
(** ** Slices *)

Lemma blockSize_eq : blockSize = 32768.
Proof. reflexivity. Qed.

Lemma len_slice_from {A} (l : list A) (k : Z) :
  0 <= k <= len l -> len (slice_from l k) = len l - k.
Proof. unfold slice_from, len. rewrite length_drop. lia. Qed.

Lemma slice_from_0 {A} (l : list A) : slice_from l 0 = l.
Proof. reflexivity. Qed.

Lemma slice_from_len {A} (l : list A) : slice_from l (len l) = [].
Proof.
  unfold slice_from, len. rewrite Nat2Z.id. apply drop_all.
Qed.

Lemma slice_from_app {A} (l m : list A) (k : Z) :
  0 <= k <= len l -> slice_from (l ++ m) k = slice_from l k ++ m.
Proof.
  intros H. unfold slice_from, len in *. apply drop_app_le. lia.
Qed.

Lemma slice_from_app_len {A} (l m : list A) :
  slice_from (l ++ m) (len l) = m.
Proof.
  unfold slice_from, len. rewrite Nat2Z.id. apply drop_app_length.
Qed.

Lemma slice_0_app {A} (l m : list A) : slice (l ++ m) 0 (len l) = l.
Proof.
  unfold slice, len. simpl drop. rewrite Z.sub_0_r, Nat2Z.id.
  apply take_app_length.
Qed.

Lemma len_repeat {A} (x : A) (n : nat) : len (repeat x n) = Z.of_nat n.
Proof. unfold len. now rewrite repeat_length. Qed.

Lemma take_repeat {A} (x : A) (n k : nat) :
  (k <= n)%nat -> take k (repeat x n) = repeat x k.
Proof.
  revert n. induction k as [|k IH]; intros n H; [reflexivity|].
  destruct n as [|n]; [lia|]. simpl. f_equal. apply IH. lia.
Qed.

Lemma slice_repeat {A} (x : A) (n : nat) (k : Z) :
  0 <= k <= Z.of_nat n -> slice (repeat x n) 0 k = repeat x (Z.to_nat k).
Proof.
  intros H. unfold slice. simpl drop. rewrite Z.sub_0_r.
  apply take_repeat. lia.
Qed.

Lemma len_paddingBlock_slice (k : Z) :
  0 <= k <= blockSize -> len (slice paddingBlock 0 k) = k.
Proof.
  intros H. unfold paddingBlock. rewrite slice_repeat by lia.
  rewrite len_repeat. lia.
Qed.

Lemma len_slice {A} (l : list A) (lo hi : Z) :
  0 <= lo <= hi -> hi <= len l -> len (slice l lo hi) = hi - lo.
Proof.
  intros H1 H2. unfold slice, len in *. rewrite length_take, length_drop. lia.
Qed.

(* ================================================================== *)
(** ** The segment invariant *)

Lemma wf_NewSegment (id : Z) (file : list byte) : wf (NewSegment id file).
Proof.
  pose proof blockSize_eq as Hbs. pose proof (len_nonneg file) as Hf.
  unfold wf, NewSegment. cbn [currentBlock cachedBlock fd flushed data blk_id].
  pose proof (Z.mod_pos_bound (len file) blockSize ltac:(lia)) as Hm.
  pose proof (Z.div_mod (len file) blockSize ltac:(lia)) as Hd.
  assert (Hq : 0 <= len file / blockSize) by (apply Z.div_pos; lia).
  assert (Hl : len (if negb (len file mod blockSize =? 0)
                    then slice file (len file - len file mod blockSize) (len file)
                    else []) = len file mod blockSize).
  { destruct (Z.eqb_spec (len file mod blockSize) 0) as [E|E]; simpl negb; cbv iota.
    - rewrite E. reflexivity.
    - rewrite len_slice by lia. lia. }
  rewrite Hl, len_repeat, Z2Nat.id by lia.
  split; [lia|]. split; [lia|]. split; [lia|]. split; [lia|].
  split; [lia|]. split; [lia|reflexivity].
Qed.

Lemma stream_len (s : Segment) :
  wf s ->
  len (stream s)
  = blk_id (currentBlock s) * blockSize + len (data (currentBlock s)).
Proof.
  intros (H1 & H2 & H3 & H4 & H5 & H6 & H7). unfold stream.
  rewrite len_app, len_slice_from by lia. lia.
Qed.

Lemma Pos_le_refl (p : Position) : Pos_le p p.
Proof. now right. Qed.

Lemma Pos_lt_trans (p q r : Position) : Pos.lt p q -> Pos.lt q r -> Pos.lt p r.
Proof. unfold Pos.lt. lia. Qed.

Lemma Pos_le_trans (p q r : Position) : Pos_le p q -> Pos_le q r -> Pos_le p r.
Proof.
  intros [H1| ->] [H2| ->]; unfold Pos_le; auto.
  left. eapply Pos_lt_trans; eauto.
Qed.

Lemma Pos_lt_le_trans (p q r : Position) : Pos.lt p q -> Pos_le q r -> Pos.lt p r.
Proof. intros H1 [H2| ->]; [eapply Pos_lt_trans; eauto | exact H1]. Qed.

Lemma Pos_le_lt_trans (p q r : Position) : Pos_le p q -> Pos.lt q r -> Pos.lt p r.
Proof. intros [H1| ->] H2; [eapply Pos_lt_trans; eauto | exact H2]. Qed.

Lemma Pos_lt_irrefl (p : Position) : ~ Pos.lt p p.
Proof. unfold Pos.lt. lia. Qed.

Ltac seg_simpl :=
  cbn [currentBlock cachedBlock fd flushed data blk_id seg_id closed
       set_currentBlock set_fd set_cachedBlock set_closed
       SegmentId BlockId Offset fst snd] in *.

(** What [flushBlock] does to a well-formed segment: it never fails, it
    keeps the invariant, it only appends to the byte stream (nothing
    without padding), with padding it always starts a fresh block, and
    without padding it leaves every buffered byte in the file. *)
Lemma flushBlock_spec (s : Segment) (pad : bool) :
  wf s ->
  exists s' z,
    flushBlock s pad = (s', Ok tt)
    /\ wf s' /\ seg_id s' = seg_id s /\ closed s' = closed s
    /\ cachedBlock s' = cachedBlock s
    /\ stream s' = stream s ++ z
    /\ (pad = false -> z = [] /\ fd s' = stream s)
    /\ (pad = true ->
        data (currentBlock s') = []
        /\ blk_id (currentBlock s') = blk_id (currentBlock s) + 1)
    /\ Pos_le (frontier s) (frontier s').
Proof.
  pose proof blockSize_eq as Hbs.
  destruct s as [id file cl [bid d f] cache].
  unfold wf, stream, frontier, flushBlock. cbv zeta.
  seg_simpl.
  intros (H1 & H2 & H3 & H4 & H5 & H6 & H7).
  pose proof (len_nonneg d) as Hd.
  replace ((f <? 0) || (len d <? f)) with false
    by (symmetry; apply orb_false_iff; split; apply Z.ltb_ge; lia).
  cbv iota. rewrite len_slice_from by lia.
  destruct pad.
  - (* padding *)
    rewrite andb_false_r. cbv iota. cbn [andb].
    set (buf := if len d <? blockSize
                then d ++ slice paddingBlock 0 (blockSize - len d) else d).
    assert (Hbuf : exists z, buf = d ++ z /\ len buf = blockSize).
    { unfold buf. destruct (Z.ltb_spec (len d) blockSize).
      - eexists. split; [reflexivity|].
        rewrite len_app, len_paddingBlock_slice by lia. lia.
      - exists []. rewrite app_nil_r. split; [reflexivity|lia]. }
    destruct Hbuf as (z & Ez & Lz). clearbody buf.
    assert (Ln : len (slice_from buf f) = blockSize - f)
      by (rewrite len_slice_from by lia; lia).
    rewrite Ln. replace (f + (blockSize - f) =? blockSize) with true
      by (symmetry; apply Z.eqb_eq; lia).
    eexists _, z. split; [reflexivity|].
    seg_simpl.
    rewrite len_app, Ln. change (len (@nil byte)) with 0.
    repeat split; try lia; try reflexivity; try discriminate.
    + rewrite Ez, slice_from_app by lia. unfold slice_from at 2. simpl drop.
      now rewrite app_nil_r, app_assoc.
    + left. unfold Pos.lt. simpl. lia.
  - (* no padding *)
    rewrite andb_true_r. cbn [andb]. cbv iota.
    rewrite !len_slice_from by lia.
    destruct (Z.eqb_spec (len d - f) 0) as [E|E].
    + exists {| seg_id := id; fd := file; closed := cl;
                currentBlock := {| blk_id := bid; data := d; flushed := f |};
                cachedBlock := cache |}, [].
      split; [reflexivity|].
      seg_simpl.
      rewrite app_nil_r.
      repeat split; try lia; try reflexivity; try discriminate.
      * replace f with (len d) by lia. now rewrite slice_from_len, app_nil_r.
      * apply Pos_le_refl.
    + destruct (Z.eqb_spec (f + (len d - f)) blockSize) as [E'|E'].
      * eexists _, []. split; [reflexivity|].
        seg_simpl.
        rewrite len_app, len_slice_from, app_nil_r by lia.
        change (len (@nil byte)) with 0.
        repeat split; try lia; try reflexivity; try discriminate.
        -- unfold slice_from at 1. simpl drop. now rewrite app_nil_r.
        -- left. unfold Pos.lt. simpl. lia.
      * eexists _, []. split; [reflexivity|].
        seg_simpl.
        rewrite len_app, len_slice_from, app_nil_r by lia.
        repeat split; try lia; try reflexivity; try discriminate.
        -- replace (f + (len d - f)) with (len d) by lia.
           now rewrite slice_from_len, app_nil_r.
        -- apply Pos_le_refl.
Qed.

Lemma len_chunkHeader (payload : list byte) (t : Z) :
  len (chunkHeader payload t) = chunkHeaderSize.
Proof. reflexivity. Qed.

(** [writeChunk] on a block with room for the chunk. *)
Lemma writeChunk_spec (s : Segment) (payload : list byte) (t : Z) :
  wf s ->
  len (data (currentBlock s)) + chunkHeaderSize + len payload <= blockSize ->
  exists s',
    writeChunk s payload t = (s', frontier s)
    /\ wf s' /\ seg_id s' = seg_id s /\ closed s' = closed s
    /\ cachedBlock s' = cachedBlock s /\ fd s' = fd s
    /\ stream s' = stream s ++ chunkHeader payload t ++ payload
    /\ Pos.lt (frontier s) (frontier s').
Proof.
  destruct s as [id file cl [bid d f] cache].
  unfold wf, stream, frontier, writeChunk. cbv zeta. seg_simpl.
  intros (H1 & H2 & H3 & H4 & H5 & H6 & H7) Hfit.
  pose proof (len_nonneg payload) as Hp.
  assert (Hh := len_chunkHeader payload t). unfold chunkHeaderSize in *.
  eexists. split; [reflexivity|]. seg_simpl.
  rewrite !len_app, Hh.
  repeat split; try lia; try reflexivity.
  - rewrite <- app_assoc, slice_from_app by lia. now rewrite <- app_assoc.
  - unfold Pos.lt. simpl. lia.
Qed.

Lemma writeChunks_cons (s : Segment) (chk : chunk) (rest : list chunk) :
  writeChunks s (chk :: rest)
  = let '(s1, r) :=
      if len (data (currentBlock s)) + chunkHeaderSize + len (chk_data chk)
           >? blockSize
      then flushBlock s true
      else (s, Ok tt) in
    match r with
    | Err e => (s1, Err e)
    | Ok _ =>
        let '(s2, position) := writeChunk s1 (chk_data chk) (chunkType chk) in
        match writeChunks s2 rest with
        | (s3, Ok ps) => (s3, Ok (position :: ps))
        | (s3, Err e) => (s3, Err e)
        end
    end.
Proof. reflexivity. Qed.

(** The loop of [Write] on chunks that each fit in an empty block: it
    never fails, keeps the invariant, only appends to the byte stream,
    puts every chunk inside one block, and the bytes of the first chunk
    sit in the stream at the position it returns for it. *)
Lemma writeChunks_spec (cs : list chunk) (s : Segment) :
  wf s ->
  Forall (fun c => len (chk_data c) <= blockSize - chunkHeaderSize) cs ->
  exists s' ps,
    writeChunks s cs = (s', Ok ps)
    /\ wf s' /\ seg_id s' = seg_id s /\ closed s' = closed s
    /\ cachedBlock s' = cachedBlock s
    /\ (exists z, stream s' = stream s ++ z)
    /\ Pos_le (frontier s) (frontier s')
    /\ Forall2 chunk_fits cs ps
    /\ Forall (fun p => SegmentId p = seg_id s
                        /\ Pos_le (frontier s) p /\ Pos.lt p (frontier s')) ps
    /\ match cs, ps with
       | c :: _, p :: _ =>
           exists pre post,
             stream s' = pre ++ chunk_bytes c ++ post
             /\ len pre = BlockId p * blockSize + Offset p
       | [], [] => s' = s
       | _, _ => False
       end.
Proof.
  revert s. induction cs as [|c rest IH]; intros s Hwf Hcs.
  - exists s, []. simpl.
    split; [reflexivity|]. split; [exact Hwf|]. do 3 (split; [reflexivity|]).
    split; [exists []; now rewrite app_nil_r|].
    split; [apply Pos_le_refl|]. split; [constructor|].
    split; [constructor|reflexivity].
  - apply Forall_cons in Hcs as [Hc Hrest]. cbv beta in Hc.
    pose proof (len_nonneg (chk_data c)) as Hc0.
    assert (Hflush : exists s1 z1,
        (if len (data (currentBlock s)) + chunkHeaderSize + len (chk_data c)
              >? blockSize
         then flushBlock s true else (s, Ok tt)) = (s1, Ok tt)
        /\ wf s1 /\ seg_id s1 = seg_id s /\ closed s1 = closed s
        /\ cachedBlock s1 = cachedBlock s
        /\ stream s1 = stream s ++ z1
        /\ Pos_le (frontier s) (frontier s1)
        /\ len (data (currentBlock s1)) + chunkHeaderSize + len (chk_data c)
           <= blockSize).
    { destruct (Z.gtb_spec (len (data (currentBlock s)) + chunkHeaderSize
                            + len (chk_data c)) blockSize) as [G|G].
      - destruct (flushBlock_spec s true Hwf)
          as (s1 & z1 & E & W & I & C & K & St & _ & Hp & Fr).
        destruct (Hp eq_refl) as [D _].
        exists s1, z1. rewrite D. change (len (@nil byte)) with 0.
        do 7 (split; [assumption|]). lia.
      - exists s, []. rewrite app_nil_r.
        split; [reflexivity|]. split; [exact Hwf|].
        do 4 (split; [reflexivity|]). split; [apply Pos_le_refl|lia]. }
    destruct Hflush as (s1 & z1 & E1 & W1 & I1 & C1 & K1 & St1 & Fr1 & Fit).
    destruct (writeChunk_spec s1 (chk_data c) (chunkType c) W1 Fit)
      as (s2 & E2 & W2 & I2 & C2 & K2 & _ & St2 & Fr2).
    destruct (IH s2 W2 Hrest)
      as (s3 & ps & E3 & W3 & I3 & C3 & K3 & (z3 & St3) & Fr3 & F2 & Fa & _).
    exists s3, (frontier s1 :: ps).
    rewrite writeChunks_cons, E1. cbv beta iota. rewrite E2. cbv beta iota.
    rewrite E3.
    split; [reflexivity|].
    split; [exact W3|].
    split; [congruence|]. split; [congruence|]. split; [congruence|].
    split.
    { eexists. rewrite St3, St2, St1, <- !app_assoc. reflexivity. }
    split.
    { eapply Pos_le_trans; [exact Fr1|]. eapply Pos_le_trans; [|exact Fr3].
      now left. }
    split.
    { constructor; [|exact F2]. unfold chunk_fits, frontier. simpl Offset.
      pose proof (len_nonneg (data (currentBlock s1))). lia. }
    split.
    { constructor.
      - split; [unfold frontier; simpl; congruence|]. split; [exact Fr1|].
        eapply Pos_lt_le_trans; eauto.
      - eapply Forall_impl; [exact Fa|]. intros p (Hs & Hl & Hu).
        split; [congruence|]. split; [|exact Hu].
        eapply Pos_le_trans; [exact Fr1|]. eapply Pos_le_trans; [|exact Hl].
        now left. }
    exists (stream s1), z3. split.
    + rewrite St3, St2. unfold chunk_bytes. now rewrite <- !app_assoc.
    + rewrite stream_len by exact W1. reflexivity.
Qed.

(* ================================================================== *)
(** ** Splitting an entry into chunks *)

Lemma slice_then_rest {A} (l : list A) (lo hi : Z) :
  0 <= lo <= hi -> slice l lo hi ++ slice_from l hi = slice_from l lo.
Proof.
  intros H. unfold slice, slice_from.
  replace (Z.to_nat hi) with (Z.to_nat lo + Z.to_nat (hi - lo))%nat by lia.
  rewrite <- drop_drop. apply take_drop.
Qed.

Lemma splitLoop_done (fuel : nat) (input : list byte) (offset : Z) :
  splitLoop fuel input offset 0 = [].
Proof. destruct fuel; reflexivity. Qed.

Lemma splitLoop_spec (fuel : nat) (input : list byte) (offset remaining : Z) :
  0 <= offset -> 0 <= remaining -> offset + remaining = len input ->
  remaining <= Z.of_nat fuel ->
  Forall (fun c => 0 < len (chk_data c) <= blockSize - chunkHeaderSize)
    (splitLoop fuel input offset remaining)
  /\ all_but_last_full (splitLoop fuel input offset remaining)
  /\ concat (map chk_data (splitLoop fuel input offset remaining))
     = slice_from input offset.
Proof.
  pose proof blockSize_eq as Hbs. unfold chunkHeaderSize.
  revert offset remaining.
  induction fuel as [|fuel IH]; intros offset remaining Ho Hr Hsum Hfuel.
  - assert (remaining = 0) by lia. subst remaining. simpl.
    split; [constructor|]. split; [exact I|].
    replace offset with (len input) by lia. now rewrite slice_from_len.
  - cbn [splitLoop]. destruct (Z.gtb_spec remaining 0) as [G|G].
    2:{ assert (remaining = 0) by lia. subst remaining.
        split; [constructor|]. split; [exact I|].
        replace offset with (len input) by lia. now rewrite slice_from_len. }
    cbv zeta.
    set (chunkSize := if blockSize - chunkHeaderSize >? remaining
                      then remaining else blockSize - chunkHeaderSize).
    assert (Hcs : 0 < chunkSize <= remaining
                  /\ chunkSize <= blockSize - 7
                  /\ (chunkSize < remaining -> chunkSize = blockSize - 7)).
    { unfold chunkSize, chunkHeaderSize.
      destruct (Z.gtb_spec (blockSize - 7) remaining); lia. }
    clearbody chunkSize. destruct Hcs as (Hc1 & Hc2 & Hc3).
    specialize (IH (offset + chunkSize) (remaining - chunkSize)
                  ltac:(lia) ltac:(lia) ltac:(lia) ltac:(lia)).
    destruct IH as (IH1 & IH2 & IH3).
    assert (Hl : len (slice input offset (offset + chunkSize)) = chunkSize)
      by (rewrite len_slice by lia; lia).
    split; [|split].
    + constructor; [|exact IH1]. cbn [chk_data]. rewrite Hl. lia.
    + cbn [all_but_last_full].
      destruct (splitLoop fuel input (offset + chunkSize)
                  (remaining - chunkSize)) as [|c2 r2] eqn:E; [exact I|].
      split; [|exact IH2]. cbn [chk_data]. rewrite Hl. apply Hc3.
      destruct (Z.eq_dec chunkSize remaining) as [Eq|]; [|lia].
      rewrite Eq, Z.sub_diag, splitLoop_done in E. discriminate.
    + cbn [map concat chk_data]. rewrite IH3. apply slice_then_rest. lia.
Qed.

(** The chunks of an entry: each fits in an empty block, together they
    are the entry, none is empty unless the entry is, the first one fits
    in the room left in the current block when there is room, and every
    chunk that is followed by another one fills its block. *)
Lemma splitIntoChunks_spec (s : Segment) (input : list byte) :
  let cs := splitIntoChunks s input in
  let room := blockSize - len (data (currentBlock s)) - chunkHeaderSize in
  Forall (fun c => len (chk_data c) <= blockSize - chunkHeaderSize) cs
  /\ (input <> [] -> Forall (fun c => 0 < len (chk_data c)) cs)
  /\ concat (map chk_data cs) = input
  /\ (if room >? 0 then
        exists c rest,
          cs = c :: rest
          /\ len (chk_data c) <= room
          /\ (rest <> [] -> len (chk_data c) = room)
          /\ Forall (fun c => 0 < len (chk_data c)) rest
          /\ all_but_last_full rest
      else
        Forall (fun c => 0 < len (chk_data c)) cs /\ all_but_last_full cs).
Proof.
  pose proof blockSize_eq as Hbs. pose proof (len_nonneg input) as Hi.
  pose proof (len_nonneg (data (currentBlock s))) as Hd.
  cbv zeta. unfold splitIntoChunks. cbv zeta. unfold chunkHeaderSize.
  set (room := blockSize - len (data (currentBlock s)) - 7).
  destruct (Z.gtb_spec room 0) as [G|G].
  - set (chunkSize := if room >? len input then len input else room).
    assert (Hcs : 0 <= chunkSize <= len input /\ chunkSize <= room
                  /\ (chunkSize < len input -> chunkSize = room)
                  /\ (0 < len input -> 0 < chunkSize)).
    { unfold chunkSize. destruct (Z.gtb_spec room (len input)); lia. }
    clearbody chunkSize. destruct Hcs as (Hc1 & Hc2 & Hc3 & Hc4).
    assert (Hl : len (slice input 0 (0 + chunkSize)) = chunkSize)
      by (rewrite len_slice by lia; lia).
    destruct (splitLoop_spec (length input) input (0 + chunkSize)
                (len input - chunkSize))
      as (L1 & L2 & L3); try (unfold len in *; lia).
    assert (L1' : Forall (fun c => 0 < len (chk_data c))
                    (splitLoop (length input) input (0 + chunkSize)
                       (len input - chunkSize)))
      by (eapply Forall_impl; [exact L1|]; intros c Hc; cbv beta in *; lia).
    split; [|split; [|split]].
    + constructor.
      * cbn [chk_data]. rewrite Hl. unfold room in Hc2. lia.
      * eapply Forall_impl; [exact L1|]. intros c Hc. cbv beta in *.
        unfold chunkHeaderSize in *. lia.
    + intros Hne. constructor; [|exact L1'].
      cbn [chk_data]. rewrite Hl. apply Hc4.
      destruct input; [congruence|]. rewrite len_cons.
      pose proof (len_nonneg input). lia.
    + cbn [map concat chk_data]. rewrite L3.
      rewrite slice_then_rest by lia. reflexivity.
    + eexists _, _. split; [reflexivity|]. cbn [chk_data]. rewrite Hl.
      split; [exact Hc2|]. split; [|split; [exact L1'|exact L2]].
      intros Hne. apply Hc3.
      destruct (Z.eq_dec chunkSize (len input)) as [Eq|]; [|lia].
      rewrite Eq, Z.sub_diag, splitLoop_done in Hne. congruence.
  - destruct (splitLoop_spec (length input) input 0 (len input))
      as (L1 & L2 & L3); try (unfold len in *; lia).
    assert (L1' : Forall (fun c => 0 < len (chk_data c))
                    (splitLoop (length input) input 0 (len input)))
      by (eapply Forall_impl; [exact L1|]; intros c Hc; cbv beta in *; lia).
    split; [|split; [|split; [|split]]]; auto.
    eapply Forall_impl; [exact L1|]. intros c Hc. cbv beta in *.
    unfold chunkHeaderSize in *. lia.
Qed.

(* ================================================================== *)
(** ** The methods keep the invariant *)

Lemma len_ReadFull (file : list byte) (off : Z) (buf : list byte) :
  len (fst (ReadFull file off buf)) = len buf.
Proof.
  unfold ReadFull. cbv zeta. cbn [fst].
  pose proof (len_nonneg buf). pose proof (len_nonneg (slice_from file off)).
  rewrite len_app, len_slice, (len_slice_from buf) by lia. lia.
Qed.

(** [readBlock] touches nothing but the cache. *)
Lemma readBlock_preserves (s : Segment) (blockID : Z) :
  wf s ->
  wf (fst (readBlock s blockID))
  /\ seg_id (fst (readBlock s blockID)) = seg_id s
  /\ fd (fst (readBlock s blockID)) = fd s
  /\ closed (fst (readBlock s blockID)) = closed s
  /\ currentBlock (fst (readBlock s blockID)) = currentBlock s.
Proof.
  intros Hwf. unfold readBlock.
  destruct (closed s) eqn:Ec; [cbn [fst]; auto|].
  destruct (blk_id (cachedBlock s) =? blockID); [cbn [fst]; auto|].
  destruct (blockID * blockSize <? 0); [cbn [fst]; auto|].
  cbv zeta.
  pose proof (len_ReadFull (fd s) (blockID * blockSize)
                (slice (data (cachedBlock s)) 0 blockSize)) as Hl.
  destruct (ReadFull _ _ _) as [buf' err]. cbn [fst] in Hl.
  assert (Hs : wf (set_cachedBlock s
                     {| blk_id := blockID; data := buf';
                        flushed := flushed (cachedBlock s) |})).
  { destruct Hwf as (H1 & H2 & H3 & H4 & H5 & H6 & H7).
    unfold wf. seg_simpl. rewrite Hl, len_slice by (rewrite ?H7; lia).
    pose proof blockSize_eq. repeat split; lia. }
  destruct err as [e|]; [destruct e|]; cbn [fst]; seg_simpl; auto.
Qed.

Lemma Read_loop_preserves (fuel : nat) (s : Segment) (p : Position)
  (entry : list byte) :
  wf s ->
  wf (fst (Read_loop fuel s p entry))
  /\ seg_id (fst (Read_loop fuel s p entry)) = seg_id s
  /\ fd (fst (Read_loop fuel s p entry)) = fd s
  /\ closed (fst (Read_loop fuel s p entry)) = closed s
  /\ currentBlock (fst (Read_loop fuel s p entry)) = currentBlock s.
Proof.
  revert s p entry. induction fuel as [|fuel IH]; intros s p entry Hwf.
  - cbn [Read_loop fst]. auto.
  - cbn [Read_loop].
    destruct (readBlock_preserves s (BlockId p) Hwf) as (W & I & F & C & B).
    destruct (readBlock s (BlockId p)) as [s1 [blockData|e]]; cbn [fst] in *;
      [|auto].
    repeat match goal with
           | |- context [if ?b then _ else _] => destruct b; cbn [fst]; auto
           | |- context [match readChunk ?x with _ => _ end] =>
               destruct (readChunk x); cbn [fst]; auto
           end.
    all: match goal with
         | |- context [Read_loop _ _ ?q ?e] =>
             destruct (IH s1 q e W) as (W' & I' & F' & C' & B');
             split; [exact W'|]; repeat split; congruence
         end.
Qed.

Lemma Read_preserves (s : Segment) (p : Position) :
  wf s ->
  wf (fst (Read s p))
  /\ seg_id (fst (Read s p)) = seg_id s
  /\ fd (fst (Read s p)) = fd s
  /\ closed (fst (Read s p)) = closed s
  /\ currentBlock (fst (Read s p)) = currentBlock s.
Proof. apply Read_loop_preserves. Qed.

(** [Write] on an open well-formed segment runs the loop over the chunks
    of the entry and returns the first position. *)
Lemma Write_spec (s : Segment) (input : list byte) :
  wf s -> closed s = false ->
  exists s' ps,
    writeChunks s (splitIntoChunks s input) = (s', Ok ps)
    /\ Write s input = (s', Ok (head ps))
    /\ wf s' /\ seg_id s' = seg_id s /\ closed s' = false
    /\ cachedBlock s' = cachedBlock s
    /\ Pos_le (frontier s) (frontier s')
    /\ Forall (fun p => SegmentId p = seg_id s
                        /\ Pos_le (frontier s) p /\ Pos.lt p (frontier s')) ps.
Proof.
  intros Hwf Hc.
  destruct (splitIntoChunks_spec s input) as (Hsz & _).
  destruct (writeChunks_spec _ s Hwf Hsz)
    as (s' & ps & E & W & I & C & K & _ & Fr & _ & Fa & _).
  exists s', ps. unfold Write. rewrite Hc, E.
  split; [reflexivity|]. split; [reflexivity|]. split; [exact W|].
  split; [exact I|]. split; [congruence|]. split; [exact K|].
  split; [exact Fr|exact Fa].
Qed.

Lemma Write_wf (s : Segment) (input : list byte) :
  wf s -> wf (fst (Write s input)).
Proof.
  intros Hwf. destruct (closed s) eqn:Ec.
  - unfold Write. now rewrite Ec.
  - destruct (Write_spec s input Hwf Ec) as (s' & ps & _ & E & W & _).
    now rewrite E.
Qed.

Lemma Sync_wf (s : Segment) : wf s -> wf (fst (Sync s)).
Proof.
  intros Hwf. unfold Sync. destruct (closed s); [exact Hwf|].
  destruct (flushBlock_spec s false Hwf) as (s' & z & E & W & _).
  now rewrite E.
Qed.

Lemma Close_wf (s : Segment) : wf s -> wf (fst (Close s)).
Proof.
  intros Hwf. unfold Close. destruct (closed s); [exact Hwf|].
  destruct (flushBlock_spec s true Hwf) as (s' & z & E & W & _).
  rewrite E. cbn [fst]. exact W.
Qed.

Lemma reachable_wf (s : Segment) : reachable s -> wf s.
Proof.
  induction 1.
  - apply wf_NewSegment.
  - now apply Write_wf.
  - now apply Sync_wf.
  - now apply Read_preserves.
  - now apply Close_wf.
Qed.

(* ================================================================== *)
(** ** One chunk per block *)

Lemma writeChunk_frontier (s : Segment) (payload : list byte) (t : Z) :
  frontier (fst (writeChunk s payload t))
  = {| SegmentId := seg_id s; BlockId := blk_id (currentBlock s);
       Offset := len (data (currentBlock s)) + chunkHeaderSize + len payload |}.
Proof.
  unfold writeChunk, frontier. cbv zeta. seg_simpl. f_equal.
  rewrite !len_app, len_chunkHeader. lia.
Qed.

(** Chunks written from a block that has no room for another chunk go
    to fresh blocks, one each. *)
Lemma writeChunks_new_blocks (cs : list chunk) (s s' : Segment)
  (ps : list Position) :
  wf s ->
  blockSize <= len (data (currentBlock s)) + chunkHeaderSize ->
  Forall (fun c => 0 < len (chk_data c) <= blockSize - chunkHeaderSize) cs ->
  all_but_last_full cs ->
  writeChunks s cs = (s', Ok ps) ->
  Forall (fun p => blk_id (currentBlock s) < BlockId p) ps
  /\ StronglySorted (fun p q => BlockId p < BlockId q) ps.
Proof.
  revert s s' ps. induction cs as [|c rest IH]; intros s s' ps Hwf Hfull Hcs Hab E.
  - simpl in E. inversion E. subst. split; constructor.
  - apply Forall_cons in Hcs as [Hc Hrest]. cbv beta in Hc.
    rewrite writeChunks_cons in E.
    replace (len (data (currentBlock s)) + chunkHeaderSize + len (chk_data c)
             >? blockSize) with true in E
      by (symmetry; apply Z.gtb_lt; lia).
    destruct (flushBlock_spec s true Hwf)
      as (s1 & z1 & E1 & W1 & I1 & C1 & K1 & St1 & _ & Hp & Fr1).
    destruct (Hp eq_refl) as [D1 B1].
    rewrite E1 in E. cbv beta iota in E.
    assert (Fit : len (data (currentBlock s1)) + chunkHeaderSize
                  + len (chk_data c) <= blockSize)
      by (rewrite D1; change (len (@nil byte)) with 0; lia).
    destruct (writeChunk_spec s1 (chk_data c) (chunkType c) W1 Fit)
      as (s2 & E2 & W2 & _).
    pose proof (writeChunk_frontier s1 (chk_data c) (chunkType c)) as Fr2.
    rewrite E2 in E, Fr2. cbn [fst] in Fr2. cbv beta iota in E.
    injection Fr2 as _ B2 L2.
    rewrite D1 in L2. change (len (@nil byte)) with 0 in L2.
    destruct rest as [|c2 rest2].
    + simpl in E. inversion E. subst.
      split; repeat constructor. unfold frontier. simpl. lia.
    + destruct Hab as [Hlen Hab].
      assert (Hrest' := Hrest).
      assert (Wr : Forall (fun c => len (chk_data c) <= blockSize - chunkHeaderSize)
                     (c2 :: rest2))
        by (eapply Forall_impl; [exact Hrest|]; intros x Hx; cbv beta in *; lia).
      destruct (writeChunks_spec _ s2 W2 Wr) as (s3 & ps3 & E3 & _).
      rewrite E3 in E. inversion E. subst s' ps.
      assert (Hfull2 : blockSize <= len (data (currentBlock s2)) + chunkHeaderSize)
        by (unfold chunkHeaderSize in *; lia).
      destruct (IH s2 s3 ps3 W2 Hfull2 Hrest' Hab E3) as (F3 & S3).
      split.
      * constructor; [unfold frontier; simpl; lia|].
        eapply Forall_impl; [exact F3|]. intros p Hp'. cbv beta in *. lia.
      * constructor; [exact S3|].
        eapply Forall_impl; [exact F3|]. intros p Hp'. cbv beta in *.
        unfold frontier. simpl. lia.
Qed.

(** C5: for every segment reached through the methods and every entry,
    the loop of [Write] writes each chunk of the entry entirely inside
    one block (header offset plus header and payload length is at most
    [blockSize]) and writes at most one chunk of the entry per block
    (the block ids of the chunks strictly increase); the loop does not
    fail, and [Write] on an open segment returns the first position. *)
Theorem chunks_never_straddle (s : Segment) (input : list byte) :
  reachable s ->
  exists s' ps,
    writeChunks s (splitIntoChunks s input) = (s', Ok ps)
    /\ (closed s = false -> Write s input = (s', Ok (head ps)))
    /\ Forall2 (fun c p =>
                  0 <= Offset p
                  /\ Offset p + (chunkHeaderSize + len (chk_data c))
                     <= blockSize)
         (splitIntoChunks s input) ps
    /\ StronglySorted (fun p q => BlockId p < BlockId q) ps.
Proof.
  intros Hr. pose proof (reachable_wf s Hr) as Hwf.
  destruct (splitIntoChunks_spec s input) as (Hsz & _ & _ & Hst).
  destruct (writeChunks_spec _ s Hwf Hsz)
    as (s' & ps & E & W & I & C & K & _ & Fr & F2 & Fa & _).
  exists s', ps. split; [exact E|]. split.
  { intros Hc. unfold Write. now rewrite Hc, E. }
  split; [exact F2|].
  cbv zeta in Hst.
  destruct (Z.gtb_spec (blockSize - len (data (currentBlock s)) - chunkHeaderSize) 0)
    as [G|G].
  - destruct Hst as (c & rest & Ecs & Hc & Hfill & Hpos & Hab).
    rewrite Ecs in E. rewrite writeChunks_cons in E.
    replace (len (data (currentBlock s)) + chunkHeaderSize + len (chk_data c)
             >? blockSize) with false in E
      by (symmetry; rewrite Z.gtb_ltb; apply Z.ltb_ge; lia).
    cbv beta iota in E.
    assert (Fit : len (data (currentBlock s)) + chunkHeaderSize
                  + len (chk_data c) <= blockSize) by lia.
    destruct (writeChunk_spec s (chk_data c) (chunkType c) Hwf Fit)
      as (s2 & E2 & W2 & _).
    pose proof (writeChunk_frontier s (chk_data c) (chunkType c)) as Fr2.
    rewrite E2 in E, Fr2. cbn [fst] in Fr2. cbv beta iota in E.
    injection Fr2 as _ B2 L2.
    destruct rest as [|c2 rest2].
    + simpl in E. inversion E. subst. repeat constructor.
    + assert (Wr : Forall (fun c => 0 < len (chk_data c)
                                    <= blockSize - chunkHeaderSize)
                     (c2 :: rest2)).
      { rewrite Ecs in Hsz. apply Forall_cons in Hsz as [_ Hsz].
        rewrite Forall_forall in Hsz, Hpos. apply Forall_forall.
        intros x Hx. specialize (Hsz x Hx). specialize (Hpos x Hx). lia. }
      assert (Wr' : Forall (fun c => len (chk_data c)
                                     <= blockSize - chunkHeaderSize)
                      (c2 :: rest2))
        by (eapply Forall_impl; [exact Wr|]; intros x Hx; cbv beta in *; lia).
      destruct (writeChunks_spec _ s2 W2 Wr') as (s3 & ps3 & E3 & _).
      rewrite E3 in E. inversion E. subst s' ps.
      specialize (Hfill ltac:(discriminate)).
      assert (Hfull2 : blockSize <= len (data (currentBlock s2)) + chunkHeaderSize)
        by (unfold chunkHeaderSize in *; lia).
      destruct (writeChunks_new_blocks _ s2 s3 ps3 W2 Hfull2 Wr Hab E3)
        as (F3 & S3).
      constructor; [exact S3|].
      eapply Forall_impl; [exact F3|]. intros p Hp'. cbv beta in *.
      unfold frontier. simpl. lia.
  - destruct Hst as (Hpos & Hab).
    assert (Wr : Forall (fun c => 0 < len (chk_data c)
                                  <= blockSize - chunkHeaderSize)
                   (splitIntoChunks s input)).
    { rewrite Forall_forall in Hsz, Hpos. apply Forall_forall.
      intros x Hx. specialize (Hsz x Hx). specialize (Hpos x Hx). lia. }
    assert (Hfull : blockSize <= len (data (currentBlock s)) + chunkHeaderSize)
      by (unfold chunkHeaderSize in *; lia).
    eapply (writeChunks_new_blocks _ s s' ps Hwf Hfull Wr Hab E).
Qed.

Lemma chunks_never_straddle_witness :
  let s := NewSegment 0 [] in
  let input := repeat "a"%byte (Z.to_nat 70000) in
  reachable s
  /\ exists s' ps,
       writeChunks s (splitIntoChunks s input) = (s', Ok ps)
       /\ (closed s = false -> Write s input = (s', Ok (head ps)))
       /\ Forall2 (fun c p =>
                     0 <= Offset p
                     /\ Offset p + (chunkHeaderSize + len (chk_data c))
                        <= blockSize)
            (splitIntoChunks s input) ps
       /\ StronglySorted (fun p q => BlockId p < BlockId q) ps.
Proof.
  split; [apply reach_new | apply chunks_never_straddle; apply reach_new].
Defined.

(* ================================================================== *)
(** ** Writing the empty entry *)




(* ================================================================== *)
(** ** Reading back what was just written *)

(** C1 (the code at the failing input): on a log opened on an empty
    directory, whatever the segment size, reading the entry
    "hello, world" at the position its write returned, with no sync in
    between, does not return the entry: [readBlock] loads the block from
    the file, the chunk is still in the block buffer, and the read ends
    with io.EOF. *)
Theorem Read_after_unsynced_Write (segment_size : Z) :
  write_then_read (Open {| SegmentSize := segment_size |} ∅)
    (list_byte_of_string "hello, world")
  = Err ErrEOF.
Proof. destruct segment_size; vm_compute; reflexivity. Qed.

(** With a sync between the write and the read the entry comes back. *)
Lemma Read_after_synced_Write (segment_size : Z) :
  write_sync_read (Open {| SegmentSize := segment_size |} ∅)
    (list_byte_of_string "hello, world")
  = Ok (list_byte_of_string "hello, world").
Proof. destruct segment_size; vm_compute; reflexivity. Qed.

(* ================================================================== *)
(** ** The size of a segment *)

(** What [Size] computes, case by case. *)
Lemma Size_cases (s : Segment) :
  (flushed (currentBlock s) = 0 ->
   Size s = blk_id (currentBlock s) * blockSize)
  /\ (flushed (currentBlock s) <> 0 -> blk_id (currentBlock s) <= 0 ->
      Size s = flushed (currentBlock s))
  /\ (flushed (currentBlock s) <> 0 -> 0 < blk_id (currentBlock s) ->
      Size s
      = blk_id (currentBlock s) * blockSize + flushed (currentBlock s)
        - blockSize).
Proof.
  unfold Size.
  destruct (Z.eqb_spec (flushed (currentBlock s)) 0);
    destruct (Z.leb_spec (blk_id (currentBlock s)) 0);
    repeat split; intros; lia.
Qed.

(** C2 (the code at the failing input): a segment opened on a file of
    [blockSize + 8] bytes has current block 1 with 8 flushed bytes, and
    [Size] returns 8, one block short of the 32776 bytes of the file;
    the same happens to a segment that reached block 1 through writes
    and a sync. *)
Theorem Size_loses_a_block :
  (blk_id (currentBlock opened_on_partial_second_block) = 1
   /\ flushed (currentBlock opened_on_partial_second_block) = 8
   /\ len (fd opened_on_partial_second_block) = 1 * blockSize + 8
   /\ Size opened_on_partial_second_block = 8)
  /\ (blk_id (currentBlock written_into_second_block) = 1
      /\ flushed (currentBlock written_into_second_block) = 8
      /\ len (fd written_into_second_block) = 1 * blockSize + 8
      /\ Size written_into_second_block = 8).
Proof. vm_compute. repeat split; reflexivity. Qed.

(* ================================================================== *)
(** ** The streaming reader on three entries *)

(** C4: on a log opened on an empty directory, whatever the segment
    size, after writing "entry1", "entry2", "entry3" and syncing, a
    reader created at the first position returns the three entries in
    order and then io.EOF. *)
Theorem reader_scenario_correct (segment_size : Z) :
  reader_scenario segment_size
  = [Ok (list_byte_of_string "entry1"); Ok (list_byte_of_string "entry2");
     Ok (list_byte_of_string "entry3"); Err ErrEOF].
Proof. destruct segment_size; vm_compute; reflexivity. Qed.

(* ================================================================== *)
(** ** The read cache *)

Lemma flushBlock_cache (s : Segment) (pad : bool) :
  cachedBlock (fst (flushBlock s pad)) = cachedBlock s
  /\ closed (fst (flushBlock s pad)) = closed s.
Proof.
  unfold flushBlock. cbv zeta.
  repeat match goal with
         | |- context [if ?b then _ else _] => destruct b
         end; cbn [fst]; seg_simpl; auto.
Qed.

Lemma writeChunks_cache (cs : list chunk) (s : Segment) :
  cachedBlock (fst (writeChunks s cs)) = cachedBlock s
  /\ closed (fst (writeChunks s cs)) = closed s.
Proof.
  revert s. induction cs as [|c rest IH]; intros s; [cbn; auto|].
  rewrite writeChunks_cons.
  assert (H : forall s1 r,
             cachedBlock s1 = cachedBlock s -> closed s1 = closed s ->
             cachedBlock (fst (match r : result unit with
                               | Err e => (s1, Err e)
                               | Ok _ =>
                                   let '(s2, position) :=
                                     writeChunk s1 (chk_data c) (chunkType c) in
                                   match writeChunks s2 rest with
                                   | (s3, Ok ps) => (s3, Ok (position :: ps))
                                   | (s3, Err e) => (s3, Err e)
                                   end
                               end)) = cachedBlock s
             /\ closed (fst (match r : result unit with
                             | Err e => (s1, Err e)
                             | Ok _ =>
                                 let '(s2, position) :=
                                   writeChunk s1 (chk_data c) (chunkType c) in
                                 match writeChunks s2 rest with
                                 | (s3, Ok ps) => (s3, Ok (position :: ps))
                                 | (s3, Err e) => (s3, Err e)
                                 end
                             end)) = closed s).
  { intros s1 r Hk Hc. destruct r as [u|e]; [|cbn [fst]; auto].
    unfold writeChunk. cbv zeta.
    match goal with
    | |- context [writeChunks ?s2 rest] =>
        destruct (IH s2) as [Ik Ic]; destruct (writeChunks s2 rest) as [s3 [ps|e]]
    end; cbn [fst] in *; seg_simpl; split; congruence. }
  destruct (_ >? _).
  - destruct (flushBlock_cache s true) as [Hk Hc].
    destruct (flushBlock s true) as [s1 r]. cbn [fst] in Hk, Hc.
    cbv beta iota. now apply H.
  - cbv beta iota. now apply (H s (Ok tt)).
Qed.

Lemma Write_cache (s : Segment) (input : list byte) :
  cachedBlock (fst (Write s input)) = cachedBlock s
  /\ closed (fst (Write s input)) = closed s.
Proof.
  unfold Write. destruct (closed s) eqn:E; [cbn [fst]; auto|].
  destruct (writeChunks_cache (splitIntoChunks s input) s) as [Hk Hc].
  destruct (writeChunks s (splitIntoChunks s input)) as [s' [ps|e]];
    cbn [fst] in *; split; congruence.
Qed.

Lemma Sync_cache (s : Segment) :
  cachedBlock (fst (Sync s)) = cachedBlock s
  /\ closed (fst (Sync s)) = closed s.
Proof.
  unfold Sync. destruct (closed s) eqn:E; [cbn [fst]; auto|].
  destruct (flushBlock_cache s false) as [Hk Hc]. split; congruence.
Qed.

Lemma readBlock_hit (s : Segment) :
  closed s = false ->
  readBlock s (blk_id (cachedBlock s)) = (s, Ok (data (cachedBlock s))).
Proof.
  intros Hc. unfold readBlock. now rewrite Hc, Z.eqb_refl.
Qed.

(** C10: no write, sync or flush touches the read cache: after any
    sequence of writes, syncs and loads of the cached block, the cache
    is the one the sequence started with, and loading that block
    returns the bytes cached at the start.  In the scenario
    write "e1"; sync; read; write "e2" (same block); sync, the read at
    the second position does not return "e2" (it ends with io.EOF on
    the stale zero bytes) although the file holds the chunk of "e2" at
    that position. *)
Theorem read_cache_never_invalidated (s : Segment) (ops : list cache_op) :
  closed s = false ->
  let b := blk_id (cachedBlock s) in
  let s' := foldl (run_cache_op b) s ops in
  (forall (input : list byte) (pad : bool),
      cachedBlock (fst (Write s input)) = cachedBlock s
      /\ cachedBlock (fst (Sync s)) = cachedBlock s
      /\ cachedBlock (fst (flushBlock s pad)) = cachedBlock s)
  /\ cachedBlock s' = cachedBlock s
  /\ readBlock s' b = (s', Ok (data (cachedBlock s)))
  /\ stale_cache_scenario
     = Some ({| SegmentId := 0; BlockId := 0; Offset := 0 |},
             {| SegmentId := 0; BlockId := 0; Offset := 9 |},
             Ok (list_byte_of_string "e1"), Err ErrEOF,
             Ok {| chk_data := list_byte_of_string "e2";
                   chunkType := kFullType |}).
Proof.
  intros Hc b s'. split.
  { intros input pad. split; [apply Write_cache|].
    split; [apply Sync_cache|apply flushBlock_cache]. }
  assert (H : cachedBlock s' = cachedBlock s /\ closed s' = false).
  { subst s'. revert s b Hc. induction ops as [|o ops IH]; intros s b Hc.
    - cbn. auto.
    - cbn [foldl].
      assert (Ho : cachedBlock (run_cache_op b s o) = cachedBlock s
                   /\ closed (run_cache_op b s o) = false).
      { destruct o as [input| |]; cbn [run_cache_op].
        - destruct (Write_cache s input). split; congruence.
        - destruct (Sync_cache s). split; congruence.
        - subst b. rewrite readBlock_hit by exact Hc. cbn [fst]. auto. }
      destruct Ho as [Hk Hcl].
      specialize (IH (run_cache_op b s o) Hcl). cbv zeta in IH.
      rewrite Hk in IH. fold b in IH. destruct IH as [IH1 IH2].
      split; congruence. }
  destruct H as [Hk Hcl]. split; [exact Hk|]. split.
  - subst b. rewrite <- Hk. now apply readBlock_hit.
  - vm_compute. reflexivity.
Qed.

Lemma read_cache_never_invalidated_witness :
  let s := fst (Read (fst (Sync (fst (Write (NewSegment 0 [])
                                       (list_byte_of_string "e1")))))
                  {| SegmentId := 0; BlockId := 0; Offset := 0 |}) in
  let ops := [CWrite (list_byte_of_string "e2"); CSync; CReadBlock] in
  closed s = false
  /\ cachedBlock (foldl (run_cache_op (blk_id (cachedBlock s))) s ops)
     = cachedBlock s.
Proof.
  assert (H : closed (fst (Read (fst (Sync (fst (Write (NewSegment 0 [])
                                       (list_byte_of_string "e1")))))
                  {| SegmentId := 0; BlockId := 0; Offset := 0 |})) = false)
    by (vm_compute; reflexivity).
  split; [exact H|].
  exact (proj1 (proj2 (read_cache_never_invalidated _ _ H))).
Defined.

(* ================================================================== *)
(** ** Rotation *)

Lemma Sync_spec (s : Segment) :
  wf s -> closed s = false ->
  exists s',
    Sync s = (s', Ok tt)
    /\ wf s' /\ seg_id s' = seg_id s /\ closed s' = false
    /\ cachedBlock s' = cachedBlock s
    /\ fd s' = stream s /\ stream s' = stream s
    /\ Pos_le (frontier s) (frontier s').
Proof.
  intros Hwf Hc. unfold Sync. rewrite Hc.
  destruct (flushBlock_spec s false Hwf)
    as (s' & z & E & W & I & C & K & St & Hz & _ & Fr).
  destruct (Hz eq_refl) as [-> Hfd]. rewrite app_nil_r in St.
  exists s'. repeat split; auto; try apply W. congruence.
Qed.




(* ================================================================== *)
(** ** Positions returned by writes increase *)







Lemma foldl_insert_lookup {V} (f : Z -> V) (l : list Z) (m0 : gmap Z V) (k : Z) :
  k ∈ l ->
  foldl (fun m i => <[i := f i]> m) m0 l !! k = Some (f k).
Proof.
  assert (H : forall (l : list Z) (m0 : gmap Z V),
             foldl (fun m i => <[i := f i]> m) m0 l !! k = Some (f k)
             \/ ((k ∉ l)
                 /\ foldl (fun m i => <[i := f i]> m) m0 l !! k = m0 !! k)).
  { clear l m0. induction l as [|a l IH]; intros m0.
    - right. split; [apply not_elem_of_nil|reflexivity].
    - cbn [foldl]. destruct (IH (<[a := f a]> m0)) as [H|[Hn H]]; [now left|].
      destruct (Z.eq_dec a k) as [->|Hne].
      + left. rewrite H. apply lookup_insert_eq.
      + right. split.
        * intros Hin. apply elem_of_cons in Hin as [Hin|Hin]; [congruence|auto].
        * rewrite H. now apply lookup_insert_ne. }
  intros Hin. destruct (H l m0) as [Hs|[Hn _]]; [exact Hs|contradiction].
Qed.






(** A history with a rotation after every write (segment size 0), a
    sync and a read: the positions the three writes return. *)
Example write_positions_example :
  snd (wal_run (Open {| SegmentSize := 0 |} ∅)
         [OpWrite (list_byte_of_string "entry1"); OpSync;
          OpWrite (list_byte_of_string "entry2");
          OpRead {| SegmentId := 1; BlockId := 0; Offset := 0 |};
          OpWrite (list_byte_of_string "entry3")])
  = [{| SegmentId := 1; BlockId := 0; Offset := 0 |};
     {| SegmentId := 2; BlockId := 0; Offset := 0 |};
     {| SegmentId := 3; BlockId := 0; Offset := 0 |}].
Proof. vm_compute. reflexivity. Qed.

(* ================================================================== *)
(** ** Decoding a chunk *)





(** [readChunk] on a buffer that starts with a 7-byte header whose
    length field is the length of the payload that follows it. *)
Lemma readChunk_framed (c0 c1 c2 c3 l0 l1 t : byte) (payload rest : list byte) :
  Uint16 [l0; l1] = len payload ->
  readChunk ([c0; c1; c2; c3; l0; l1; t] ++ payload ++ rest)
  = if crc32.ChecksumIEEE payload =? Uint32 [c0; c1; c2; c3]
    then Ok {| chk_data := payload; chunkType := Z_of_byte t |}
    else Err ErrInvalidCRC.
Proof.
  intros HL. unfold readChunk.
  pose proof (len_nonneg payload) as Hp. pose proof (len_nonneg rest) as Hr.
  assert (Hlen : len ([c0; c1; c2; c3; l0; l1; t] ++ payload ++ rest)
                 = 7 + len payload + len rest).
  { rewrite !len_app. change (len [c0; c1; c2; c3; l0; l1; t]) with 7. lia. }
  rewrite Hlen. unfold chunkHeaderSize.
  replace (7 + len payload + len rest <? 7) with false
    by (symmetry; apply Z.ltb_ge; lia).
  cbv zeta.
  change (slice ([c0; c1; c2; c3; l0; l1; t] ++ payload ++ rest) 4 6)
    with [l0; l1].
  change (slice ([c0; c1; c2; c3; l0; l1; t] ++ payload ++ rest) 0 4)
    with [c0; c1; c2; c3].
  rewrite HL.
  replace (len payload + 7 >? 7 + len payload + len rest) with false
    by (symmetry; rewrite Z.gtb_ltb; apply Z.ltb_ge; lia).
  assert (Hs : slice ([c0; c1; c2; c3; l0; l1; t] ++ payload ++ rest) 7
                 (7 + len payload) = payload).
  { unfold slice. change (Z.to_nat 7) with 7%nat.
    change (drop 7 ([c0; c1; c2; c3; l0; l1; t] ++ payload ++ rest))
      with (payload ++ rest).
    replace (Z.to_nat (7 + len payload - 7)) with (length payload)
      by (unfold len; lia).
    apply take_app_length. }
  rewrite Hs. change (nth 6 ([c0; c1; c2; c3; l0; l1; t] ++ payload ++ rest) x00)
    with t.
  destruct (crc32.ChecksumIEEE payload =? Uint32 [c0; c1; c2; c3]); reflexivity.
Qed.

(* ================================================================== *)
(** ** Loading a block that is not cached *)

Lemma slice_from_slice_0 {A} (l : list A) (n o : Z) :
  0 <= o <= n ->
  slice_from (slice l 0 n) o = take (Z.to_nat (n - o)) (slice_from l o).
Proof.
  intros H. unfold slice, slice_from. change (Z.to_nat 0) with 0%nat.
  cbn [drop]. rewrite Z.sub_0_r.
  replace (Z.to_nat n) with (Z.to_nat o + Z.to_nat (n - o))%nat by lia.
  now rewrite <- take_drop_commute.
Qed.

(** When the file holds the bytes [X] at offset [O] of block [B] and the
    cache holds another block, [readBlock] returns a block-sized buffer
    with [X] at offset [O]. *)
Lemma readBlock_loads (s : Segment) (B O : Z) (pre X post : list byte) :
  wf s -> closed s = false -> blk_id (cachedBlock s) <> B ->
  0 <= B -> 0 <= O -> 0 < len X -> O + len X <= blockSize ->
  fd s = pre ++ X ++ post -> len pre = B * blockSize + O ->
  exists s' buf rest,
    readBlock s B = (s', Ok buf) /\ len buf = blockSize
    /\ slice_from buf O = X ++ rest.
Proof.
  pose proof blockSize_eq as Hbs.
  intros (_ & _ & _ & _ & _ & _ & Hcache) Hc Hid HB HO HX Hfit Hfd Hpre.
  unfold readBlock. rewrite Hc.
  replace (blk_id (cachedBlock s) =? B) with false
    by (symmetry; apply Z.eqb_neq; exact Hid).
  replace (B * blockSize <? 0) with false by (symmetry; apply Z.ltb_ge; nia).
  cbv zeta. unfold ReadFull. cbv zeta.
  set (buf0 := slice (data (cachedBlock s)) 0 blockSize).
  assert (Lb : len buf0 = blockSize)
    by (unfold buf0; rewrite len_slice by lia; lia).
  set (avail := slice_from (fd s) (B * blockSize)).
  assert (Lfd : len (fd s) = B * blockSize + O + len X + len post)
    by (rewrite Hfd, !len_app; lia).
  pose proof (len_nonneg post) as Hpost.
  assert (La : len avail = O + len X + len post)
    by (unfold avail; rewrite len_slice_from by nia; lia).
  assert (Hav : slice_from avail O = X ++ post).
  { unfold avail, slice_from. rewrite drop_drop.
    replace (Z.to_nat (B * blockSize) + Z.to_nat O)%nat with (length pre)
      by (unfold len in Hpre; nia).
    rewrite Hfd. apply drop_app_length. }
  set (n := Z.min (len buf0) (len avail)).
  assert (Hn : O + len X <= n <= blockSize /\ n <= len avail) by (unfold n; lia).
  clearbody n buf0 avail.
  assert (Hres : slice_from (slice avail 0 n ++ slice_from buf0 n) O
                 = X ++ (take (Z.to_nat (n - O - len X)) post
                         ++ slice_from buf0 n)).
  { rewrite slice_from_app by (rewrite len_slice by lia; lia).
    rewrite app_assoc. f_equal.
    rewrite slice_from_slice_0, Hav by lia.
    rewrite take_app_ge by (unfold len in *; lia).
    f_equal. f_equal. unfold len in *. lia. }
  assert (Lres : len (slice avail 0 n ++ slice_from buf0 n) = blockSize)
    by (rewrite len_app, len_slice, len_slice_from by lia; lia).
  replace (n =? 0) with false by (symmetry; apply Z.eqb_neq; lia).
  destruct (n =? len buf0); eexists _, _, _; (split; [reflexivity|]);
    (split; [exact Lres|exact Hres]).
Qed.

Lemma Read_fuel_pos (s : Segment) : exists n, Read_fuel s = S n.
Proof.
  unfold Read_fuel.
  assert (H : 0 < (len (fd s) / blockSize + 3) * (blockSize / 8 + 1)).
  { pose proof (len_nonneg (fd s)).
    assert (0 <= len (fd s) / blockSize) by (apply Z.div_pos; [lia|reflexivity]).
    change (blockSize / 8 + 1) with 4097. lia. }
  destruct (Z.to_nat _) as [|n] eqn:E; [lia|eauto].
Qed.

(* ================================================================== *)
(** ** Where a written and synced entry lies in the file *)

Lemma Write_Sync_layout (s : Segment) (input : list byte) (p : Position)
  (c : chunk) :
  wf s -> closed s = false ->
  snd (Write s input) = Ok (Some p) ->
  head (splitIntoChunks s input) = Some c ->
  let s2 := fst (Sync (fst (Write s input))) in
  snd (Sync (fst (Write s input))) = Ok tt
  /\ wf s2 /\ closed s2 = false /\ cachedBlock s2 = cachedBlock s
  /\ 0 <= BlockId p /\ chunk_fits c p
  /\ len (chk_data c) <= blockSize - chunkHeaderSize
  /\ exists pre post,
       fd s2 = pre ++ chunk_bytes c ++ post
       /\ len pre = BlockId p * blockSize + Offset p.
Proof.
  intros Hwf Hc Hw Hhd.
  destruct (splitIntoChunks_spec s input) as (Hsz & _).
  destruct (writeChunks_spec _ s Hwf Hsz)
    as (s1 & ps & E & W & I & C & K & _ & Fr & F2 & Fa & First).
  assert (EW : Write s input = (s1, Ok (head ps)))
    by (unfold Write; now rewrite Hc, E).
  rewrite EW in Hw |- *. cbn [fst snd] in Hw |- *.
  destruct (splitIntoChunks s input) as [|c' rest]; [discriminate|].
  cbn in Hhd. injection Hhd as ->.
  destruct ps as [|p' ps']; [discriminate|].
  cbn in Hw. injection Hw as ->.
  destruct First as (pre & post & St & Lpre).
  apply Forall2_cons in F2 as [Fit _].
  apply Forall_cons in Fa as [(Hseg & Hle & _) _].
  apply Forall_cons in Hsz as [Hsz _].
  destruct (Sync_spec s1 W ltac:(congruence))
    as (s2 & E2 & W2 & I2 & C2 & K2 & Hfd & _).
  rewrite E2. cbn [fst snd].
  split; [reflexivity|]. split; [exact W2|]. split; [exact C2|].
  split; [congruence|]. split.
  { destruct Hwf as (_ & _ & _ & _ & H0 & _).
    destruct Hle as [Hlt| <-]; [|exact H0].
    unfold Pos.lt, frontier in Hlt. cbn [SegmentId BlockId Offset] in Hlt.
    rewrite Hseg in Hlt. lia. }
  split; [exact Fit|]. split; [exact Hsz|].
  exists pre, post. split; [congruence|exact Lpre].
Qed.

(* ================================================================== *)
(** ** A changed byte of a chunk is detected *)






(** The same read, evaluated. *)
Example tampering_detected_example :
  let s2 := fst (Sync (fst (Write (NewSegment 1 [])
                                (list_byte_of_string "Hello, WAL!")))) in
  snd (Read (tamper s2 7 xff) {| SegmentId := 1; BlockId := 0; Offset := 0 |})
  = Err ErrInvalidCRC
  /\ snd (Read (tamper s2 2 xff) {| SegmentId := 1; BlockId := 0; Offset := 0 |})
     = Err ErrInvalidCRC.
Proof. vm_compute. split; reflexivity. Qed.


(* ================================================================== *)
(** ** Framing a chunk and decoding it again *)

(** A header built by [chunkHeader] followed by its payload is decoded
    by [readChunk] to that payload and type, whatever follows. *)
Lemma readChunk_frame (payload rest : list byte) (t : Z) :
  len payload < 2 ^ 16 -> 0 <= t < 256 ->
  readChunk (chunkHeader payload t ++ payload ++ rest)
  = Ok {| chk_data := payload; chunkType := t |}.
Proof.
  intros Hl Ht. pose proof (len_nonneg payload) as Hp.
  set (crc := crc32.ChecksumIEEE payload).
  set (n := uint16 (len payload)).
  change (chunkHeader payload t ++ payload ++ rest)
    with ([byte_of_Z crc; byte_of_Z (Z.shiftr crc 8);
           byte_of_Z (Z.shiftr crc 16); byte_of_Z (Z.shiftr crc 24);
           byte_of_Z n; byte_of_Z (Z.shiftr n 8); byte_of_Z t]
            ++ payload ++ rest).
  subst crc n.
  rewrite readChunk_framed.
  - pose proof (Uint32_PutUint32 (crc32.ChecksumIEEE payload) []
                  (ChecksumIEEE_range payload)) as Hc.
    change (PutUint32 (crc32.ChecksumIEEE payload) ++ [])
      with (PutUint32 (crc32.ChecksumIEEE payload)) in Hc.
    unfold PutUint32 in Hc. rewrite Hc.
    rewrite Z.eqb_refl, Z_of_byte_of_Z, Z.mod_small by lia. reflexivity.
  - assert (Hn : uint16 (len payload) = len payload)
      by (unfold uint16; apply Z.mod_small; lia).
    pose proof (Uint16_PutUint16 (uint16 (len payload)) []) as Hu.
    change (PutUint16 (uint16 (len payload)) ++ [])
      with (PutUint16 (uint16 (len payload))) in Hu.
    unfold PutUint16 in Hu. rewrite Hu; lia.
Qed.

(* ================================================================== *)
(** ** The types of the chunks of an entry *)

Lemma splitLoop_types (fuel : nat) (input : list byte) (offset remaining : Z) :
  0 <= offset -> 0 < remaining -> offset + remaining = len input ->
  remaining <= Z.of_nat fuel ->
  if offset =? 0 then entry_types (splitLoop fuel input offset remaining)
  else tail_types (splitLoop fuel input offset remaining).
Proof.
  pose proof blockSize_eq as Hbs. unfold chunkHeaderSize.
  revert offset remaining.
  induction fuel as [|fuel IH]; intros offset remaining Ho Hr Hsum Hfuel;
    [lia|].
  cbn [splitLoop].
  replace (remaining >? 0) with true by (symmetry; apply Z.gtb_lt; lia).
  cbv zeta. unfold chunkHeaderSize.
  set (chunkSize := if blockSize - 7 >? remaining
                    then remaining else blockSize - 7).
  assert (Hcs : 0 < chunkSize <= remaining)
    by (unfold chunkSize; destruct (Z.gtb_spec (blockSize - 7) remaining); lia).
  clearbody chunkSize.
  destruct (Z.eq_dec chunkSize remaining) as [Eq|Hne].
  - (* the last chunk *)
    subst chunkSize. rewrite Z.sub_diag, splitLoop_done.
    rewrite Z.eqb_refl.
    destruct (Z.eqb_spec offset 0) as [E0|E0].
    + replace (remaining =? len input) with true
        by (symmetry; apply Z.eqb_eq; lia).
      reflexivity.
    + replace (remaining =? len input) with false
        by (symmetry; apply Z.eqb_neq; lia).
      reflexivity.
  - specialize (IH (offset + chunkSize) (remaining - chunkSize)
                  ltac:(lia) ltac:(lia) ltac:(lia) ltac:(lia)).
    replace (offset + chunkSize =? 0) with false in IH
      by (symmetry; apply Z.eqb_neq; lia).
    replace (remaining =? chunkSize) with false
      by (symmetry; apply Z.eqb_neq; lia).
    destruct (splitLoop fuel input (offset + chunkSize) (remaining - chunkSize))
      as [|c2 r2] eqn:E; [destruct IH|].
    destruct (Z.eqb_spec offset 0) as [E0|E0].
    + replace (remaining =? len input) with true
        by (symmetry; apply Z.eqb_eq; lia).
      replace (chunkSize =? len input) with false
        by (symmetry; apply Z.eqb_neq; lia).
      cbn [andb entry_types chunkType]. split; [reflexivity|exact IH].
    + replace (remaining =? len input) with false
        by (symmetry; apply Z.eqb_neq; lia).
      cbn [andb tail_types chunkType]. split; [reflexivity|exact IH].
Qed.

(** The chunks of a non-empty entry form FULL or FIRST MIDDLE* LAST. *)
Lemma splitIntoChunks_types (s : Segment) (input : list byte) :
  input <> [] -> entry_types (splitIntoChunks s input).
Proof.
  pose proof blockSize_eq as Hbs. intros Hne.
  assert (Hi : 0 < len input).
  { destruct input; [congruence|]. rewrite len_cons.
    pose proof (len_nonneg input). lia. }
  unfold splitIntoChunks. cbv zeta. unfold chunkHeaderSize.
  set (room := blockSize - len (data (currentBlock s)) - 7).
  destruct (Z.gtb_spec room 0) as [G|G].
  - set (chunkSize := if room >? len input then len input else room).
    assert (Hcs : 0 < chunkSize <= len input)
      by (unfold chunkSize; destruct (Z.gtb_spec room (len input)); lia).
    clearbody chunkSize. rewrite Z.eqb_refl. cbn [andb].
    destruct (Z.eq_dec chunkSize (len input)) as [Eq|Hn].
    + rewrite Eq, Z.sub_diag, splitLoop_done, Z.eqb_refl. reflexivity.
    + replace (chunkSize =? len input) with false
        by (symmetry; apply Z.eqb_neq; lia).
      pose proof (splitLoop_types (length input) input (0 + chunkSize)
                    (len input - chunkSize)) as H.
      replace (0 + chunkSize =? 0) with false in H
        by (symmetry; apply Z.eqb_neq; lia).
      specialize (H ltac:(lia) ltac:(lia) ltac:(lia) ltac:(unfold len; lia)).
      destruct (splitLoop _ _ _ _) as [|c2 r2]; [destruct H|].
      cbn [entry_types chunkType]. split; [reflexivity|exact H].
  - apply (splitLoop_types (length input) input 0 (len input));
      unfold len in *; lia.
Qed.

(* ================================================================== *)
(** ** Where the chunks of an entry lie *)

Lemma chunk_at_app (f z : list byte) (B O : Z) (c : chunk) :
  chunk_at f B O c -> chunk_at (f ++ z) B O c.
Proof.
  intros (HB & HO & Hfit & pre & post & -> & Hpre).
  split; [exact HB|]. split; [exact HO|]. split; [exact Hfit|].
  exists pre, (post ++ z). split; [now rewrite <- !app_assoc|exact Hpre].
Qed.

Lemma laid_out_app (cs : list chunk) (f z : list byte) (B O : Z) :
  laid_out f B O cs -> laid_out (f ++ z) B O cs.
Proof.
  revert B O. induction cs as [|c rest IH]; intros B O H; [exact I|].
  cbn [laid_out] in *. destruct H as [Hc Hrest].
  split; [now apply chunk_at_app|].
  destruct rest as [|c2 r2]; [exact I|].
  destruct Hrest as [Hfill Hl]. split; [exact Hfill|]. now apply IH.
Qed.

(** The number of chunks laid out one per block is bounded by the
    number of blocks of the file. *)
Lemma laid_out_count (cs : list chunk) (f : list byte) (B O : Z) :
  laid_out f B O cs -> cs <> [] ->
  B + Z.of_nat (length cs) - 1 <= len f / blockSize.
Proof.
  pose proof blockSize_eq as Hbs.
  revert B O. induction cs as [|c rest IH]; intros B O H Hne; [congruence|].
  cbn [laid_out] in H. destruct H as [Hc Hrest].
  destruct rest as [|c2 r2].
  - cbn [length]. destruct Hc as (HB & HO & Hfit & pre & post & -> & Hpre).
    replace (B + Z.of_nat 1 - 1) with B by lia.
    apply Z.div_le_lower_bound; [lia|].
    rewrite !len_app. pose proof (len_nonneg (chunk_bytes c)).
    pose proof (len_nonneg post). lia.
  - destruct Hrest as [_ Hl].
    specialize (IH (B + 1) 0 Hl ltac:(discriminate)).
    cbn [length] in *. lia.
Qed.

(** Chunks written from a block without room for another chunk end up
    one per block, from the start of the next block on. *)
Lemma writeChunks_laid_tail (cs : list chunk) (s s' : Segment)
  (ps : list Position) :
  wf s ->
  blockSize <= len (data (currentBlock s)) + chunkHeaderSize ->
  Forall (fun c => 0 < len (chk_data c) <= blockSize - chunkHeaderSize) cs ->
  all_but_last_full cs ->
  writeChunks s cs = (s', Ok ps) ->
  laid_out (stream s') (blk_id (currentBlock s) + 1) 0 cs
  /\ (forall p, head ps = Some p ->
        BlockId p = blk_id (currentBlock s) + 1 /\ Offset p = 0).
Proof.
  pose proof blockSize_eq as Hbs.
  revert s s' ps. induction cs as [|c rest IH]; intros s s' ps Hwf Hfull Hcs Hab E.
  - simpl in E. inversion E. subst. split; [exact I|discriminate].
  - apply Forall_cons in Hcs as [Hc Hrest]. cbv beta in Hc.
    rewrite writeChunks_cons in E.
    replace (len (data (currentBlock s)) + chunkHeaderSize + len (chk_data c)
             >? blockSize) with true in E
      by (symmetry; apply Z.gtb_lt; lia).
    destruct (flushBlock_spec s true Hwf)
      as (s1 & z1 & E1 & W1 & I1 & C1 & K1 & St1 & _ & Hp & Fr1).
    destruct (Hp eq_refl) as [D1 B1].
    rewrite E1 in E. cbv beta iota in E.
    assert (Fit : len (data (currentBlock s1)) + chunkHeaderSize
                  + len (chk_data c) <= blockSize)
      by (rewrite D1; change (len (@nil byte)) with 0; lia).
    destruct (writeChunk_spec s1 (chk_data c) (chunkType c) W1 Fit)
      as (s2 & E2 & W2 & _ & _ & _ & _ & St2 & _).
    pose proof (writeChunk_frontier s1 (chk_data c) (chunkType c)) as Fr2.
    rewrite E2 in E, Fr2. cbn [fst] in Fr2. cbv beta iota in E.
    injection Fr2 as _ B2 L2.
    rewrite D1 in L2. change (len (@nil byte)) with 0 in L2.
    assert (Wr : Forall (fun c => len (chk_data c) <= blockSize - chunkHeaderSize)
                   rest)
      by (eapply Forall_impl; [exact Hrest|]; intros x Hx; cbv beta in *; lia).
    destruct (writeChunks_spec _ s2 W2 Wr)
      as (s3 & ps3 & E3 & W3 & _ & _ & _ & (z3 & St3) & _).
    rewrite E3 in E. inversion E. subst s' ps.
    assert (Hat : chunk_at (stream s2) (blk_id (currentBlock s) + 1) 0 c).
    { pose proof W1 as (_ & _ & _ & _ & H0 & _).
      split; [lia|]. split; [lia|]. split; [lia|].
      exists (stream s1), []. split.
      - rewrite St2. unfold chunk_bytes. now rewrite app_nil_r.
      - rewrite stream_len by assumption. rewrite D1, B1.
        change (len (@nil byte)) with 0. lia. }
    split.
    + cbn [laid_out]. split; [rewrite St3; now apply chunk_at_app|].
      destruct rest as [|c2 rest2]; [exact I|].
      destruct Hab as [Hlen Hab]. unfold chunkHeaderSize in *.
      split; [lia|].
      assert (Hfull2 : blockSize <= len (data (currentBlock s2)) + 7) by lia.
      destruct (IH s2 s3 ps3 W2 Hfull2 Hrest Hab E3) as [Hl _].
      rewrite B2, B1 in Hl. exact Hl.
    + intros p Hp'. cbn in Hp'. injection Hp' as <-.
      unfold frontier. cbn [BlockId Offset]. rewrite D1, B1. split; reflexivity.
Qed.

(** The chunks of an entry written by the loop of [Write] lie one per
    block from the position of the first chunk on, in the byte stream of
    the segment. *)
Lemma Write_laid_out (s s' : Segment) (input : list byte) (p : Position)
  (ps : list Position) :
  wf s -> input <> [] ->
  writeChunks s (splitIntoChunks s input) = (s', Ok (p :: ps)) ->
  laid_out (stream s') (BlockId p) (Offset p) (splitIntoChunks s input).
Proof.
  pose proof blockSize_eq as Hbs. intros Hwf Hne E.
  destruct (splitIntoChunks_spec s input) as (Hsz & Hpos & _ & Hst).
  specialize (Hpos Hne). cbv zeta in Hst.
  assert (Hboth : Forall (fun c => 0 < len (chk_data c)
                                   <= blockSize - chunkHeaderSize)
                    (splitIntoChunks s input)).
  { rewrite Forall_forall in Hsz, Hpos. apply Forall_forall.
    intros x Hx. specialize (Hsz x Hx). specialize (Hpos x Hx). lia. }
  destruct (Z.gtb_spec (blockSize - len (data (currentBlock s)) - chunkHeaderSize) 0)
    as [G|G].
  - destruct Hst as (c & rest & Ecs & Hc & Hfill & Hrpos & Hab).
    rewrite Ecs in E, Hboth |- *. rewrite writeChunks_cons in E.
    replace (len (data (currentBlock s)) + chunkHeaderSize + len (chk_data c)
             >? blockSize) with false in E
      by (symmetry; rewrite Z.gtb_ltb; apply Z.ltb_ge; lia).
    cbv beta iota in E.
    assert (Fit : len (data (currentBlock s)) + chunkHeaderSize
                  + len (chk_data c) <= blockSize) by lia.
    destruct (writeChunk_spec s (chk_data c) (chunkType c) Hwf Fit)
      as (s2 & E2 & W2 & _ & _ & _ & _ & St2 & _).
    pose proof (writeChunk_frontier s (chk_data c) (chunkType c)) as Fr2.
    rewrite E2 in E, Fr2. cbn [fst] in Fr2. cbv beta iota in E.
    injection Fr2 as _ B2 L2.
    apply Forall_cons in Hboth as [Hc1 Hrest].
    assert (Wr : Forall (fun c => len (chk_data c) <= blockSize - chunkHeaderSize)
                   rest)
      by (eapply Forall_impl; [exact Hrest|]; intros x Hx; cbv beta in *; lia).
    destruct (writeChunks_spec _ s2 W2 Wr)
      as (s3 & ps3 & E3 & W3 & _ & _ & _ & (z3 & St3) & _).
    rewrite E3 in E. inversion E. subst s' ps p.
    unfold frontier. cbn [BlockId Offset].
    pose proof (len_nonneg (data (currentBlock s))) as Hd.
    assert (Hat : chunk_at (stream s2) (blk_id (currentBlock s))
                    (len (data (currentBlock s))) c).
    { pose proof Hwf as (_ & _ & _ & _ & H0 & _).
      split; [lia|]. split; [lia|]. split; [lia|].
      exists (stream s), []. split.
      - rewrite St2. unfold chunk_bytes. now rewrite app_nil_r.
      - now apply stream_len. }
    cbn [laid_out]. split; [rewrite St3; now apply chunk_at_app|].
    destruct rest as [|c2 rest2]; [exact I|].
    specialize (Hfill ltac:(discriminate)). unfold chunkHeaderSize in *.
    split; [lia|].
    assert (Hfull2 : blockSize <= len (data (currentBlock s2)) + 7) by lia.
    destruct (writeChunks_laid_tail _ s2 s3 ps3 W2 Hfull2 Hrest Hab E3)
      as [Hl _].
    rewrite B2 in Hl. exact Hl.
  - destruct Hst as (_ & Hab). unfold chunkHeaderSize in *.
    assert (Hfull : blockSize <= len (data (currentBlock s)) + 7) by lia.
    destruct (writeChunks_laid_tail _ s s' (p :: ps) Hwf Hfull Hboth Hab E)
      as [Hl Hhd].
    destruct (Hhd p eq_refl) as [-> ->]. exact Hl.
Qed.

(* ================================================================== *)
(** ** Reading an entry that lies in the file *)

Lemma readBlock_caches (s : Segment) (B : Z) (buf : list byte) :
  closed s = false -> snd (readBlock s B) = Ok buf ->
  blk_id (cachedBlock (fst (readBlock s B))) = B.
Proof.
  intros Hc. unfold readBlock. rewrite Hc.
  destruct (Z.eqb_spec (blk_id (cachedBlock s)) B) as [E|E]; [intros _; exact E|].
  destruct (B * blockSize <? 0); [discriminate|].
  cbv zeta. destruct (ReadFull _ _ _) as [buf' err].
  destruct err as [e|]; [destruct e|]; cbn [fst snd]; seg_simpl;
    try discriminate; reflexivity.
Qed.

(** The loop of [Read] on chunks that lie in the file one per block,
    starting at a block the cache does not hold: it returns what it had
    collected followed by the payloads of the chunks. *)
Lemma Read_loop_laid_out (cs : list chunk) (fuel : nat) (s : Segment)
  (sid B O : Z) (entry : list byte) :
  wf s -> closed s = false -> blk_id (cachedBlock s) <> B ->
  laid_out (fd s) B O cs ->
  Forall (fun c => 0 < len (chk_data c)) cs ->
  (if len entry =? 0 then entry_types cs else tail_types cs) ->
  (length cs <= fuel)%nat ->
  snd (Read_loop fuel s {| SegmentId := sid; BlockId := B; Offset := O |} entry)
  = Ok (entry ++ concat (map chk_data cs)).
Proof.
  pose proof blockSize_eq as Hbs.
  revert fuel s B O entry.
  induction cs as [|c rest IH]; intros fuel s B O entry Hwf Hc Hcache Hl Hpos Hty Hfuel.
  { destruct (len entry =? 0); destruct Hty. }
  destruct fuel as [|fuel]; [cbn [length] in Hfuel; lia|].
  apply Forall_cons in Hpos as [Hc0 Hpos]. cbv beta in Hc0.
  cbn [laid_out] in Hl. destruct Hl as [Hat Hrest].
  destruct Hat as (HB & HO & Hfit & pre & post & Hfd & Hpre).
  assert (Lx : len (chunk_bytes c) = chunkHeaderSize + len (chk_data c))
    by (unfold chunk_bytes; rewrite len_app, len_chunkHeader; reflexivity).
  unfold chunkHeaderSize in *.
  destruct (readBlock_loads s B O pre (chunk_bytes c) post)
    as (s1 & buf & tl & Erb & Lbuf & Hbuf); try assumption; try lia.
  destruct (readBlock_preserves s B Hwf) as (W1 & _ & F1 & C1 & _).
  pose proof (readBlock_caches s B buf Hc) as K1.
  rewrite Erb in W1, F1, C1, K1. cbn [fst snd] in W1, F1, C1, K1.
  specialize (K1 eq_refl).
  assert (Hty' : 0 <= chunkType c < 256
                 /\ ((len entry =? 0) && negb (chunkType c =? kFullType)
                     && negb (chunkType c =? kFirstType) = false)
                 /\ (negb (len entry =? 0) && negb (chunkType c =? kMiddleType)
                     && negb (chunkType c =? kLastType) = false)
                 /\ match rest with
                    | [] => (chunkType c =? kLastType)
                            || (chunkType c =? kFullType) = true
                    | _ :: _ => (chunkType c =? kLastType)
                                || (chunkType c =? kFullType) = false
                                /\ tail_types rest
                    end).
  { destruct (len entry =? 0); destruct rest as [|c2 r2];
      cbn [entry_types tail_types] in Hty.
    - rewrite Hty. repeat split; try reflexivity; unfold kFullType; lia.
    - destruct Hty as [Hty Htl]. rewrite Hty.
      repeat split; try reflexivity; try exact Htl; unfold kFirstType; lia.
    - rewrite Hty. repeat split; try reflexivity; unfold kLastType; lia.
    - destruct Hty as [Hty Htl]. rewrite Hty.
      repeat split; try reflexivity; try exact Htl; unfold kMiddleType; lia. }
  destruct Hty' as (Hrange & Hchk1 & Hchk2 & Hlast).
  cbn [Read_loop BlockId Offset SegmentId]. unfold chunkHeaderSize.
  rewrite Erb, Lbuf.
  replace (O >=? blockSize) with false
    by (symmetry; rewrite Z.geb_leb; apply Z.leb_gt; lia).
  replace (O <? 0) with false by (symmetry; apply Z.ltb_ge; lia).
  rewrite Hbuf. unfold chunk_bytes. rewrite <- app_assoc.
  rewrite readChunk_frame by (change (2 ^ 16) with 65536; lia).
  cbn [chk_data chunkType].
  replace (len (chk_data c) =? 0) with false by (symmetry; apply Z.eqb_neq; lia).
  rewrite Hchk1, Hchk2.
  destruct rest as [|c2 r2].
  - rewrite Hlast. cbn [snd map concat]. now rewrite app_nil_r.
  - destruct Hlast as [Hlast Htl]. rewrite Hlast.
    destruct Hrest as [Hfill Hrest].
    replace (O + (7 + len (chk_data c)) >=? blockSize) with true
      by (symmetry; rewrite Z.geb_leb; apply Z.leb_le; lia).
    assert (Hk : blk_id (cachedBlock s1) <> B + 1) by lia.
    rewrite Hc in C1.
    assert (Hl' : laid_out (fd s1) (B + 1) 0 (c2 :: r2)) by now rewrite F1.
    assert (Hty2 : if len (entry ++ chk_data c) =? 0
                   then entry_types (c2 :: r2) else tail_types (c2 :: r2)).
    { pose proof (len_nonneg entry).
      replace (len (entry ++ chk_data c) =? 0) with false
        by (symmetry; apply Z.eqb_neq; rewrite len_app; lia).
      exact Htl. }
    assert (Hf : (length (c2 :: r2) <= fuel)%nat) by (cbn [length] in *; lia).
    rewrite (IH fuel s1 (B + 1) 0 (entry ++ chk_data c) W1 C1 Hk Hl' Hpos
               Hty2 Hf).
    cbn [map concat]. now rewrite <- app_assoc.
Qed.

(** [Read] at a position where the file holds the chunks of an entry,
    on an open segment whose cache holds another block. *)
Lemma Read_laid_out (s : Segment) (p : Position) (cs : list chunk) :
  wf s -> closed s = false -> blk_id (cachedBlock s) <> BlockId p ->
  laid_out (fd s) (BlockId p) (Offset p) cs ->
  Forall (fun c => 0 < len (chk_data c)) cs -> entry_types cs ->
  snd (Read s p) = Ok (concat (map chk_data cs)).
Proof.
  pose proof blockSize_eq as Hbs.
  intros Hwf Hc Hcache Hl Hpos Hty. unfold Read.
  assert (Hne : cs <> []) by (destruct cs; [destruct Hty|discriminate]).
  pose proof (laid_out_count cs _ _ _ Hl Hne) as Hcount.
  assert (HB : 0 <= BlockId p).
  { destruct cs as [|c rest]; [congruence|]. cbn [laid_out] in Hl.
    destruct Hl as [(HB & _) _]. exact HB. }
  rewrite (Read_loop_laid_out cs _ s (SegmentId p) (BlockId p) (Offset p) []);
    try assumption; [reflexivity|].
  unfold Read_fuel. change (blockSize / 8 + 1) with 4097.
  assert (0 <= len (fd s) / blockSize)
    by (apply Z.div_pos; [apply len_nonneg|lia]).
  lia.
Qed.

(** What [Write] followed by [Sync] leaves in the file. *)
Lemma Write_Sync_laid_out (s : Segment) (input : list byte) :
  wf s -> closed s = false -> input <> [] ->
  exists p s1,
    Write s input = (s1, Ok (Some p))
    /\ wf s1 /\ closed s1 = false /\ cachedBlock s1 = cachedBlock s
    /\ SegmentId p = seg_id s /\ 0 <= BlockId p
    /\ laid_out (stream s1) (BlockId p) (Offset p) (splitIntoChunks s input).
Proof.
  intros Hwf Hc Hne.
  destruct (splitIntoChunks_spec s input) as (Hsz & _).
  pose proof (splitIntoChunks_types s input Hne) as Hty.
  destruct (writeChunks_spec _ s Hwf Hsz)
    as (s1 & ps & E & W & I & C & K & _ & Fr & F2 & Fa & _).
  destruct ps as [|p ps].
  { apply Forall2_nil_inv_r in F2. rewrite F2 in Hty. destruct Hty. }
  exists p, s1. unfold Write. rewrite Hc, E.
  split; [reflexivity|]. split; [exact W|]. split; [congruence|].
  split; [exact K|].
  pose proof (Write_laid_out s s1 input p ps Hwf Hne E) as Hl.
  apply Forall_cons in Fa as [(Hseg & _) _].
  split; [exact Hseg|]. split; [|exact Hl].
  destruct (splitIntoChunks s input) as [|c rest]; [destruct Hty|].
  cbn [laid_out] in Hl. destruct Hl as [(HB & _) _]. exact HB.
Qed.

(** X3: round trip.  On a segment reached through the methods and open, a
    non-empty entry that is written and synced is returned by [Read] at
    the position the write returned, provided the read cache does not
    hold the block of that position from before the write. *)
Theorem Write_Sync_Read (s : Segment) (input : list byte) :
  reachable s -> closed s = false -> input <> [] ->
  exists p,
    snd (Write s input) = Ok (Some p)
    /\ SegmentId p = seg_id s
    /\ snd (Sync (fst (Write s input))) = Ok tt
    /\ (blk_id (cachedBlock s) <> BlockId p ->
        snd (Read (fst (Sync (fst (Write s input)))) p) = Ok input).
Proof.
  intros Hr Hc Hne. pose proof (reachable_wf s Hr) as Hwf.
  destruct (Write_Sync_laid_out s input Hwf Hc Hne)
    as (p & s1 & EW & W1 & C1 & K1 & Hseg & HB & Hl).
  destruct (Sync_spec s1 W1 C1) as (s2 & ES & W2 & _ & C2 & K2 & Hfd & _).
  exists p. rewrite EW. cbn [fst snd]. rewrite ES. cbn [fst snd].
  split; [reflexivity|]. split; [exact Hseg|]. split; [reflexivity|].
  intros Hcache.
  destruct (splitIntoChunks_spec s input) as (_ & Hpos & Hcat & _).
  rewrite <- Hcat.
  apply Read_laid_out; try assumption.
  - congruence.
  - now rewrite Hfd.
  - now apply Hpos.
  - now apply splitIntoChunks_types.
Qed.

Lemma Write_Sync_Read_witness :
  let s := NewSegment 1 [] in
  let input := repeat "a"%byte (Z.to_nat 70000) in
  reachable s /\ closed s = false /\ input <> []
  /\ exists p,
       snd (Write s input) = Ok (Some p)
       /\ SegmentId p = seg_id s
       /\ snd (Sync (fst (Write s input))) = Ok tt
       /\ (blk_id (cachedBlock s) <> BlockId p ->
           snd (Read (fst (Sync (fst (Write s input)))) p) = Ok input).
Proof.
  intros s input.
  assert (H1 : reachable s) by apply reach_new.
  assert (H2 : closed s = false) by reflexivity.
  assert (H3 : input <> []).
  { unfold input. change (Z.to_nat 70000) with (S (Z.to_nat 69999)).
    discriminate. }
  split; [exact H1|]. split; [exact H2|]. split; [exact H3|].
  exact (Write_Sync_Read s input H1 H2 H3).
Defined.

(** X4: durability across reopening.  A non-empty entry written to an open
    segment and then synced, or the segment closed, is returned by
    [Read] at the position the write returned on any segment opened
    afterwards on the same file. *)
Theorem Read_after_reopen (s : Segment) (input : list byte) (id : Z) :
  reachable s -> closed s = false -> input <> [] ->
  exists p,
    snd (Write s input) = Ok (Some p)
    /\ snd (Read (NewSegment id (fd (fst (Sync (fst (Write s input)))))) p)
       = Ok input
    /\ snd (Read (NewSegment id (fd (fst (Close (fst (Write s input)))))) p)
       = Ok input.
Proof.
  intros Hr Hc Hne. pose proof (reachable_wf s Hr) as Hwf.
  destruct (Write_Sync_laid_out s input Hwf Hc Hne)
    as (p & s1 & EW & W1 & C1 & K1 & Hseg & HB & Hl).
  destruct (splitIntoChunks_spec s input) as (_ & Hpos & Hcat & _).
  pose proof (splitIntoChunks_types s input Hne) as Hty.
  exists p. rewrite EW. cbn [fst snd]. split; [reflexivity|].
  assert (Hopen : forall file,
             laid_out file (BlockId p) (Offset p) (splitIntoChunks s input) ->
             snd (Read (NewSegment id file) p) = Ok input).
  { intros file Hf. rewrite <- Hcat.
    apply Read_laid_out; try assumption.
    - apply wf_NewSegment.
    - reflexivity.
    - cbn [NewSegment cachedBlock blk_id]. lia.
    - now apply Hpos. }
  split; apply Hopen.
  - destruct (Sync_spec s1 W1 C1) as (s2 & ES & _ & _ & _ & _ & Hfd & _).
    rewrite ES. cbn [fst]. now rewrite Hfd.
  - unfold Close. rewrite C1.
    destruct (flushBlock_spec s1 true W1)
      as (s2 & z & E & W2 & _ & _ & _ & St & _ & Hp & _).
    destruct (Hp eq_refl) as [D _].
    rewrite E. cbn [fst]. unfold set_closed. cbn [fd].
    assert (Hfd : fd s2 = stream s2).
    { unfold stream. rewrite D.
      destruct W2 as (_ & _ & _ & _ & _ & _ & _).
      unfold slice_from. rewrite drop_nil. now rewrite app_nil_r. }
    rewrite Hfd, St. now apply laid_out_app.
Qed.

Lemma Read_after_reopen_witness :
  let s := NewSegment 1 [] in
  let input := repeat "a"%byte (Z.to_nat 70000) in
  reachable s /\ closed s = false /\ input <> []
  /\ exists p,
       snd (Write s input) = Ok (Some p)
       /\ snd (Read (NewSegment 7 (fd (fst (Sync (fst (Write s input)))))) p)
          = Ok input
       /\ snd (Read (NewSegment 7 (fd (fst (Close (fst (Write s input)))))) p)
          = Ok input.
Proof.
  intros s input.
  assert (H1 : reachable s) by apply reach_new.
  assert (H2 : closed s = false) by reflexivity.
  assert (H3 : input <> []).
  { unfold input. change (Z.to_nat 70000) with (S (Z.to_nat 69999)).
    discriminate. }
  split; [exact H1|]. split; [exact H2|]. split; [exact H3|].
  exact (Read_after_reopen s input 7 H1 H2 H3).
Defined.

(* ================================================================== *)
(** ** The chunk codec and the chunks of an entry *)

(** X1: what [writeChunk] appends to the block buffer is decoded again
    by [readChunk]: for a payload shorter than 2^16 bytes and a type that
    fits in a byte, decoding the buffer from the offset of the returned
    position gives back that payload and that type. *)
Theorem readChunk_writeChunk (s : Segment) (payload : list byte) (t : Z) :
  len payload < 2 ^ 16 -> 0 <= t < 256 ->
  readChunk (slice_from (data (currentBlock (fst (writeChunk s payload t))))
                        (Offset (snd (writeChunk s payload t))))
  = Ok {| chk_data := payload; chunkType := t |}.
Proof.
  intros Hl Ht. unfold writeChunk. cbv zeta.
  cbn [fst snd Offset set_currentBlock currentBlock data].
  unfold slice_from, len. rewrite Nat2Z.id, <- app_assoc.
  rewrite drop_app_length.
  rewrite <- (app_nil_r payload) at 2.
  now apply readChunk_frame.
Qed.

Lemma readChunk_writeChunk_witness :
  let s := NewSegment 0 [] in
  let payload := [x68; x69] in
  len payload < 2 ^ 16 /\ 0 <= kFullType < 256
  /\ readChunk (slice_from
                  (data (currentBlock (fst (writeChunk s payload kFullType))))
                  (Offset (snd (writeChunk s payload kFullType))))
     = Ok {| chk_data := payload; chunkType := kFullType |}.
Proof.
  intros s payload.
  assert (H1 : len payload < 2 ^ 16) by (vm_compute; reflexivity).
  assert (H2 : 0 <= kFullType < 256) by (unfold kFullType; lia).
  split; [exact H1|]. split; [exact H2|].
  exact (readChunk_writeChunk s payload kFullType H1 H2).
Defined.

(** X2: [splitIntoChunks] cuts a non-empty entry into chunks that are
    typed FULL, or FIRST MIDDLE* LAST, none of them empty, each small
    enough for one block, and whose payloads concatenated are the
    entry. *)
Theorem splitIntoChunks_entry (s : Segment) (input : list byte) :
  input <> [] ->
  entry_types (splitIntoChunks s input)
  /\ Forall (fun c => 0 < len (chk_data c)
                      /\ chunkHeaderSize + len (chk_data c) <= blockSize)
            (splitIntoChunks s input)
  /\ concat (map chk_data (splitIntoChunks s input)) = input.
Proof.
  intros Hne. destruct (splitIntoChunks_spec s input) as (Hsz & Hpos & Hcat & _).
  split; [now apply splitIntoChunks_types|]. split; [|exact Hcat].
  specialize (Hpos Hne). rewrite Forall_forall in *.
  intros c Hc. specialize (Hsz c Hc). specialize (Hpos c Hc).
  cbv beta in *. lia.
Qed.

Lemma splitIntoChunks_entry_witness :
  let s := NewSegment 0 [] in
  let input := repeat "a"%byte (Z.to_nat 70000) in
  input <> []
  /\ entry_types (splitIntoChunks s input)
  /\ Forall (fun c => 0 < len (chk_data c)
                      /\ chunkHeaderSize + len (chk_data c) <= blockSize)
            (splitIntoChunks s input)
  /\ concat (map chk_data (splitIntoChunks s input)) = input.
Proof.
  intros s input.
  assert (H3 : input <> []).
  { unfold input. change (Z.to_nat 70000) with (S (Z.to_nat 69999)).
    discriminate. }
  split; [exact H3|]. exact (splitIntoChunks_entry s input H3).
Defined.

(* ================================================================== *)
(** ** Sync, Close and the file *)

(** With padding, [flushBlock] leaves in the file every byte of the
    stream followed by zeros up to the end of the current block. *)
Lemma flushBlock_pads (s : Segment) :
  wf s ->
  fd (fst (flushBlock s true))
  = stream s
    ++ repeat x00 (Z.to_nat (blockSize - len (data (currentBlock s)))).
Proof.
  pose proof blockSize_eq as Hbs.
  destruct s as [id file cl [bid d f] cache].
  unfold wf, stream, flushBlock. cbv zeta. seg_simpl.
  intros (H1 & H2 & H3 & H4 & H5 & H6 & H7).
  pose proof (len_nonneg d) as Hd.
  replace ((f <? 0) || (len d <? f)) with false
    by (symmetry; apply orb_false_iff; split; apply Z.ltb_ge; lia).
  cbv iota. rewrite andb_false_r. cbv iota. cbn [andb].
  destruct (Z.ltb_spec (len d) blockSize) as [L|L].
  - seg_simpl. rewrite slice_from_app by lia. rewrite <- app_assoc.
    unfold paddingBlock. rewrite slice_repeat by lia. reflexivity.
  - seg_simpl. replace (blockSize - len d) with 0 by lia.
    cbn [Z.to_nat repeat]. now rewrite app_nil_r.
Qed.

(** After a flush without padding nothing is pending. *)
Lemma Sync_nothing_pending (s s' : Segment) :
  wf s' -> fd s' = stream s -> stream s' = stream s ->
  flushed (currentBlock s') = len (data (currentBlock s')).
Proof.
  intros W Hfd Hst. rewrite <- Hfd in Hst. unfold stream in Hst.
  rewrite <- (app_nil_r (fd s')) in Hst at 2.
  apply app_inv_head in Hst.
  destruct W as (H1 & H2 & _).
  assert (L : len (slice_from (data (currentBlock s'))
                              (flushed (currentBlock s'))) = 0)
    by (rewrite Hst; reflexivity).
  rewrite len_slice_from in L by lia. lia.
Qed.

(** X5: [Sync] on an open segment succeeds and leaves every byte written
    so far in the file, in the order written, with nothing pending; a
    second [Sync] changes nothing. *)
Theorem Sync_durable (s : Segment) :
  reachable s -> closed s = false ->
  let s' := fst (Sync s) in
  snd (Sync s) = Ok tt
  /\ fd s' = stream s
  /\ flushed (currentBlock s') = len (data (currentBlock s'))
  /\ Sync s' = (s', Ok tt).
Proof.
  intros Hr Hc. pose proof (reachable_wf s Hr) as Hwf. cbv zeta.
  destruct (Sync_spec s Hwf Hc) as (s' & E & W & _ & C & _ & Hfd & Hst & _).
  rewrite E. cbn [fst snd].
  pose proof (Sync_nothing_pending s s' W Hfd Hst) as Hfl.
  split; [reflexivity|]. split; [exact Hfd|]. split; [exact Hfl|].
  unfold Sync. rewrite C. unfold flushBlock. cbv zeta.
  destruct W as (H1 & H2 & _).
  replace ((flushed (currentBlock s') <? 0)
           || (len (data (currentBlock s')) <? flushed (currentBlock s')))
    with false
    by (symmetry; apply orb_false_iff; split; apply Z.ltb_ge; lia).
  cbv iota. rewrite Hfl, slice_from_len. reflexivity.
Qed.

Lemma Sync_durable_witness :
  let s := fst (Write (NewSegment 1 []) [x68; x69]) in
  reachable s /\ closed s = false
  /\ snd (Sync s) = Ok tt
  /\ fd (fst (Sync s)) = stream s
  /\ flushed (currentBlock (fst (Sync s)))
     = len (data (currentBlock (fst (Sync s))))
  /\ Sync (fst (Sync s)) = (fst (Sync s), Ok tt).
Proof.
  intros s.
  assert (H1 : reachable s) by (apply reach_Write, reach_new).
  assert (H2 : closed s = false) by reflexivity.
  split; [exact H1|]. split; [exact H2|].
  exact (Sync_durable s H1 H2).
Defined.

(** X6: [Close] on an open segment succeeds, marks it closed and leaves
    in the file every byte written so far followed by zeros up to the
    end of the current block, so that the file is a whole number of
    blocks, one more than the blocks completed before. *)
Theorem Close_pads (s : Segment) :
  reachable s -> closed s = false ->
  let s' := fst (Close s) in
  snd (Close s) = Ok tt
  /\ closed s' = true
  /\ fd s'
     = stream s
       ++ repeat x00 (Z.to_nat (blockSize - len (data (currentBlock s))))
  /\ len (fd s') = (blk_id (currentBlock s) + 1) * blockSize.
Proof.
  pose proof blockSize_eq as Hbs.
  intros Hr Hc. pose proof (reachable_wf s Hr) as Hwf. cbv zeta.
  pose proof (flushBlock_pads s Hwf) as Hp.
  unfold Close. rewrite Hc.
  destruct (flushBlock_spec s true Hwf)
    as (s1 & z & E & W1 & _ & _ & _ & _ & _ & Hpad & _).
  rewrite E in *. cbn [fst snd] in *. unfold set_closed. cbn [fd closed].
  split; [reflexivity|]. split; [reflexivity|]. split; [exact Hp|].
  destruct (Hpad eq_refl) as [D B].
  destruct W1 as (F0 & F1 & _ & _ & _ & L & _).
  rewrite D in F1. change (len (@nil byte)) with 0 in F1.
  rewrite L, B. lia.
Qed.

Lemma Close_pads_witness :
  let s := fst (Write (NewSegment 1 []) [x68; x69]) in
  reachable s /\ closed s = false
  /\ snd (Close s) = Ok tt
  /\ closed (fst (Close s)) = true
  /\ fd (fst (Close s))
     = stream s
       ++ repeat x00 (Z.to_nat (blockSize - len (data (currentBlock s))))
  /\ len (fd (fst (Close s))) = (blk_id (currentBlock s) + 1) * blockSize.
Proof.
  intros s.
  assert (H1 : reachable s) by (apply reach_Write, reach_new).
  assert (H2 : closed s = false) by reflexivity.
  split; [exact H1|]. split; [exact H2|].
  exact (Close_pads s H1 H2).
Defined.

(** X7: once a segment is closed every method refuses to work on it and
    leaves it as it is: [Write], [Read] and [Sync] return [ErrClosed],
    a second [Close] returns no error. *)
Theorem closed_segment_refuses (s : Segment) (input : list byte)
  (p : Position) :
  reachable s ->
  let s' := fst (Close s) in
  snd (Close s) = Ok tt
  /\ Write s' input = (s', Err ErrClosed)
  /\ Read s' p = (s', Err ErrClosed)
  /\ Sync s' = (s', Err ErrClosed)
  /\ Close s' = (s', Ok tt).
Proof.
  intros Hr. pose proof (reachable_wf s Hr) as Hwf. cbv zeta.
  assert (H : snd (Close s) = Ok tt /\ closed (fst (Close s)) = true).
  { unfold Close. destruct (closed s) eqn:Hc; [cbn [fst snd]; split; [reflexivity|exact Hc]|].
    destruct (flushBlock_spec s true Hwf) as (s1 & z & E & _).
    rewrite E. cbn [fst snd]. split; reflexivity. }
  destruct H as [H1 H2]. split; [exact H1|].
  set (s' := fst (Close s)) in *. clearbody s'.
  unfold Write, Sync, Close, Read.
  destruct (Read_fuel_pos s') as (n & ->).
  cbn [Read_loop BlockId]. unfold readBlock. rewrite H2.
  repeat split; reflexivity.
Qed.

Lemma closed_segment_refuses_witness :
  let s := NewSegment 1 [] in
  let p := {| SegmentId := 1; BlockId := 0; Offset := 0 |} in
  reachable s
  /\ snd (Close s) = Ok tt
  /\ Write (fst (Close s)) [x68] = (fst (Close s), Err ErrClosed)
  /\ Read (fst (Close s)) p = (fst (Close s), Err ErrClosed)
  /\ Sync (fst (Close s)) = (fst (Close s), Err ErrClosed)
  /\ Close (fst (Close s)) = (fst (Close s), Ok tt).
Proof.
  intros s p.
  assert (H1 : reachable s) by apply reach_new.
  split; [exact H1|].
  exact (closed_segment_refuses s [x68] p H1).
Defined.

(* ================================================================== *)
(** ** Properties kept by every method *)

Section Kept.

(** A property of a segment that depends only on its file and its
    current block, and that [flushBlock] and [writeChunk] keep. *)
Variable P : Segment -> Prop.
Hypothesis P_flushBlock :
  forall s pad, wf s -> P s -> P (fst (flushBlock s pad)).
Hypothesis P_writeChunk :
  forall s payload t,
    wf s ->
    len (data (currentBlock s)) + chunkHeaderSize + len payload <= blockSize ->
    P s -> P (fst (writeChunk s payload t)).
Hypothesis P_ext :
  forall s s',
    fd s' = fd s -> currentBlock s' = currentBlock s -> P s -> P s'.

Lemma writeChunks_keeps (cs : list chunk) (s : Segment) :
  wf s ->
  Forall (fun c => len (chk_data c) <= blockSize - chunkHeaderSize) cs ->
  P s -> P (fst (writeChunks s cs)).
Proof.
  revert s. induction cs as [|c rest IH]; intros s Hwf Hcs HP.
  - exact HP.
  - apply Forall_cons in Hcs as [Hc Hrest]. cbv beta in Hc.
    rewrite writeChunks_cons.
    assert (Hflush : exists s1,
        (if len (data (currentBlock s)) + chunkHeaderSize + len (chk_data c)
              >? blockSize
         then flushBlock s true else (s, Ok tt)) = (s1, Ok tt)
        /\ wf s1 /\ P s1
        /\ len (data (currentBlock s1)) + chunkHeaderSize + len (chk_data c)
           <= blockSize).
    { destruct (Z.gtb_spec (len (data (currentBlock s)) + chunkHeaderSize
                            + len (chk_data c)) blockSize) as [G|G].
      - pose proof (P_flushBlock s true Hwf HP) as HP1.
        destruct (flushBlock_spec s true Hwf)
          as (s1 & z1 & E & W & _ & _ & _ & _ & _ & Hp & _).
        destruct (Hp eq_refl) as [D _]. rewrite E in HP1.
        exists s1. rewrite D. change (len (@nil byte)) with 0.
        split; [exact E|]. split; [exact W|]. split; [exact HP1|].
        unfold chunkHeaderSize in *. lia.
      - exists s. split; [reflexivity|]. split; [exact Hwf|].
        split; [exact HP|lia]. }
    destruct Hflush as (s1 & E1 & W1 & HP1 & Fit).
    rewrite E1. cbv beta iota.
    pose proof (P_writeChunk s1 (chk_data c) (chunkType c) W1 Fit HP1) as HP2.
    destruct (writeChunk_spec s1 (chk_data c) (chunkType c) W1 Fit)
      as (s2 & E2 & W2 & _).
    rewrite E2 in *. cbn [fst] in HP2. cbv beta iota.
    specialize (IH s2 W2 Hrest HP2).
    destruct (writeChunks s2 rest) as [s3 [ps|e]]; exact IH.
Qed.

Lemma seg_do_keeps (s : Segment) (o : seg_op) :
  wf s -> P s -> P (seg_do s o).
Proof.
  intros Hwf HP. destruct o as [input|p| |]; cbn [seg_do].
  - unfold Write. destruct (closed s); [exact HP|].
    destruct (splitIntoChunks_spec s input) as (Hsz & _).
    pose proof (writeChunks_keeps _ s Hwf Hsz HP) as H.
    destruct (writeChunks s (splitIntoChunks s input)) as [s' [ps|e]]; exact H.
  - destruct (Read_preserves s p Hwf) as (_ & _ & F & _ & B).
    now apply (P_ext s).
  - unfold Sync. destruct (closed s); [exact HP|]. now apply P_flushBlock.
  - unfold Close. destruct (closed s); [exact HP|].
    pose proof (P_flushBlock s true Hwf HP) as H.
    destruct (flushBlock s true) as [s' [u|e]]; cbn [fst] in *; [|exact H].
    now apply (P_ext s').
Qed.

Lemma seg_do_wf (s : Segment) (o : seg_op) : wf s -> wf (seg_do s o).
Proof.
  intros Hwf. destruct o; cbn [seg_do].
  - now apply Write_wf.
  - now apply Read_preserves.
  - now apply Sync_wf.
  - now apply Close_wf.
Qed.

Lemma seg_run_keeps (ops : list seg_op) (s : Segment) :
  wf s -> P s -> P (seg_run s ops).
Proof.
  revert s. induction ops as [|o ops IH]; intros s Hwf HP; [exact HP|].
  cbn [seg_run foldl]. apply IH; [now apply seg_do_wf|now apply seg_do_keeps].
Qed.

End Kept.

Lemma seg_do_reachable (s : Segment) (o : seg_op) :
  reachable s -> reachable (seg_do s o).
Proof. intros H. destruct o; cbn [seg_do]; now constructor. Qed.

Lemma seg_run_reachable (ops : list seg_op) (s : Segment) :
  reachable s -> reachable (seg_run s ops).
Proof.
  revert s. induction ops as [|o ops IH]; intros s H; [exact H|].
  cbn [seg_run foldl]. now apply IH, seg_do_reachable.
Qed.

Lemma flushBlock_fd (s : Segment) (pad : bool) :
  exists z, fd (fst (flushBlock s pad)) = fd s ++ z.
Proof.
  unfold flushBlock. cbv zeta.
  repeat match goal with
         | |- context [if ?b then _ else _] => destruct b
         end; cbn [fst fd set_fd set_currentBlock];
    try (exists []; now rewrite app_nil_r); eexists; reflexivity.
Qed.

(** X8: no call of a method alters or removes a byte: after any
    sequence of [Write], [Read], [Sync] and [Close] the file starts with
    the bytes it held before, and so does the stream of bytes written. *)
Theorem file_append_only (s : Segment) (ops : list seg_op) :
  reachable s ->
  (exists z, fd (seg_run s ops) = fd s ++ z)
  /\ (exists z, stream (seg_run s ops) = stream s ++ z).
Proof.
  intros Hr. pose proof (reachable_wf s Hr) as Hwf. split.
  - apply (seg_run_keeps (fun s' => exists z, fd s' = fd s ++ z));
      [| | |exact Hwf|].
    + intros s1 pad _ (z & Hz). destruct (flushBlock_fd s1 pad) as (z' & Hz').
      exists (z ++ z'). now rewrite Hz', Hz, app_assoc.
    + intros s1 payload t _ _ Hz. exact Hz.
    + intros s1 s2 E _ Hz. now rewrite E.
    + exists []. now rewrite app_nil_r.
  - apply (seg_run_keeps (fun s' => exists z, stream s' = stream s ++ z));
      [| | |exact Hwf|].
    + intros s1 pad W1 (z & Hz).
      destruct (flushBlock_spec s1 pad W1) as (s2 & z' & E & _ & _ & _ & _ & St & _).
      rewrite E. cbn [fst]. exists (z ++ z'). now rewrite St, Hz, app_assoc.
    + intros s1 payload t W1 Fit (z & Hz).
      destruct (writeChunk_spec s1 payload t W1 Fit)
        as (s2 & E & _ & _ & _ & _ & _ & St & _).
      rewrite E. cbn [fst]. eexists. now rewrite St, Hz, <- app_assoc.
    + intros s1 s2 E B Hz. unfold stream in *. now rewrite E, B.
    + exists []. now rewrite app_nil_r.
Qed.

Lemma file_append_only_witness :
  let s := fst (Write (NewSegment 1 []) [x68; x69]) in
  let ops := [SSync; SWrite [x6f]; SRead (frontier s); SClose] in
  reachable s
  /\ (exists z, fd (seg_run s ops) = fd s ++ z)
  /\ (exists z, stream (seg_run s ops) = stream s ++ z).
Proof.
  intros s ops.
  assert (H1 : reachable s) by (apply reach_Write, reach_new).
  split; [exact H1|]. exact (file_append_only s ops H1).
Defined.

(* ================================================================== *)
(** ** Opening a segment on the file another one left *)

Lemma slice_0_len {A} (l : list A) : slice l 0 (len l) = l.
Proof.
  unfold slice, len. rewrite Z.sub_0_r, Nat2Z.id.
  change (Z.to_nat 0) with 0%nat. rewrite !drop_0. apply firstn_all.
Qed.

Lemma slice_0_app_le {A} (l m : list A) (k : Z) :
  0 <= k <= len l -> slice (l ++ m) 0 k = slice l 0 k.
Proof.
  intros H. unfold slice, len in *. rewrite Z.sub_0_r.
  change (Z.to_nat 0) with 0%nat. rewrite !drop_0. apply take_app_le. lia.
Qed.

Lemma flushBlock_flushed_in_file (s : Segment) (pad : bool) :
  wf s -> flushed_in_file s -> flushed_in_file (fst (flushBlock s pad)).
Proof.
  pose proof blockSize_eq as Hbs.
  destruct s as [id file cl [bid d f] cache].
  unfold wf, flushed_in_file, flushBlock. cbv zeta. seg_simpl.
  intros (H1 & H2 & H3 & H4 & H5 & H6 & H7) HF.
  pose proof (len_nonneg d) as Hd.
  replace ((f <? 0) || (len d <? f)) with false
    by (symmetry; apply orb_false_iff; split; apply Z.ltb_ge; lia).
  cbv iota.
  set (buf := if pad && (len d <? blockSize)
              then d ++ slice paddingBlock 0 (blockSize - len d) else d).
  assert (Hbuf : exists z, buf = d ++ z /\ len buf <= blockSize).
  { unfold buf. destruct pad; cbn [andb].
    - destruct (Z.ltb_spec (len d) blockSize).
      + eexists. split; [reflexivity|].
        rewrite len_app, len_paddingBlock_slice by lia. lia.
      + exists []. rewrite app_nil_r. split; [reflexivity|lia].
    - exists []. rewrite app_nil_r. split; [reflexivity|lia]. }
  destruct Hbuf as (z & Ez & Lz). clearbody buf.
  assert (Lb : len d <= len buf)
    by (rewrite Ez, len_app; pose proof (len_nonneg z); lia).
  destruct ((len (slice_from d f) =? 0) && negb pad); [seg_simpl; exact HF|].
  rewrite (len_slice_from buf) by lia.
  destruct (Z.eqb_spec (f + (len buf - f)) blockSize) as [E|E]; seg_simpl.
  - replace ((bid + 1) * blockSize) with (len (file ++ slice_from buf f)).
    + now rewrite slice_from_len.
    + rewrite len_app, len_slice_from by lia. lia.
  - rewrite slice_from_app by lia. rewrite HF.
    replace (f + (len buf - f)) with (len buf) by lia.
    rewrite slice_0_len.
    rewrite <- (slice_0_app_le d z) by lia. rewrite <- Ez.
    rewrite slice_then_rest by lia. apply slice_from_0.
Qed.

Lemma writeChunk_flushed_in_file (s : Segment) (payload : list byte) (t : Z) :
  wf s -> flushed_in_file s -> flushed_in_file (fst (writeChunk s payload t)).
Proof.
  destruct s as [id file cl [bid d f] cache].
  unfold wf, flushed_in_file, writeChunk. cbv zeta. seg_simpl.
  intros (H1 & H2 & _) HF. rewrite HF, <- app_assoc.
  symmetry. apply slice_0_app_le. lia.
Qed.

Lemma NewSegment_flushed_in_file (id : Z) (file : list byte) :
  flushed_in_file (NewSegment id file).
Proof.
  pose proof blockSize_eq as Hbs. pose proof (len_nonneg file) as Hf.
  unfold flushed_in_file, NewSegment. seg_simpl.
  pose proof (Z.mod_pos_bound (len file) blockSize ltac:(lia)) as Hm.
  pose proof (Z.div_mod (len file) blockSize ltac:(lia)) as Hd.
  rewrite slice_0_len.
  destruct (Z.eqb_spec (len file mod blockSize) 0) as [E|E]; cbn [negb].
  - replace (len file / blockSize * blockSize) with (len file) by lia.
    apply slice_from_len.
  - replace (len file / blockSize * blockSize)
      with (len file - len file mod blockSize) by lia.
    unfold slice, slice_from.
    symmetry. apply take_ge. rewrite length_drop. unfold len in *. lia.
Qed.

Lemma reachable_flushed_in_file (s : Segment) :
  reachable s -> flushed_in_file s.
Proof.
  assert (K : forall s o, wf s -> flushed_in_file s ->
                          flushed_in_file (seg_do s o)).
  { intros s0 o. apply (seg_do_keeps flushed_in_file).
    - apply flushBlock_flushed_in_file.
    - intros s1 payload t W _. now apply writeChunk_flushed_in_file.
    - intros s1 s2 E B. unfold flushed_in_file. now rewrite E, B. }
  induction 1 as [id file|s input Hr IH|s Hr IH|s p Hr IH|s Hr IH].
  - apply NewSegment_flushed_in_file.
  - apply (K s (SWrite input)); [now apply reachable_wf|exact IH].
  - apply (K s SSync); [now apply reachable_wf|exact IH].
  - apply (K s (SRead p)); [now apply reachable_wf|exact IH].
  - apply (K s SClose); [now apply reachable_wf|exact IH].
Qed.

(** A segment with nothing pending is recovered from its file. *)
Lemma NewSegment_currentBlock (s : Segment) (id : Z) :
  wf s -> flushed_in_file s ->
  flushed (currentBlock s) = len (data (currentBlock s)) ->
  currentBlock (NewSegment id (fd s)) = currentBlock s.
Proof.
  pose proof blockSize_eq as Hbs.
  destruct s as [sid file cl [bid d f] cache].
  unfold wf, flushed_in_file, NewSegment. seg_simpl.
  intros (H1 & H2 & H3 & H4 & H5 & H6 & H7) HF Hfl.
  assert (Hq : len file / blockSize = bid)
    by (symmetry; apply (Z.div_unique _ _ _ f); lia).
  assert (Hr : len file mod blockSize = f)
    by (symmetry; apply (Z.mod_unique _ _ bid); lia).
  rewrite Hq, Hr.
  assert (Hd : (if negb (f =? 0) then slice file (len file - f) (len file)
                else []) = d).
  { destruct (Z.eqb_spec f 0) as [E|E]; cbn [negb].
    - symmetry. apply nil_length_inv. unfold len in *. lia.
    - replace (len file - f) with (bid * blockSize) by lia.
      unfold slice. fold (slice_from file (bid * blockSize)). rewrite HF.
      replace (len file - bid * blockSize) with f by lia.
      rewrite Hfl, slice_0_len. apply take_ge. unfold len. lia. }
  rewrite Hd. now rewrite Hfl.
Qed.

(** X9: recovery.  A segment opened on the file that [Sync] or [Close]
    left resumes exactly where the old one stood: same block number,
    same buffered bytes of the block in progress, nothing pending. *)
Theorem NewSegment_recovers (s : Segment) (id : Z) :
  reachable s -> closed s = false ->
  currentBlock (NewSegment id (fd (fst (Sync s)))) = currentBlock (fst (Sync s))
  /\ currentBlock (NewSegment id (fd (fst (Close s))))
     = currentBlock (fst (Close s)).
Proof.
  intros Hr Hc. pose proof (reachable_wf s Hr) as Hwf. split.
  - pose proof (reachable_wf _ (reach_Sync s Hr)) as W.
    pose proof (reachable_flushed_in_file _ (reach_Sync s Hr)) as F.
    apply NewSegment_currentBlock; [exact W|exact F|].
    destruct (Sync_spec s Hwf Hc) as (s' & E & W' & _ & _ & _ & Hfd & Hst & _).
    rewrite E. cbn [fst]. now apply (Sync_nothing_pending s).
  - pose proof (reachable_wf _ (reach_Close s Hr)) as W.
    pose proof (reachable_flushed_in_file _ (reach_Close s Hr)) as F.
    apply NewSegment_currentBlock; [exact W|exact F|].
    unfold Close. rewrite Hc.
    destruct (flushBlock_spec s true Hwf)
      as (s1 & z & E & W1 & _ & _ & _ & _ & _ & Hpad & _).
    rewrite E. cbn [fst]. unfold set_closed. cbn [currentBlock].
    destruct (Hpad eq_refl) as [D _]. rewrite D.
    destruct W1 as (F0 & F1 & _). rewrite D in F1.
    change (len (@nil byte)) with 0 in *. lia.
Qed.

Lemma NewSegment_recovers_witness :
  let s := fst (Write (NewSegment 1 []) [x68; x69]) in
  reachable s /\ closed s = false
  /\ currentBlock (NewSegment 1 (fd (fst (Sync s))))
     = currentBlock (fst (Sync s))
  /\ currentBlock (NewSegment 1 (fd (fst (Close s))))
     = currentBlock (fst (Close s)).
Proof.
  intros s.
  assert (H1 : reachable s) by (apply reach_Write, reach_new).
  assert (H2 : closed s = false) by reflexivity.
  split; [exact H1|]. split; [exact H2|].
  exact (NewSegment_recovers s 1 H1 H2).
Defined.

(* ================================================================== *)
(** ** Where [Read] reports the end of the data *)

Lemma chunkHeader_empty : chunkHeader [] 0 = repeat x00 7.
Proof. vm_compute. reflexivity. Qed.

Lemma readChunk_empty (t : Z) (rest : list byte) :
  0 <= t < 256 ->
  readChunk (chunkHeader [] t ++ rest) = Ok {| chk_data := []; chunkType := t |}.
Proof.
  intros Ht. change (chunkHeader [] t ++ rest)
    with (chunkHeader [] t ++ [] ++ rest).
  apply readChunk_frame; [reflexivity|exact Ht].
Qed.

(** [Read] where the file holds a chunk without payload. *)
Lemma Read_empty_chunk (s : Segment) (p : Position) (t : Z) :
  wf s -> closed s = false -> blk_id (cachedBlock s) <> BlockId p ->
  0 <= t < 256 ->
  chunk_at (fd s) (BlockId p) (Offset p) {| chk_data := []; chunkType := t |} ->
  snd (Read s p) = Err ErrEOF.
Proof.
  pose proof blockSize_eq as Hbs.
  intros Hwf Hc Hcache Ht (HB & HO & Hfit & pre & post & Hfd & Hpre).
  unfold chunk_bytes in Hfd. cbn [chk_data chunkType] in *.
  change (len (@nil byte)) with 0 in Hfit. unfold chunkHeaderSize in *.
  rewrite app_nil_r in Hfd.
  destruct (readBlock_loads s (BlockId p) (Offset p) pre (chunkHeader [] t) post)
    as (s1 & buf & tl & Erb & Lbuf & Hbuf); try assumption;
    try (rewrite len_chunkHeader; unfold chunkHeaderSize; lia).
  unfold Read. destruct (Read_fuel_pos s) as (n & ->).
  cbn [Read_loop BlockId Offset SegmentId].
  rewrite Erb, Lbuf.
  replace (Offset p >=? blockSize) with false
    by (symmetry; rewrite Z.geb_leb; apply Z.leb_gt; lia).
  replace (Offset p <? 0) with false by (symmetry; apply Z.ltb_ge; lia).
  rewrite Hbuf, readChunk_empty by exact Ht. reflexivity.
Qed.

(** X10: an empty entry cannot be read back.  Where the current block
    has room for more than a header, [Write] of the empty entry returns
    a position, and after a [Sync] the [Read] at that position reports
    [io.EOF] instead of returning the empty entry. *)
Theorem Write_empty_reads_EOF (s : Segment) :
  reachable s -> closed s = false ->
  len (data (currentBlock s)) + chunkHeaderSize < blockSize ->
  snd (Write s []) = Ok (Some (frontier s))
  /\ (blk_id (cachedBlock s) <> blk_id (currentBlock s) ->
      snd (Read (fst (Sync (fst (Write s [])))) (frontier s)) = Err ErrEOF).
Proof.
  pose proof blockSize_eq as Hbs.
  intros Hr Hc Hroom. pose proof (reachable_wf s Hr) as Hwf.
  assert (Hcs : splitIntoChunks s []
                = [{| chk_data := []; chunkType := kFullType |}]).
  { unfold splitIntoChunks. cbv zeta. change (len (@nil byte)) with 0.
    replace (blockSize - len (data (currentBlock s)) - chunkHeaderSize >? 0)
      with true by (symmetry; apply Z.gtb_lt; lia).
    reflexivity. }
  assert (Hw : snd (Write s []) = Ok (Some (frontier s))).
  { unfold Write. rewrite Hc, Hcs. cbn [writeChunks chk_data chunkType].
    change (len (@nil byte)) with 0.
    replace (len (data (currentBlock s)) + chunkHeaderSize + 0 >? blockSize)
      with false by (symmetry; rewrite Z.gtb_ltb; apply Z.ltb_ge; lia).
    reflexivity. }
  split; [exact Hw|]. intros Hcache.
  destruct (Write_Sync_layout s [] (frontier s)
              {| chk_data := []; chunkType := kFullType |} Hwf Hc Hw)
    as (_ & W2 & C2 & K2 & HB & (HO & Hfit) & _ & pre & post & Hfd & Hpre).
  { now rewrite Hcs. }
  apply (Read_empty_chunk _ _ kFullType); try assumption.
  - rewrite K2. exact Hcache.
  - unfold kFullType. lia.
  - split; [exact HB|]. split; [exact HO|]. split; [exact Hfit|].
    exists pre, post. split; assumption.
Qed.

Lemma Write_empty_reads_EOF_witness :
  let s := fst (Write (NewSegment 1 []) [x68; x69]) in
  reachable s /\ closed s = false
  /\ len (data (currentBlock s)) + chunkHeaderSize < blockSize
  /\ snd (Write s []) = Ok (Some (frontier s))
  /\ (blk_id (cachedBlock s) <> blk_id (currentBlock s) ->
      snd (Read (fst (Sync (fst (Write s [])))) (frontier s)) = Err ErrEOF).
Proof.
  intros s.
  assert (H1 : reachable s) by (apply reach_Write, reach_new).
  assert (H2 : closed s = false) by reflexivity.
  assert (H3 : len (data (currentBlock s)) + chunkHeaderSize < blockSize)
    by (vm_compute; reflexivity).
  split; [exact H1|]. split; [exact H2|]. split; [exact H3|].
  exact (Write_empty_reads_EOF s H1 H2 H3).
Defined.



Lemma slice_from_repeat {A} (x : A) (n : nat) (k : Z) :
  0 <= k <= Z.of_nat n ->
  slice_from (repeat x n) k = repeat x (n - Z.to_nat k).
Proof.
  intros H. replace n with (Z.to_nat k + (n - Z.to_nat k))%nat at 1 by lia.
  rewrite repeat_app.
  unfold slice_from. apply drop_app_length'. symmetry. apply repeat_length.
Qed.

(** [Read] at the end of the file of a segment that has just been
    opened: the cache buffer is still zero beyond the bytes loaded. *)
Lemma Read_fresh_end (id sid : Z) (file : list byte) :
  len file mod blockSize + chunkHeaderSize <= blockSize ->
  snd (Read (NewSegment id file)
         {| SegmentId := sid; BlockId := len file / blockSize;
            Offset := len file mod blockSize |}) = Err ErrEOF.
Proof.
  pose proof blockSize_eq as Hbs. pose proof (len_nonneg file) as Hf.
  pose proof (Z.mod_pos_bound (len file) blockSize ltac:(lia)) as Hm.
  pose proof (Z.div_mod (len file) blockSize ltac:(lia)) as Hd.
  assert (Hq : 0 <= len file / blockSize) by (apply Z.div_pos; lia).
  set (B := len file / blockSize) in *. set (O := len file mod blockSize) in *.
  unfold chunkHeaderSize. intros Hroom.
  unfold Read. destruct (Read_fuel_pos (NewSegment id file)) as (n & ->).
  cbn [Read_loop BlockId Offset SegmentId]. unfold readBlock.
  cbn [NewSegment closed cachedBlock blk_id data fd flushed set_cachedBlock].
  replace (-1 =? B) with false by (symmetry; apply Z.eqb_neq; lia).
  replace (B * blockSize <? 0) with false by (symmetry; apply Z.ltb_ge; nia).
  cbv zeta. unfold ReadFull. cbv zeta.
  rewrite slice_repeat by lia. rewrite len_repeat, Z2Nat.id by lia.
  assert (La : len (slice_from file (B * blockSize)) = O)
    by (rewrite len_slice_from by nia; lia).
  rewrite La. replace (Z.min blockSize O) with O by lia.
  replace (O =? blockSize) with false by (symmetry; apply Z.eqb_neq; lia).
  destruct (Z.eqb_spec O 0) as [E|E]; [reflexivity|].
  cbn [snd]. rewrite len_app, len_slice, len_slice_from
    by (rewrite ?len_repeat; lia).
  rewrite len_repeat, Z2Nat.id by lia.
  replace (O >=? O - 0 + (blockSize - O)) with false
    by (symmetry; rewrite Z.geb_leb; apply Z.leb_gt; lia).
  replace (O <? 0) with false by (symmetry; apply Z.ltb_ge; lia).
  replace O with (len (slice (slice_from file (B * blockSize)) 0 O)) at 3
    by (rewrite len_slice by lia; lia).
  rewrite slice_from_app_len, slice_from_repeat by lia.
  replace (Z.to_nat blockSize - Z.to_nat O)%nat
    with (7 + (Z.to_nat blockSize - Z.to_nat O - 7))%nat by lia.
  rewrite repeat_app, <- chunkHeader_empty, readChunk_empty by lia.
  reflexivity.
Qed.

(** X12: the end of the data reads as [io.EOF].  On a segment opened on
    the file that [Close] or [Sync] left, [Read] at the position where
    the next entry would have gone reports [io.EOF], provided a chunk
    header still fits in the block there. *)
Theorem Read_end_of_log (s : Segment) (id : Z) :
  reachable s -> closed s = false ->
  len (data (currentBlock s)) + chunkHeaderSize <= blockSize ->
  snd (Read (NewSegment id (fd (fst (Close s)))) (frontier s)) = Err ErrEOF
  /\ snd (Read (NewSegment id (fd (fst (Sync s)))) (frontier s)) = Err ErrEOF.
Proof.
  pose proof blockSize_eq as Hbs.
  intros Hr Hc Hroom. pose proof (reachable_wf s Hr) as Hwf.
  pose proof (len_nonneg (data (currentBlock s))) as Hd.
  pose proof (stream_len s Hwf) as Ls.
  pose proof Hwf as (_ & _ & _ & _ & HB & _).
  unfold chunkHeaderSize in *. split.
  - apply (Read_empty_chunk _ _ 0); try lia.
    + apply wf_NewSegment.
    + reflexivity.
    + cbn [NewSegment cachedBlock blk_id frontier BlockId]. lia.
    + cbn [NewSegment fd frontier BlockId Offset].
      unfold Close. rewrite Hc.
      pose proof (flushBlock_pads s Hwf) as Hp.
      destruct (flushBlock_spec s true Hwf) as (s1 & z & E & _).
      rewrite E in *. cbn [fst] in *. unfold set_closed. cbn [fd].
      split; [exact HB|]. split; [exact Hd|]. cbn [chk_data].
      change (len (@nil byte)) with 0. unfold chunkHeaderSize.
      split; [lia|].
      exists (stream s),
        (repeat x00 (Z.to_nat (blockSize - len (data (currentBlock s))) - 7)).
      split; [|exact Ls].
      rewrite Hp. f_equal. unfold chunk_bytes. cbn [chk_data chunkType].
      rewrite app_nil_r, chunkHeader_empty, <- repeat_app. f_equal. lia.
  - destruct (Sync_spec s Hwf Hc) as (s' & E & _ & _ & _ & _ & Hfd & _).
    rewrite E. cbn [fst]. rewrite Hfd.
    assert (Hq : len (stream s) / blockSize = blk_id (currentBlock s))
      by (symmetry;
          apply (Z.div_unique _ _ _ (len (data (currentBlock s)))); lia).
    assert (Hm : len (stream s) mod blockSize = len (data (currentBlock s)))
      by (symmetry; apply (Z.mod_unique _ _ (blk_id (currentBlock s))); lia).
    unfold frontier. rewrite <- Hq, <- Hm.
    apply Read_fresh_end. unfold chunkHeaderSize. lia.
Qed.

Lemma Read_end_of_log_witness :
  let s := fst (Write (NewSegment 1 []) [x68; x69]) in
  reachable s /\ closed s = false
  /\ len (data (currentBlock s)) + chunkHeaderSize <= blockSize
  /\ snd (Read (NewSegment 1 (fd (fst (Close s)))) (frontier s)) = Err ErrEOF
  /\ snd (Read (NewSegment 1 (fd (fst (Sync s)))) (frontier s)) = Err ErrEOF.
Proof.
  intros s.
  assert (H1 : reachable s) by (apply reach_Write, reach_new).
  assert (H2 : closed s = false) by reflexivity.
  assert (H3 : len (data (currentBlock s)) + chunkHeaderSize <= blockSize)
    by (vm_compute; discriminate).
  split; [exact H1|]. split; [exact H2|]. split; [exact H3|].
  exact (Read_end_of_log s 1 H1 H2 H3).
Defined.

(* ================================================================== *)
(** ** Reading through a cache that agrees with the file *)

Lemma slice_0_min {A} (l : list A) (k : Z) :
  slice l 0 (Z.min k (len l)) = slice l 0 k.
Proof.
  unfold slice, len. rewrite !Z.sub_0_r.
  destruct (Z.le_gt_cases k (Z.of_nat (length l))) as [H|H].
  - now rewrite Z.min_l by lia.
  - rewrite Z.min_r by lia. rewrite !take_ge; [reflexivity| |];
      rewrite length_drop; lia.
Qed.

(** Loading a block leaves the cache in agreement with the file. *)
Lemma readBlock_coherent (s : Segment) (B : Z) :
  wf s -> cache_coherent s -> cache_coherent (fst (readBlock s B)).
Proof.
  pose proof blockSize_eq as Hbs.
  intros (_ & _ & _ & _ & _ & _ & Lc) Hco. unfold readBlock.
  destruct (closed s); [exact Hco|].
  destruct (blk_id (cachedBlock s) =? B); [exact Hco|].
  cbv zeta. destruct (B * blockSize <? 0); [exact Hco|].
  unfold ReadFull. cbv zeta.
  rewrite len_slice by lia. rewrite Z.sub_0_r.
  set (avail := slice_from (fd s) (B * blockSize)).
  set (buf0 := slice (data (cachedBlock s)) 0 blockSize).
  assert (H : cache_coherent
                (set_cachedBlock s
                   {| blk_id := B;
                      data := slice avail 0 (Z.min blockSize (len avail))
                              ++ slice_from buf0 (Z.min blockSize (len avail));
                      flushed := flushed (cachedBlock s) |})).
  { intros _. cbn [set_cachedBlock cachedBlock blk_id data fd].
    eexists. rewrite slice_0_min. reflexivity. }
  destruct (Z.min blockSize (len avail) =? blockSize); [exact H|].
  destruct (Z.min blockSize (len avail) =? 0); exact H.
Qed.

(** With the cache in agreement with the file, [readBlock] returns a
    buffer that shows the bytes the file holds inside the block. *)
Lemma readBlock_view (s : Segment) (B O : Z) (pre X post : list byte) :
  wf s -> closed s = false -> cache_coherent s ->
  0 <= B -> 0 <= O -> 0 < len X -> O + len X <= blockSize ->
  fd s = pre ++ X ++ post -> len pre = B * blockSize + O ->
  exists s' buf rest,
    readBlock s B = (s', Ok buf) /\ len buf = blockSize
    /\ slice_from buf O = X ++ rest.
Proof.
  pose proof blockSize_eq as Hbs.
  intros Hwf Hc Hco HB HO HX Hfit Hfd Hpre.
  destruct (Z.eq_dec (blk_id (cachedBlock s)) B) as [E|E];
    [|now apply (readBlock_loads s B O pre X post)].
  subst B. rewrite readBlock_hit by exact Hc.
  destruct Hwf as (_ & _ & _ & _ & _ & _ & Lc).
  destruct (Hco HB) as (rest0 & Hd).
  set (avail := slice_from (fd s) (blk_id (cachedBlock s) * blockSize)) in *.
  pose proof (len_nonneg post) as Hpost.
  assert (Lfd : len (fd s)
                = blk_id (cachedBlock s) * blockSize + O + len X + len post)
    by (rewrite Hfd, !len_app; lia).
  assert (La : len avail = O + len X + len post)
    by (unfold avail; rewrite len_slice_from by nia; lia).
  assert (Hav : slice_from avail O = X ++ post).
  { unfold avail, slice_from. rewrite drop_drop.
    replace (Z.to_nat (blk_id (cachedBlock s) * blockSize) + Z.to_nat O)%nat
      with (length pre) by (unfold len in Hpre; nia).
    rewrite Hfd. apply drop_app_length. }
  assert (Ls : O + len X <= len (slice avail 0 blockSize)).
  { rewrite <- slice_0_min. rewrite len_slice by lia. lia. }
  eexists s, _, _. split; [reflexivity|]. split; [exact Lc|].
  rewrite Hd, slice_from_app by lia.
  rewrite slice_from_slice_0, Hav by lia.
  rewrite take_app_ge by (unfold len in *; lia).
  rewrite <- !app_assoc. reflexivity.
Qed.

(** Any [Read] leaves the cache in agreement with the file. *)
Lemma Read_loop_coherent (fuel : nat) (s : Segment) (p : Position)
  (entry : list byte) :
  wf s -> cache_coherent s -> cache_coherent (fst (Read_loop fuel s p entry)).
Proof.
  revert s p entry. induction fuel as [|fuel IH]; intros s p entry Hwf Hco.
  - exact Hco.
  - cbn [Read_loop].
    destruct (readBlock_preserves s (BlockId p) Hwf) as (W & _).
    pose proof (readBlock_coherent s (BlockId p) Hwf Hco) as K.
    destruct (readBlock s (BlockId p)) as [s1 [blockData|e]]; cbn [fst] in *;
      [|exact K].
    repeat match goal with
           | |- context [if ?b then _ else _] => destruct b; cbn [fst]; auto
           | |- context [match readChunk ?x with _ => _ end] =>
               destruct (readChunk x); cbn [fst]; auto
           end.
Qed.

Lemma Read_coherent (s : Segment) (p : Position) :
  wf s -> cache_coherent s -> cache_coherent (fst (Read s p)).
Proof. apply Read_loop_coherent. Qed.

(** The loop of [Read] over the chunks of an entry that the file holds,
    through a cache in agreement with the file. *)
Lemma Read_loop_entry (cs : list chunk) (fuel : nat) (s : Segment)
  (sid B O : Z) (entry : list byte) :
  wf s -> closed s = false -> cache_coherent s ->
  laid_out (fd s) B O cs ->
  Forall (fun c => 0 < len (chk_data c)) cs ->
  (if len entry =? 0 then entry_types cs else tail_types cs) ->
  (length cs <= fuel)%nat ->
  snd (Read_loop fuel s {| SegmentId := sid; BlockId := B; Offset := O |} entry)
  = Ok (entry ++ concat (map chk_data cs)).
Proof.
  pose proof blockSize_eq as Hbs.
  revert fuel s B O entry.
  induction cs as [|c rest IH];
    intros fuel s B O entry Hwf Hc Hco Hl Hpos Hty Hfuel.
  { destruct (len entry =? 0); destruct Hty. }
  destruct fuel as [|fuel]; [cbn [length] in Hfuel; lia|].
  apply Forall_cons in Hpos as [Hc0 Hpos]. cbv beta in Hc0.
  cbn [laid_out] in Hl. destruct Hl as [Hat Hrest].
  destruct Hat as (HB & HO & Hfit & pre & post & Hfd & Hpre).
  assert (Lx : len (chunk_bytes c) = chunkHeaderSize + len (chk_data c))
    by (unfold chunk_bytes; rewrite len_app, len_chunkHeader; reflexivity).
  unfold chunkHeaderSize in *.
  destruct (readBlock_view s B O pre (chunk_bytes c) post)
    as (s1 & buf & tl & Erb & Lbuf & Hbuf); try assumption; try lia.
  destruct (readBlock_preserves s B Hwf) as (W1 & _ & F1 & C1 & _).
  pose proof (readBlock_coherent s B Hwf Hco) as K1.
  rewrite Erb in W1, F1, C1, K1. cbn [fst snd] in W1, F1, C1, K1.
  assert (Hty' : 0 <= chunkType c < 256
                 /\ ((len entry =? 0) && negb (chunkType c =? kFullType)
                     && negb (chunkType c =? kFirstType) = false)
                 /\ (negb (len entry =? 0) && negb (chunkType c =? kMiddleType)
                     && negb (chunkType c =? kLastType) = false)
                 /\ match rest with
                    | [] => (chunkType c =? kLastType)
                            || (chunkType c =? kFullType) = true
                    | _ :: _ => (chunkType c =? kLastType)
                                || (chunkType c =? kFullType) = false
                                /\ tail_types rest
                    end).
  { destruct (len entry =? 0); destruct rest as [|c2 r2];
      cbn [entry_types tail_types] in Hty.
    - rewrite Hty. repeat split; try reflexivity; unfold kFullType; lia.
    - destruct Hty as [Hty Htl]. rewrite Hty.
      repeat split; try reflexivity; try exact Htl; unfold kFirstType; lia.
    - rewrite Hty. repeat split; try reflexivity; unfold kLastType; lia.
    - destruct Hty as [Hty Htl]. rewrite Hty.
      repeat split; try reflexivity; try exact Htl; unfold kMiddleType; lia. }
  destruct Hty' as (Hrange & Hchk1 & Hchk2 & Hlast).
  cbn [Read_loop BlockId Offset SegmentId]. unfold chunkHeaderSize.
  rewrite Erb, Lbuf.
  replace (O >=? blockSize) with false
    by (symmetry; rewrite Z.geb_leb; apply Z.leb_gt; lia).
  replace (O <? 0) with false by (symmetry; apply Z.ltb_ge; lia).
  rewrite Hbuf. unfold chunk_bytes. rewrite <- app_assoc.
  rewrite readChunk_frame by (change (2 ^ 16) with 65536; lia).
  cbn [chk_data chunkType].
  replace (len (chk_data c) =? 0) with false by (symmetry; apply Z.eqb_neq; lia).
  rewrite Hchk1, Hchk2.
  destruct rest as [|c2 r2].
  - rewrite Hlast. cbn [snd map concat]. now rewrite app_nil_r.
  - destruct Hlast as [Hlast Htl]. rewrite Hlast.
    destruct Hrest as [Hfill Hrest].
    replace (O + (7 + len (chk_data c)) >=? blockSize) with true
      by (symmetry; rewrite Z.geb_leb; apply Z.leb_le; lia).
    rewrite Hc in C1.
    assert (Hl' : laid_out (fd s1) (B + 1) 0 (c2 :: r2)) by now rewrite F1.
    assert (Hty2 : if len (entry ++ chk_data c) =? 0
                   then entry_types (c2 :: r2) else tail_types (c2 :: r2)).
    { pose proof (len_nonneg entry).
      replace (len (entry ++ chk_data c) =? 0) with false
        by (symmetry; apply Z.eqb_neq; rewrite len_app; lia).
      exact Htl. }
    assert (Hf : (length (c2 :: r2) <= fuel)%nat) by (cbn [length] in *; lia).
    rewrite (IH fuel s1 (B + 1) 0 (entry ++ chk_data c) W1 C1 K1 Hl' Hpos
               Hty2 Hf).
    cbn [map concat]. now rewrite <- app_assoc.
Qed.

(** [Read] of an entry the file holds, through a cache in agreement with
    the file: the entry is returned, the segment stays as it is but for
    the cache, which stays in agreement. *)
Lemma Read_entry_at (s : Segment) (p : Position) (e : list byte) :
  wf s -> closed s = false -> cache_coherent s -> entry_at (fd s) p e ->
  snd (Read s p) = Ok e.
Proof.
  pose proof blockSize_eq as Hbs.
  intros Hwf Hc Hco (cs & Hl & Hpos & Hty & Hcat). unfold Read.
  assert (Hne : cs <> []) by (destruct cs; [destruct Hty|discriminate]).
  pose proof (laid_out_count cs _ _ _ Hl Hne) as Hcount.
  assert (HB : 0 <= BlockId p).
  { destruct cs as [|c rest]; [congruence|]. cbn [laid_out] in Hl.
    destruct Hl as [(HB & _) _]. exact HB. }
  rewrite (Read_loop_entry cs _ s (SegmentId p) (BlockId p) (Offset p) []);
    try assumption; [now rewrite Hcat|].
  unfold Read_fuel. change (blockSize / 8 + 1) with 4097.
  assert (0 <= len (fd s) / blockSize)
    by (apply Z.div_pos; [apply len_nonneg|lia]).
  lia.
Qed.

Lemma entry_at_app (f z : list byte) (p : Position) (e : list byte) :
  entry_at f p e -> entry_at (f ++ z) p e.
Proof.
  intros (cs & Hl & H). exists cs. split; [now apply laid_out_app|exact H].
Qed.

(** [Write] of a non-empty entry on an open segment: it returns a
    position of that segment, the stream only grows and holds the entry
    at that position. *)
Lemma Write_entry_at (s : Segment) (input : list byte) :
  wf s -> closed s = false -> input <> [] ->
  exists p s1,
    Write s input = (s1, Ok (Some p))
    /\ wf s1 /\ seg_id s1 = seg_id s /\ closed s1 = false
    /\ cachedBlock s1 = cachedBlock s
    /\ SegmentId p = seg_id s
    /\ entry_at (stream s1) p input
    /\ exists z, stream s1 = stream s ++ z.
Proof.
  intros Hwf Hc Hne.
  destruct (splitIntoChunks_spec s input) as (Hsz & Hpos & Hcat & _).
  pose proof (splitIntoChunks_types s input Hne) as Hty.
  destruct (writeChunks_spec _ s Hwf Hsz)
    as (s1 & ps & E & W & I & C & K & Hz & Fr & F2 & Fa & _).
  destruct ps as [|p ps].
  { apply Forall2_nil_inv_r in F2. rewrite F2 in Hty. destruct Hty. }
  exists p, s1. unfold Write. rewrite Hc, E.
  split; [reflexivity|]. split; [exact W|]. split; [exact I|].
  split; [congruence|]. split; [exact K|].
  apply Forall_cons in Fa as [(Hseg & _) _]. split; [exact Hseg|].
  split; [|exact Hz].
  exists (splitIntoChunks s input).
  split; [now apply (Write_laid_out s s1 input p ps)|].
  split; [now apply Hpos|]. split; [exact Hty|exact Hcat].
Qed.

(* ================================================================== *)
(** ** Opening a log *)

Lemma foldl_insert_lookup_ne {V} (f : Z -> V) (l : list Z) (m0 : gmap Z V)
  (k : Z) :
  k ∉ l -> foldl (fun m i => <[i := f i]> m) m0 l !! k = m0 !! k.
Proof.
  revert m0. induction l as [|a l IH]; intros m0 Hn; [reflexivity|].
  cbn [foldl]. apply not_elem_of_cons in Hn as [Hne Hn].
  rewrite IH by exact Hn. now apply lookup_insert_ne.
Qed.

Lemma segIds_elem_of (dir : gmap Z (list byte)) (k : Z) :
  k ∈ merge_sort Z.le (fst <$> map_to_list dir) <-> is_Some (dir !! k).
Proof.
  rewrite merge_sort_Permutation, list_elem_of_fmap. split.
  - intros ([k' v] & -> & H). apply elem_of_map_to_list in H. now exists v.
  - intros [v H]. exists (k, v). split; [reflexivity|].
    now apply elem_of_map_to_list.
Qed.

Lemma segIds_le_last (dir : gmap Z (list byte)) (k top : Z) :
  last (merge_sort Z.le (fst <$> map_to_list dir)) = Some top ->
  is_Some (dir !! k) -> k <= top.
Proof.
  intros El Hk. apply segIds_elem_of in Hk.
  pose proof (StronglySorted_merge_sort Z.le (fst <$> map_to_list dir)) as Hs.
  apply last_Some in El as [l' El]. rewrite El in *.
  apply elem_of_app in Hk as [Hk|Hk].
  - apply (StronglySorted_app_1_elem_of Z.le l' [top]); [exact Hs|exact Hk|].
    apply list_elem_of_singleton. reflexivity.
  - apply list_elem_of_singleton in Hk. lia.
Qed.

(** The segments and the active segment after [initialize]. *)
Lemma initialize_segments (o : Options) (dir : gmap Z (list byte)) :
  (dir = ∅ ->
   segment (Open o dir) = 0
   /\ segments (Open o dir) = <[0 := NewSegment 0 []]> ∅)
  /\ (dir <> ∅ ->
      (forall k, segments (Open o dir) !! k = NewSegment k <$> dir !! k)
      /\ is_Some (dir !! segment (Open o dir))
      /\ (forall k, is_Some (dir !! k) -> k <= segment (Open o dir))).
Proof.
  unfold Open, initialize. cbv zeta.
  destruct (last (merge_sort Z.le (fst <$> map_to_list dir))) as [top|] eqn:El.
  - cbn [set_segments segments segment]. split.
    + intros ->. rewrite map_to_list_empty in El. discriminate.
    + intros _. split; [|split].
      * intros k. destruct (dir !! k) as [file|] eqn:Ek; cbn [fmap option_fmap option_map].
        -- rewrite (foldl_insert_lookup
                      (fun segId => NewSegment segId (default [] (dir !! segId)))).
           ++ now rewrite Ek.
           ++ apply segIds_elem_of. now exists file.
        -- rewrite foldl_insert_lookup_ne; [apply lookup_empty|].
           intros H. apply segIds_elem_of in H as [v Hv]. congruence.
      * apply segIds_elem_of. now apply last_Some_elem_of.
      * intros k. now apply segIds_le_last.
  - cbn [set_segments segments segment]. split.
    + intros _. split; reflexivity.
    + intros Hne. exfalso. apply Hne.
      apply last_None in El.
      assert (Hp := merge_sort_Permutation Z.le (fst <$> map_to_list dir)).
      rewrite El in Hp. symmetry in Hp. apply Permutation_nil_r in Hp.
      apply fmap_nil_inv in Hp. now apply map_to_list_empty_iff.
Qed.



(* ================================================================== *)
(** ** A log that is written, synced, and then read *)

Ltac split6 := split; [|split; [|split; [|split; [|split]]]].

Lemma written_inv_Open (o : Options) (dir : gmap Z (list byte)) :
  written_inv (Open o dir) [].
Proof.
  destruct (initialize_segments o dir) as [He Hn].
  assert (Hnew : forall k file,
             seg_id (NewSegment k file) = k /\ wf (NewSegment k file)
             /\ closed (NewSegment k file) = false
             /\ blk_id (cachedBlock (NewSegment k file)) = -1
             /\ stream (NewSegment k file) = fd (NewSegment k file)).
  { intros k file. split; [reflexivity|]. split; [apply wf_NewSegment|].
    split; [reflexivity|]. split; [reflexivity|].
    unfold stream. cbn [NewSegment currentBlock data flushed fd].
    now rewrite slice_from_len, app_nil_r. }
  destruct (decide (dir = ∅)) as [E|E].
  - destruct (He E) as [Hs Hm]. unfold written_inv. rewrite Hs, Hm.
    split; [eexists; apply lookup_insert_eq|]. split; [|constructor].
    intros k s Hk. apply lookup_insert_Some in Hk as [[<- <-]|[_ Hk]];
      [|now rewrite lookup_empty in Hk].
    destruct (Hnew 0 []) as (H1 & H2 & H3 & H4 & H5).
    split6; try assumption; try lia.
  - destruct (Hn E) as (Hl & [file Ha] & Hmax). unfold written_inv.
    split; [exists (NewSegment (segment (Open o dir)) file);
            now rewrite Hl, Ha|].
    split; [|constructor].
    intros k s Hk. rewrite Hl in Hk.
    destruct (dir !! k) as [fk|] eqn:Ek; [|discriminate].
    injection Hk as <-.
    destruct (Hnew k fk) as (H1 & H2 & H3 & H4 & H5).
    split6; try assumption.
    + apply Hmax. now exists fk.
    + intros; exact H5.
Qed.

(** Replacing a segment by one whose bytes extend it keeps the entries
    of the map where they are. *)
Lemma entries_insert (f : Segment -> list byte) (m : gmap Z Segment) (k : Z)
  (s' : Segment) (pairs : list (Position * list byte)) :
  (forall s, m !! k = Some s -> exists z, f s' = f s ++ z) ->
  Forall (fun pe => exists s, m !! SegmentId (fst pe) = Some s
                              /\ entry_at (f s) (fst pe) (snd pe)) pairs ->
  Forall (fun pe => exists s, <[k := s']> m !! SegmentId (fst pe) = Some s
                              /\ entry_at (f s) (fst pe) (snd pe)) pairs.
Proof.
  intros Hext Hp. eapply Forall_impl; [exact Hp|].
  intros [p e] (s & Hs & He). cbn [fst snd] in *.
  destruct (Z.eq_dec k (SegmentId p)) as [Heq|Hne].
  - rewrite <- Heq in *.
    exists s'. rewrite lookup_insert_eq. split; [reflexivity|].
    destruct (Hext s Hs) as (z & ->). now apply entry_at_app.
  - exists s. rewrite lookup_insert_ne by exact Hne. auto.
Qed.

Lemma written_inv_Sync (w : WAL) (pairs : list (Position * list byte)) :
  written_inv w pairs ->
  snd (Log.Sync w) = Ok tt
  /\ written_inv (fst (Log.Sync w)) pairs
  /\ forall k s, segments (fst (Log.Sync w)) !! k = Some s -> stream s = fd s.
Proof.
  intros ([active Ha] & Hall & Hp). unfold Log.Sync. rewrite Ha.
  destruct (Hall _ _ Ha) as (I & W & C & K & _ & _).
  destruct (Sync_spec active W C) as (s' & E & W' & I' & C' & K' & Hfd & Hst & _).
  rewrite E. cbn [fst snd set_segments]. split; [reflexivity|].
  split; [split; [|split]|]; cbn [set_segments segments segment].
  - eexists. apply lookup_insert_eq.
  - intros k s Hk. apply lookup_insert_Some in Hk as [[<- <-]|[Hne Hk]].
    + split6; try assumption; try congruence; try lia.
    + destruct (Hall _ _ Hk) as (H1 & H2 & H3 & H4 & H5 & H6).
      split6; try assumption; try lia; intros _; apply H6; congruence.
  - apply (entries_insert stream); [|exact Hp].
    intros s Hs. exists []. rewrite app_nil_r. congruence.
  - intros k s Hk. apply lookup_insert_Some in Hk as [[<- <-]|[Hne Hk]].
    + congruence.
    + destruct (Hall _ _ Hk) as (_ & _ & _ & _ & _ & H6). apply H6. congruence.
Qed.

Lemma written_inv_rotate (w : WAL) (pairs : list (Position * list byte)) :
  written_inv w pairs ->
  snd (Log.rotate w) = Ok tt /\ written_inv (fst (Log.rotate w)) pairs.
Proof.
  intros ([active Ha] & Hall & Hp). unfold Log.rotate. rewrite Ha.
  destruct (Hall _ _ Ha) as (I & W & C & K & _ & _).
  destruct (Sync_spec active W C) as (s' & E & W' & I' & C' & K' & Hfd & Hst & _).
  rewrite E. cbv zeta. unfold Id. rewrite I', I.
  assert (Hnone : <[segment w := s']> (segments w) !! (segment w + 1) = None).
  { rewrite lookup_insert_ne by lia.
    destruct (segments w !! (segment w + 1)) as [x|] eqn:Ex; [|reflexivity].
    destruct (Hall _ _ Ex) as (_ & _ & _ & _ & H5 & _). lia. }
  rewrite Hnone. cbn [fst snd]. split; [reflexivity|].
  split; [|split]; cbn [set_segments segments segment].
  - eexists. apply lookup_insert_eq.
  - intros k s Hk. apply lookup_insert_Some in Hk as [[<- <-]|[Hne Hk]].
    + split; [reflexivity|]. split; [apply wf_NewSegment|].
      split; [reflexivity|]. split; [reflexivity|]. split; [lia|].
      intros H. congruence.
    + apply lookup_insert_Some in Hk as [[<- <-]|[Hne' Hk]].
      * split6; try assumption; try congruence; try lia.
      * destruct (Hall _ _ Hk) as (H1 & H2 & H3 & H4 & H5 & H6).
        split6; try assumption; try lia; intros _; apply H6; congruence.
  - apply (entries_insert stream).
    { intros s Hs. rewrite Hnone in Hs. discriminate. }
    apply (entries_insert stream); [|exact Hp].
    intros s Hs. exists []. rewrite app_nil_r. congruence.
Qed.

Lemma written_inv_Write (w : WAL) (pairs : list (Position * list byte))
  (input : list byte) :
  written_inv w pairs -> input <> [] ->
  exists p,
    snd (Log.Write w input) = Ok (Some p)
    /\ written_inv (fst (Log.Write w input)) (pairs ++ [(p, input)]).
Proof.
  intros Hinv Hne.
  assert (Hplain : forall w1,
    written_inv w1 pairs ->
    exists p,
      snd (match segments w1 !! segment w1 with
           | None => (w1, Err ErrPanic)
           | Some seg =>
               let '(seg', r') := Write seg input in
               (set_segments w1 (<[segment w1 := seg']> (segments w1)), r')
           end) = Ok (Some p)
      /\ written_inv
           (fst (match segments w1 !! segment w1 with
                 | None => (w1, Err ErrPanic)
                 | Some seg =>
                     let '(seg', r') := Write seg input in
                     (set_segments w1 (<[segment w1 := seg']> (segments w1)), r')
                 end)) (pairs ++ [(p, input)])).
  { intros w1 ([active Ha] & Hall & Hp). rewrite Ha.
    destruct (Hall _ _ Ha) as (I & W & C & K & _ & _).
    destruct (Write_entry_at active input W C Hne)
      as (p & s1 & E & W1 & I1 & C1 & K1 & Hseg & Hat & Hz).
    rewrite E. cbn [fst snd set_segments]. exists p. split; [reflexivity|].
    split; [|split]; cbn [set_segments segments segment].
    - eexists. apply lookup_insert_eq.
    - intros k s Hk. apply lookup_insert_Some in Hk as [[<- <-]|[Hn Hk]].
      + split6; try assumption; try congruence; try lia.
      + destruct (Hall _ _ Hk) as (H1 & H2 & H3 & H4 & H5 & H6).
        split6; try assumption; try lia; intros _; apply H6; congruence.
    - apply Forall_app. split.
      + apply (entries_insert stream); [|exact Hp].
        intros s Hs. assert (s = active) by congruence. subst s. exact Hz.
      + constructor; [|constructor]. cbn [fst snd]. exists s1.
        rewrite Hseg, I, lookup_insert_eq. auto. }
  pose proof Hinv as ([active Ha] & _).
  unfold Log.Write. rewrite Ha.
  destruct (Size active >=? SegmentSize (opts w)).
  - destruct (written_inv_rotate w pairs Hinv) as [Hr Hinv1].
    destruct (Log.rotate w) as [w1 r]. cbn [fst snd] in Hr, Hinv1. subst r.
    cbv beta iota. exact (Hplain w1 Hinv1).
  - cbv beta iota. exact (Hplain w Hinv).
Qed.

Lemma written_inv_run (ops : list wal_op) (w : WAL)
  (pairs : list (Position * list byte)) :
  written_inv w pairs -> writes_and_syncs ops ->
  written_inv (fst (wal_run w ops))
    (pairs ++ zip (snd (wal_run w ops)) (inputs ops)).
Proof.
  revert w pairs. induction ops as [|o ops IH]; intros w pairs Hinv Hops.
  - cbn. now rewrite app_nil_r.
  - apply Forall_cons in Hops as [Ho Hops]. cbn [wal_run].
    destruct o as [input|p| | |r]; try contradiction; cbn [wal_step].
    + destruct (written_inv_Write w pairs input Hinv Ho) as (p & Hp & Hinv1).
      destruct (Log.Write w input) as [w1 r]. cbn [fst snd] in Hp, Hinv1.
      subst r. specialize (IH w1 _ Hinv1 Hops).
      destruct (wal_run w1 ops) as [w2 ps]. cbn [fst snd] in *.
      unfold inputs. cbn [omap]. fold (inputs ops). cbn [zip zip_with].
      now rewrite <- app_assoc in IH.
    + destruct (written_inv_Sync w pairs Hinv) as (_ & Hinv1 & _).
      specialize (IH _ _ Hinv1 Hops).
      destruct (wal_run (fst (Log.Sync w)) ops) as [w2 ps]. exact IH.
Qed.

Lemma readable_after_Sync (w : WAL) (pairs : list (Position * list byte)) :
  written_inv w pairs -> readable_inv (fst (Log.Sync w)) pairs.
Proof.
  intros Hinv. destruct (written_inv_Sync w pairs Hinv) as (_ & Hinv1 & Hfd).
  destruct Hinv1 as (_ & Hall & Hp). split.
  - intros k s Hk. destruct (Hall _ _ Hk) as (_ & W & C & K & _).
    split; [exact W|]. split; [exact C|]. intros H. lia.
  - eapply Forall_impl; [exact Hp|]. intros pe (s & Hs & He).
    exists s. split; [exact Hs|]. now rewrite <- (Hfd _ _ Hs).
Qed.






(* ================================================================== *)
(** ** The position codec on arbitrary positions *)

Lemma hex_digits_of_byte (v : byte) :
  hex.fromHexChar (hex.digit (Z.shiftr (Z_of_byte v) 4))
  = Some (Z.shiftr (Z_of_byte v) 4)
  /\ hex.fromHexChar (hex.digit (Z.land (Z_of_byte v) 15))
     = Some (Z.land (Z_of_byte v) 15)
  /\ byte_of_Z (Z.lor (Z.shiftl (Z.shiftr (Z_of_byte v) 4) 4)
                      (Z.land (Z_of_byte v) 15)) = v.
Proof. destruct v; vm_compute; repeat split. Qed.

Lemma hex_Decode_Encode (src : list byte) :
  hex.DecodeString (hex.EncodeToString src) = Ok src.
Proof.
  induction src as [|v rest IH]; [reflexivity|].
  destruct (hex_digits_of_byte v) as (H1 & H2 & H3).
  cbn [hex.EncodeToString hex.DecodeString]. rewrite H1, H2, IH, H3.
  reflexivity.
Qed.

Lemma len_hex_EncodeToString (src : list byte) :
  len (hex.EncodeToString src) = 2 * len src.
Proof.
  induction src as [|v rest IH]; [reflexivity|].
  cbn [hex.EncodeToString]. rewrite !len_cons, IH. lia.
Qed.

(** X15: the codec of positions on every position.  [Encode] keeps each
    component modulo 2^32: decoding an encoded position, from bytes or
    from the 24-character string, gives the position with each
    component reduced modulo 2^32, so it gives the position back exactly
    when its three components fit in 32 unsigned bits. *)
Theorem position_codec_truncates (p : Position) :
  Pos.Decode (Pos.Encode p)
  = Ok {| SegmentId := SegmentId p mod 2 ^ 32;
          BlockId := BlockId p mod 2 ^ 32;
          Offset := Offset p mod 2 ^ 32 |}
  /\ len (Pos.EncodeString p) = 24
  /\ Pos.DecodeString (Pos.EncodeString p) = Pos.Decode (Pos.Encode p)
  /\ (Pos.DecodeString (Pos.EncodeString p) = Ok p <-> fits_u32 p).
Proof.
  set (q := {| SegmentId := SegmentId p mod 2 ^ 32;
               BlockId := BlockId p mod 2 ^ 32;
               Offset := Offset p mod 2 ^ 32 |}).
  assert (Hq : fits_u32 q).
  { unfold fits_u32, q. cbn [SegmentId BlockId Offset].
    repeat split; apply Z.mod_pos_bound; reflexivity. }
  assert (He : Pos.Encode q = Pos.Encode p).
  { unfold Pos.Encode, q, uint32. cbn [SegmentId BlockId Offset].
    now rewrite !Z.mod_mod by discriminate. }
  assert (Hd : Pos.Decode (Pos.Encode p) = Ok q)
    by (rewrite <- He; now apply Decode_Encode).
  assert (Hs : Pos.DecodeString (Pos.EncodeString p) = Pos.Decode (Pos.Encode p))
    by (unfold Pos.DecodeString, Pos.EncodeString;
        now rewrite hex_Decode_Encode).
  split; [exact Hd|]. split.
  { unfold Pos.EncodeString. rewrite len_hex_EncodeToString, Encode_length.
    reflexivity. }
  split; [exact Hs|]. rewrite Hs, Hd. split.
  - intros H. injection H as H. rewrite <- H. exact Hq.
  - intros (H1 & H2 & H3). f_equal. unfold q. destruct p as [a b c].
    cbn [SegmentId BlockId Offset] in *.
    now rewrite !Z.mod_small by assumption.
Qed.

(* ================================================================== *)
(** ** A reader at the end of the log *)

Lemma Next_loop_EOF (fuel : nat) (r : Reader) (w : WAL) :
  snd (Next_loop fuel r w) = Err ErrEOF ->
  rd_closed (fst (fst (Next_loop fuel r w))) = true.
Proof.
  revert r w. induction fuel as [|fuel IH]; intros r w; [discriminate|].
  cbn [Next_loop].
  destruct (segments w !! current r) as [seg|]; [|discriminate].
  destruct (Read seg (pos r)) as [seg' res]. cbv zeta.
  destruct res as [entry|e]; [discriminate|].
  destruct e; try discriminate.
  - match goal with
    | |- context [match ?m !! ?k with _ => _ end] => destruct (m !! k)
    end; [apply IH|reflexivity].
  - match goal with
    | |- context [match ?m !! ?k with _ => _ end] => destruct (m !! k)
    end; [apply IH|reflexivity].
Qed.

(** X16: the end reported by a reader is final.  Once [Next] has
    returned [io.EOF] the reader is closed, and every later [Next]
    returns [io.EOF] again without touching the log, whatever has been
    written to the log in the meantime; the same holds after
    [Reader.Close]. *)
Theorem Next_EOF_is_final (r : Reader) (w w' : WAL) :
  snd (Next r w) = Err ErrEOF ->
  rd_closed (fst (fst (Next r w))) = true
  /\ Next (fst (fst (Next r w))) w' = (fst (fst (Next r w)), w', Err ErrEOF)
  /\ Next (Reader_Close r) w' = (Reader_Close r, w', Err ErrEOF).
Proof.
  intros H.
  assert (Hc : rd_closed (fst (fst (Next r w))) = true).
  { unfold Next in *. destruct (rd_closed r) eqn:E; [exact E|].
    now apply Next_loop_EOF. }
  split; [exact Hc|]. split.
  - unfold Next at 1. now rewrite Hc.
  - unfold Next, Reader_Close. destruct (rd_closed r) eqn:E.
    + now rewrite E.
    + reflexivity.
Qed.

Lemma Next_EOF_is_final_witness :
  let w := Open (mkOptions 1) ∅ in
  let r := {| pos := {| SegmentId := 0; BlockId := 0; Offset := 0 |};
              current := 0; rd_closed := false |} in
  let w' := fst (Log.Write w [x61]) in
  snd (Next r w) = Err ErrEOF
  /\ rd_closed (fst (fst (Next r w))) = true
  /\ Next (fst (fst (Next r w))) w' = (fst (fst (Next r w)), w', Err ErrEOF)
  /\ Next (Reader_Close r) w' = (Reader_Close r, w', Err ErrEOF).
Proof.
  intros w r w'.
  assert (H : snd (Next r w) = Err ErrEOF) by (vm_compute; reflexivity).
  split; [exact H|]. exact (Next_EOF_is_final r w w' H).
Defined.

(* ================================================================== *)
(** ** Closing a log *)

Lemma Close_closes (s : Segment) :
  wf s -> snd (Close s) = Ok tt /\ closed (fst (Close s)) = true.
Proof.
  intros Hwf. unfold Close.
  destruct (closed s) eqn:Hc; [cbn [fst snd]; split; [reflexivity|exact Hc]|].
  destruct (flushBlock_spec s true Hwf) as (s1 & z & E & _).
  rewrite E. cbn [fst snd]. split; reflexivity.
Qed.

Lemma closed_Read (s : Segment) (p : Position) :
  closed s = true -> Read s p = (s, Err ErrClosed).
Proof.
  intros Hc. unfold Read. destruct (Read_fuel_pos s) as (n & ->).
  cbn [Read_loop BlockId]. unfold readBlock. now rewrite Hc.
Qed.

Lemma log_wf_Open (o : Options) (dir : gmap Z (list byte)) :
  log_wf (Open o dir).
Proof.
  destruct (written_inv_Open o dir) as (Ha & Hall & _).
  split; [exact Ha|]. split.
  - intros k s Hk. now destruct (Hall k s Hk) as (_ & W & _).
  - unfold Open, initialize. cbv zeta.
    destruct (last _); cbn [closeC]; discriminate.
Qed.

(** Replacing a segment of the map by a well-formed one that is closed
    if the old one was. *)
Lemma log_wf_update (w : WAL) (k : Z) (s s' : Segment) :
  log_wf w -> segments w !! k = Some s -> wf s' -> closed s' = closed s ->
  log_wf (set_segments w (<[k := s']> (segments w))).
Proof.
  intros ([active Ha] & Hall & Hcl) Hk W C.
  split; [|split]; cbn [set_segments segments segment closeC].
  - destruct (Z.eq_dec k (segment w)) as [->|Hne].
    + eexists. apply lookup_insert_eq.
    + exists active. now rewrite lookup_insert_ne.
  - intros k' x Hx. apply lookup_insert_Some in Hx as [[<- <-]|[Hn Hx]];
      [exact W|now apply (Hall k')].
  - intros Hc k' x Hx. apply lookup_insert_Some in Hx as [[<- <-]|[Hn Hx]].
    + rewrite C. now apply (Hcl Hc k).
    + now apply (Hcl Hc k').
Qed.

Lemma log_wf_rotate (w : WAL) : log_wf w -> log_wf (fst (Log.rotate w)).
Proof.
  intros Hinv. pose proof Hinv as ([active Ha] & Hall & Hcl).
  unfold Log.rotate. rewrite Ha.
  pose proof (Sync_wf active (Hall _ _ Ha)) as W.
  destruct (Sync_cache active) as [_ C].
  destruct (Sync active) as [active' [u|e]] eqn:Es; cbn [fst] in *.
  - cbv zeta. cbn [fst].
    split; [|split]; cbn [segments segment closeC].
    + eexists. apply lookup_insert_eq.
    + intros k x Hx. apply lookup_insert_Some in Hx as [[<- <-]|[Hn Hx]];
        [apply wf_NewSegment|].
      apply lookup_insert_Some in Hx as [[<- <-]|[Hn' Hx]];
        [exact W|now apply (Hall k)].
    + intros Hc. exfalso. pose proof (Hcl Hc _ _ Ha) as Hca.
      unfold Sync in Es. rewrite Hca in Es. discriminate.
  - now apply (log_wf_update w (segment w) active).
Qed.

Lemma log_wf_read (w : WAL) (k : Z) (seg : Segment) (p : Position) :
  log_wf w -> segments w !! k = Some seg ->
  log_wf (set_segments w (<[k := fst (Read seg p)]> (segments w))).
Proof.
  intros Hinv Hk. pose proof Hinv as (_ & Hall & _).
  destruct (Read_preserves seg p (Hall _ _ Hk)) as (W & _ & _ & C & _).
  now apply (log_wf_update w k seg).
Qed.

Lemma log_wf_Next_loop (fuel : nat) (r : Reader) (w : WAL) :
  log_wf w -> log_wf (snd (fst (Next_loop fuel r w))).
Proof.
  revert r w. induction fuel as [|fuel IH]; intros r w Hinv; [exact Hinv|].
  cbn [Next_loop].
  destruct (segments w !! current r) as [seg|] eqn:Hk; [|exact Hinv].
  pose proof (log_wf_read w (current r) seg (pos r) Hinv Hk) as Hinv'.
  destruct (Read seg (pos r)) as [seg' res]. cbn [fst] in Hinv'.
  cbv zeta.
  destruct res as [entry|e]; [exact Hinv'|].
  destruct e; try exact Hinv'.
  - match goal with
    | |- context [match ?m !! ?k with _ => _ end] => destruct (m !! k)
    end; [apply IH|]; exact Hinv'.
  - match goal with
    | |- context [match ?m !! ?k with _ => _ end] => destruct (m !! k)
    end; [apply IH|]; exact Hinv'.
Qed.

Lemma log_wf_Close (w : WAL) :
  log_wf w ->
  log_wf (fst (Log.Close w)) /\ closeC (fst (Log.Close w)) = true
  /\ snd (Log.Close w) = Ok tt.
Proof.
  intros Hinv. pose proof Hinv as ([active Ha] & Hall & Hcl).
  unfold Log.Close. destruct (closeC w) eqn:Hc; cbn [fst snd].
  - split; [exact Hinv|]. split; [exact Hc|reflexivity].
  - split; [|split; [reflexivity|]].
    + split; [|split]; cbn [segments segment closeC].
      * exists (fst (Close active)). now rewrite lookup_fmap, Ha.
      * intros k s Hk. rewrite lookup_fmap in Hk.
        destruct (segments w !! k) as [x|] eqn:Ex; [|discriminate].
        injection Hk as <-. apply Close_wf. now apply (Hall k).
      * intros _ k s Hk. rewrite lookup_fmap in Hk.
        destruct (segments w !! k) as [x|] eqn:Ex; [|discriminate].
        injection Hk as <-. apply Close_closes. now apply (Hall k).
    + assert (He : omap (fun kv : Z * Segment =>
                           match snd (Close (snd kv)) with
                           | Err e => Some e
                           | Ok _ => None
                           end) (map_to_list (segments w)) = []).
      { assert (Hf : Forall (fun kv : Z * Segment => wf (snd kv))
                            (map_to_list (segments w))).
        { apply Forall_forall. intros [k s] Hk.
          apply elem_of_map_to_list in Hk. now apply (Hall k). }
        induction Hf as [|kv l Hkv Hf IH]; [reflexivity|].
        cbn [omap list_omap]. destruct (Close_closes _ Hkv) as [-> _]. exact IH. }
      now rewrite He.
Qed.

Lemma log_wf_step (w : WAL) (o : wal_op) :
  log_wf w -> log_wf (fst (wal_step w o)).
Proof.
  intros Hinv. pose proof Hinv as ([active Ha] & Hall & Hcl).
  destruct o as [input|p| | |r]; cbn [wal_step].
  - assert (Hplain : forall w1,
      log_wf w1 ->
      log_wf (fst (match
                   (match segments w1 !! segment w1 with
                    | None => (w1, Err ErrPanic)
                    | Some seg =>
                        let '(seg', r') := Write seg input in
                        (set_segments w1 (<[segment w1 := seg']> (segments w1)), r')
                    end) with
                 | (w', Ok (Some p)) => (w', Some p)
                 | (w', _) => (w', None)
                 end))).
    { intros w1 Hinv1. pose proof Hinv1 as ([a1 Ha1] & Hall1 & _).
      rewrite Ha1.
      pose proof (Write_wf a1 input (Hall1 _ _ Ha1)) as W.
      destruct (Write_cache a1 input) as [_ C].
      pose proof (log_wf_update w1 (segment w1) a1 _ Hinv1 Ha1 W C) as H.
      destruct (Write a1 input) as [seg' [[q|]|e]]; exact H. }
    unfold Log.Write. rewrite Ha.
    destruct (Size active >=? SegmentSize (opts w)).
    + pose proof (log_wf_rotate w Hinv) as Hr.
      destruct (Log.rotate w) as [w1 [u|e]]; cbn [fst] in Hr; cbv beta iota.
      * now apply Hplain.
      * exact Hr.
    + cbv beta iota. now apply Hplain.
  - unfold Log.Read. destruct (segments w !! SegmentId p) as [seg|] eqn:Hk;
      [|exact Hinv].
    pose proof (log_wf_read w (SegmentId p) seg p Hinv Hk) as H.
    destruct (Read seg p) as [seg' res]. exact H.
  - unfold Log.Sync. rewrite Ha.
    pose proof (Sync_wf active (Hall _ _ Ha)) as W.
    destruct (Sync_cache active) as [_ C].
    pose proof (log_wf_update w (segment w) active _ Hinv Ha W C) as H.
    destruct (Sync active) as [active' res]. exact H.
  - now apply log_wf_Close.
  - unfold Next. destruct (rd_closed r); [exact Hinv|].
    now apply log_wf_Next_loop.
Qed.

Lemma log_wf_run (ops : list wal_op) (w : WAL) :
  log_wf w -> log_wf (fst (wal_run w ops)).
Proof.
  revert w. induction ops as [|o ops IH]; intros w Hinv; [exact Hinv|].
  cbn [wal_run]. pose proof (log_wf_step w o Hinv) as H1.
  destruct (wal_step w o) as [w1 po]. cbn [fst] in H1.
  specialize (IH w1 H1). destruct (wal_run w1 ops) as [w2 ps]. exact IH.
Qed.

(** X17: closing a log.  After any history of a log opened on any
    directory, [Close] returns no error; from then on [Write] fails
    (with [ErrClosed], or with the rotation error wrapping it when the
    active segment is due for rotation), [Sync] fails with [ErrClosed],
    [Read] fails with [ErrClosed] or reports a missing segment, and a
    second [Close] returns no error and changes nothing. *)
Theorem closed_log_refuses (o : Options) (dir : gmap Z (list byte))
  (ops : list wal_op) (input : list byte) (p : Position) :
  let w := fst (wal_run (Open o dir) ops) in
  let w' := fst (Log.Close w) in
  snd (Log.Close w) = Ok tt
  /\ (snd (Log.Write w' input) = Err ErrClosed
      \/ snd (Log.Write w' input) = Err (ErrRotationFailed ErrClosed))
  /\ snd (Log.Sync w') = Err ErrClosed
  /\ (snd (Log.Read w' p) = Err ErrClosed
      \/ snd (Log.Read w' p) = Err ErrSegmentNotFound)
  /\ Log.Close w' = (w', Ok tt).
Proof.
  cbv zeta.
  pose proof (log_wf_run ops _ (log_wf_Open o dir)) as Hinv.
  destruct (log_wf_Close _ Hinv) as (Hinv' & Hc & Hr).
  set (w' := fst (Log.Close (fst (wal_run (Open o dir) ops)))) in *.
  clearbody w'. destruct Hinv' as ([active Ha] & Hall & Hcl).
  pose proof (Hcl Hc _ _ Ha) as Hca.
  split; [exact Hr|]. split; [|split; [|split]].
  - unfold Log.Write. rewrite Ha.
    destruct (Size active >=? SegmentSize (opts w')).
    + right. unfold Log.rotate. rewrite Ha. unfold Sync. rewrite Hca.
      reflexivity.
    + left. cbv beta iota. rewrite Ha. unfold Write. rewrite Hca. reflexivity.
  - unfold Log.Sync. rewrite Ha. unfold Sync. rewrite Hca. reflexivity.
  - unfold Log.Read. destruct (segments w' !! SegmentId p) as [seg|] eqn:Hk.
    + left. rewrite (closed_Read seg p (Hcl Hc _ _ Hk)). reflexivity.
    + right. reflexivity.
  - unfold Log.Close. now rewrite Hc.
Qed.

(* ================================================================== *)
(** ** Reading from the middle of an entry *)

(** [Read] where the file holds a non-empty chunk that continues an
    entry. *)
Lemma Read_continuation_chunk (s : Segment) (p : Position) (c : chunk) :
  wf s -> closed s = false -> blk_id (cachedBlock s) <> BlockId p ->
  chunk_at (fd s) (BlockId p) (Offset p) c ->
  0 < len (chk_data c) ->
  chunkType c = kMiddleType \/ chunkType c = kLastType ->
  snd (Read s p) = Err (ErrInvalidFirstChunkType (chunkType c)).
Proof.
  pose proof blockSize_eq as Hbs.
  intros Hwf Hc Hcache (HB & HO & Hfit & pre & post & Hfd & Hpre) Hpos Hty.
  assert (Lx : len (chunk_bytes c) = chunkHeaderSize + len (chk_data c))
    by (unfold chunk_bytes; rewrite len_app, len_chunkHeader; reflexivity).
  unfold chunkHeaderSize in *.
  destruct (readBlock_loads s (BlockId p) (Offset p) pre (chunk_bytes c) post)
    as (s1 & buf & tl & Erb & Lbuf & Hbuf); try assumption; try lia.
  unfold Read. destruct (Read_fuel_pos s) as (n & ->).
  cbn [Read_loop BlockId Offset SegmentId]. rewrite Erb, Lbuf.
  replace (Offset p >=? blockSize) with false
    by (symmetry; rewrite Z.geb_leb; apply Z.leb_gt; lia).
  replace (Offset p <? 0) with false by (symmetry; apply Z.ltb_ge; lia).
  rewrite Hbuf. unfold chunk_bytes. rewrite <- app_assoc.
  assert (Ht : 0 <= chunkType c < 256)
    by (destruct Hty as [E|E]; rewrite E; unfold kMiddleType, kLastType; lia).
  rewrite readChunk_frame by (change (2 ^ 16) with 65536; lia).
  cbn [chk_data chunkType].
  replace (len (chk_data c) =? 0) with false by (symmetry; apply Z.eqb_neq; lia).
  change (len (@nil byte)) with 0.
  destruct Hty as [E|E]; rewrite E; reflexivity.
Qed.

(** X18: [Read] only accepts the position of the start of an entry.
    After an entry too long for one block has been written and synced,
    [Read] at the start of the block after the one of the returned
    position, where the entry continues, fails with the invalid first
    chunk type error, for a MIDDLE or a LAST chunk. *)
Theorem Read_inside_entry (s : Segment) (input : list byte) :
  reachable s -> closed s = false ->
  blockSize - chunkHeaderSize < len input ->
  exists p t,
    snd (Write s input) = Ok (Some p)
    /\ (t = kMiddleType \/ t = kLastType)
    /\ (blk_id (cachedBlock s) <> BlockId p + 1 ->
        snd (Read (fst (Sync (fst (Write s input))))
               {| SegmentId := SegmentId p; BlockId := BlockId p + 1;
                  Offset := 0 |})
        = Err (ErrInvalidFirstChunkType t)).
Proof.
  pose proof blockSize_eq as Hbs.
  intros Hr Hc Hlong. pose proof (reachable_wf s Hr) as Hwf.
  assert (Hne : input <> []).
  { intros ->. change (len (@nil byte)) with 0 in Hlong.
    unfold chunkHeaderSize in Hlong. lia. }
  destruct (Write_Sync_laid_out s input Hwf Hc Hne)
    as (p & s1 & EW & W1 & C1 & K1 & Hseg & HB & Hl).
  destruct (splitIntoChunks_spec s input) as (Hsz & Hpos & Hcat & _).
  specialize (Hpos Hne).
  pose proof (splitIntoChunks_types s input Hne) as Hty.
  destruct (Sync_spec s1 W1 C1) as (s2 & ES & W2 & _ & C2 & K2 & Hfd & _).
  destruct (splitIntoChunks s input) as [|c [|c2 rest]].
  - destruct Hty.
  - cbn [map concat] in Hcat. rewrite app_nil_r in Hcat.
    apply Forall_cons in Hsz as [Hsz _]. cbv beta in Hsz.
    rewrite Hcat in Hsz. lia.
  - cbn [entry_types tail_types] in Hty. destruct Hty as [_ Hty].
    cbn [laid_out] in Hl. destruct Hl as (_ & _ & Hat2 & _).
    apply Forall_cons in Hpos as [_ Hpos].
    apply Forall_cons in Hpos as [Hpos2 _]. cbv beta in Hpos2.
    exists p, (chunkType c2). rewrite EW. cbn [fst snd].
    split; [reflexivity|]. split.
    { destruct rest; [right; exact Hty|left; exact (proj1 Hty)]. }
    intros Hcache. rewrite ES. cbn [fst].
    apply Read_continuation_chunk; try assumption.
    + cbn [BlockId]. congruence.
    + cbn [BlockId Offset]. now rewrite Hfd.
    + destruct rest; [right; exact Hty|left; exact (proj1 Hty)].
Qed.

Lemma Read_inside_entry_witness :
  let s := NewSegment 1 [] in
  let input := repeat "a"%byte (Z.to_nat 40000) in
  reachable s /\ closed s = false
  /\ blockSize - chunkHeaderSize < len input
  /\ exists p t,
       snd (Write s input) = Ok (Some p)
       /\ (t = kMiddleType \/ t = kLastType)
       /\ (blk_id (cachedBlock s) <> BlockId p + 1 ->
           snd (Read (fst (Sync (fst (Write s input))))
                  {| SegmentId := SegmentId p; BlockId := BlockId p + 1;
                     Offset := 0 |})
           = Err (ErrInvalidFirstChunkType t)).
Proof.
  intros s input.
  assert (H1 : reachable s) by apply reach_new.
  assert (H2 : closed s = false) by reflexivity.
  assert (H3 : blockSize - chunkHeaderSize < len input).
  { unfold input. rewrite len_repeat. vm_compute. reflexivity. }
  split; [exact H1|]. split; [exact H2|]. split; [exact H3|].
  exact (Read_inside_entry s input H1 H2 H3).
Defined.

(* ================================================================== *)
(** ** A reader over the entries of one block *)

Lemma len_frames (es : list (list byte)) : len (frames es) = framed_size es.
Proof.
  induction es as [|e rest IH]; [reflexivity|].
  unfold frames in *. cbn [map concat framed_size].
  rewrite !len_app, len_chunkHeader, IH. lia.
Qed.

Lemma frames_app (es fs : list (list byte)) :
  frames (es ++ fs) = frames es ++ frames fs.
Proof. unfold frames. now rewrite map_app, concat_app. Qed.

Lemma framed_size_nonneg (es : list (list byte)) : 0 <= framed_size es.
Proof. rewrite <- len_frames. apply len_nonneg. Qed.

(** A non-empty entry that fits in the block is written as one FULL
    chunk at the end of the buffer. *)
Lemma Write_buffered (s : Segment) (D e : list byte) :
  buffered s D -> e <> [] -> len D + chunkHeaderSize + len e <= blockSize ->
  exists s',
    Write s e = (s', Ok (Some {| SegmentId := 0; BlockId := 0; Offset := len D |}))
    /\ buffered s' (D ++ chunkHeader e kFullType ++ e).
Proof.
  pose proof blockSize_eq as Hbs.
  destruct s as [id file cl cb cache].
  intros (H1 & H2 & H3 & H4 & H5 & H6) Hne Hfit. seg_simpl. subst.
  assert (He : 0 < len e).
  { destruct e; [congruence|]. rewrite len_cons. pose proof (len_nonneg e). lia. }
  unfold chunkHeaderSize in *.
  assert (Hcs : splitIntoChunks
                  {| seg_id := 0; fd := []; closed := false;
                     currentBlock := {| blk_id := 0; data := D; flushed := 0 |};
                     cachedBlock := cache |} e
                = [{| chk_data := e; chunkType := kFullType |}]).
  { unfold splitIntoChunks. cbv zeta. seg_simpl. unfold chunkHeaderSize.
    replace (blockSize - len D - 7 >? 0) with true
      by (symmetry; apply Z.gtb_lt; lia).
    assert (Hsz : (if blockSize - len D - 7 >? len e then len e
                   else blockSize - len D - 7) = len e).
    { destruct (Z.gtb_spec (blockSize - len D - 7) (len e)); lia. }
    rewrite Hsz, !Z.eqb_refl. cbn [andb]. rewrite Z.add_0_l, Z.sub_diag.
    rewrite slice_0_len. f_equal.
    destruct (length e); reflexivity. }
  unfold Write. seg_simpl. rewrite Hcs.
  cbn [writeChunks chk_data chunkType]. seg_simpl. unfold chunkHeaderSize.
  replace (len D + 7 + len e >? blockSize) with false
    by (symmetry; rewrite Z.gtb_ltb; apply Z.ltb_ge; lia).
  unfold writeChunk. cbv zeta. seg_simpl.
  eexists. split; [reflexivity|].
  unfold buffered. seg_simpl. rewrite <- app_assoc. auto 10.
Qed.

Lemma Size_buffered (s : Segment) (D : list byte) : buffered s D -> Size s = 0.
Proof.
  intros (_ & _ & _ & H4 & _). unfold Size. rewrite H4. reflexivity.
Qed.

(** Writing the entries one after the other to a fresh log whose
    segment size is positive: no rotation, everything is buffered in
    block 0 of segment 0. *)
Lemma wal_run_buffered (es : list (list byte)) (w : WAL) (s : Segment)
  (D : list byte) :
  0 < SegmentSize (opts w) -> segment w = 0 ->
  segments w !! 0 = Some s -> segments w !! 1 = None -> buffered s D ->
  Forall (fun e => e <> []) es ->
  len D + framed_size es <= blockSize ->
  exists s',
    segment (fst (wal_run w (map OpWrite es))) = 0
    /\ segments (fst (wal_run w (map OpWrite es))) !! 0 = Some s'
    /\ segments (fst (wal_run w (map OpWrite es))) !! 1 = None
    /\ buffered s' (D ++ frames es).
Proof.
  revert w s D.
  induction es as [|e rest IH]; intros w s D Ho Ha Hs Hn Hb Hne Hfit.
  - exists s. cbn [map wal_run fst frames concat]. rewrite app_nil_r. auto.
  - apply Forall_cons in Hne as [He Hne]. cbn [framed_size] in Hfit.
    pose proof (framed_size_nonneg rest) as Hr.
    destruct (Write_buffered s D e Hb He) as (s1 & Ew & Hb1); [lia|].
    cbn [map wal_run wal_step]. unfold Log.Write.
    rewrite Ha, Hs, (Size_buffered s D Hb).
    replace (0 >=? SegmentSize (opts w)) with false
      by (symmetry; rewrite Z.geb_leb; apply Z.leb_gt; lia).
    cbv beta iota. rewrite Ha, Hs, Ew. cbv beta iota.
    set (w1 := set_segments w (<[0 := s1]> (segments w))).
    assert (Hs1 : segments w1 !! 0 = Some s1)
      by (unfold w1; cbn [set_segments segments]; apply lookup_insert_eq).
    assert (Hn1 : segments w1 !! 1 = None)
      by (unfold w1; cbn [set_segments segments];
          rewrite lookup_insert_ne by lia; exact Hn).
    assert (Hfit1 : len (D ++ chunkHeader e kFullType ++ e) + framed_size rest
                    <= blockSize)
      by (rewrite !len_app, len_chunkHeader; lia).
    destruct (IH w1 s1 (D ++ chunkHeader e kFullType ++ e) Ho Ha Hs1 Hn1 Hb1
                Hne Hfit1) as (s' & H1 & H2 & H3 & H4).
    destruct (wal_run w1 (map OpWrite rest)) as [w2 ps]. cbn [fst] in *.
    exists s'. split; [exact H1|]. split; [exact H2|]. split; [exact H3|].
    unfold frames in *. cbn [map concat]. now rewrite <- !app_assoc in *.
Qed.

(** [Sync] on the buffered segment leaves it ready for reading. *)
Lemma Sync_buffered (s : Segment) (D : list byte) :
  buffered s D -> len D < blockSize ->
  snd (Sync s) = Ok tt /\ reader_ready (fst (Sync s)) D.
Proof.
  pose proof blockSize_eq as Hbs.
  destruct s as [id file cl cb cache].
  intros (H1 & H2 & H3 & H4 & H5 & H6) Hlt. seg_simpl. subst.
  pose proof (len_nonneg D) as Hd.
  assert (Hwf : wf {| seg_id := 0; fd := []; closed := false;
                      currentBlock := {| blk_id := 0; data := D; flushed := 0 |};
                      cachedBlock := cache |}).
  { unfold wf. seg_simpl. rewrite H6, len_repeat.
    change (len (@nil byte)) with 0. lia. }
  destruct (Sync_spec _ Hwf eq_refl)
    as (s' & E & W' & _ & C' & K' & Hfd & _).
  rewrite E. cbn [fst snd]. split; [reflexivity|].
  split; [exact W'|]. split; [exact C'|]. split.
  - rewrite Hfd. unfold stream. seg_simpl. reflexivity.
  - left. rewrite K'. seg_simpl. auto.
Qed.

(** Loading block 0 of a segment that is ready for reading. *)
Lemma readBlock_ready (s : Segment) (D : list byte) :
  reader_ready s D -> len D < blockSize ->
  exists s1,
    reader_ready s1 D
    /\ (readBlock s 0
        = (s1, Ok (D ++ repeat x00 (Z.to_nat blockSize - Z.to_nat (len D))))
        \/ (D = [] /\ readBlock s 0 = (s1, Err ErrEOF))).
Proof.
  pose proof blockSize_eq as Hbs. pose proof (len_nonneg D) as Hd.
  intros (W & C & F & K) Hlt.
  destruct K as [[Ki Kd]|[Ki Kd]].
  - set (buf := D ++ repeat x00 (Z.to_nat blockSize - Z.to_nat (len D))).
    set (s1 := set_cachedBlock s
                 {| blk_id := 0; data := buf;
                    flushed := flushed (cachedBlock s) |}).
    assert (E : readBlock s 0
                = (s1, if len D =? 0 then Err ErrEOF else Ok buf)).
    { unfold readBlock. rewrite C, Ki.
      change (-1 =? 0) with false. cbv iota.
      change (0 * blockSize) with 0. change (0 <? 0) with false. cbv iota zeta.
      unfold ReadFull. cbv zeta. rewrite Kd, F.
      rewrite slice_repeat by lia. rewrite len_repeat, Z2Nat.id by lia.
      rewrite slice_from_0.
      replace (Z.min blockSize (len D)) with (len D) by lia.
      rewrite slice_0_len, slice_from_repeat by lia.
      replace (len D =? blockSize) with false
        by (symmetry; apply Z.eqb_neq; lia).
      fold buf. fold s1.
      destruct (len D =? 0); reflexivity. }
    assert (R1 : reader_ready s1 D).
    { pose proof (readBlock_preserves s 0 W) as (W1 & _ & F1 & C1 & _).
      rewrite E in W1, F1, C1. cbn [fst] in W1, F1, C1.
      split; [exact W1|]. split; [congruence|]. split; [congruence|].
      right. split; reflexivity. }
    exists s1. split; [exact R1|]. rewrite E.
    destruct (Z.eqb_spec (len D) 0) as [E0|E0].
    + right. split; [|reflexivity].
      apply nil_length_inv. unfold len in E0. lia.
    + left. reflexivity.
  - exists s. split.
    + split; [exact W|]. split; [exact C|]. split; [exact F|]. right. auto.
    + left. rewrite <- Ki at 1. rewrite readBlock_hit by exact C.
      now rewrite Kd.
Qed.

(** [Read] of an entry stored as one FULL chunk in block 0. *)
Lemma Read_ready_entry (s : Segment) (pre e post : list byte) (sid : Z) :
  reader_ready s (pre ++ (chunkHeader e kFullType ++ e) ++ post) ->
  e <> [] ->
  len (pre ++ (chunkHeader e kFullType ++ e) ++ post) + chunkHeaderSize
  <= blockSize ->
  exists s1,
    Read s {| SegmentId := sid; BlockId := 0; Offset := len pre |}
    = (s1, Ok e)
    /\ reader_ready s1 (pre ++ (chunkHeader e kFullType ++ e) ++ post).
Proof.
  pose proof blockSize_eq as Hbs.
  set (D := pre ++ (chunkHeader e kFullType ++ e) ++ post).
  intros Hready Hne Hfit.
  assert (LD : len D = len pre + (7 + len e) + len post)
    by (unfold D; rewrite !len_app, len_chunkHeader;
        unfold chunkHeaderSize; lia).
  pose proof (len_nonneg pre) as Hp0. pose proof (len_nonneg post) as Hq0.
  assert (He : 0 < len e).
  { destruct e; [congruence|]. rewrite len_cons. pose proof (len_nonneg e). lia. }
  unfold chunkHeaderSize in *.
  destruct (readBlock_ready s D Hready) as (s1 & Hready1 & [Erb|[E _]]);
    [lia| |rewrite E in LD; change (len (@nil byte)) with 0 in LD; lia].
  exists s1. split; [|exact Hready1].
  unfold Read. destruct (Read_fuel_pos s) as (n & ->).
  cbn [Read_loop BlockId Offset SegmentId]. rewrite Erb.
  rewrite len_app, len_repeat.
  replace (len pre >=? len D + Z.of_nat (Z.to_nat blockSize - Z.to_nat (len D)))
    with false by (symmetry; rewrite Z.geb_leb; apply Z.leb_gt; lia).
  replace (len pre <? 0) with false by (symmetry; apply Z.ltb_ge; lia).
  unfold D at 1. rewrite <- !app_assoc, slice_from_app_len.
  rewrite readChunk_frame
    by (try (change (2 ^ 16) with 65536); unfold kFullType; lia).
  cbn [chk_data chunkType].
  replace (len e =? 0) with false by (symmetry; apply Z.eqb_neq; lia).
  reflexivity.
Qed.

(** [Read] where the data of block 0 ends. *)
Lemma Read_ready_end (s : Segment) (D : list byte) (sid : Z) :
  reader_ready s D -> len D + chunkHeaderSize <= blockSize ->
  exists s1,
    Read s {| SegmentId := sid; BlockId := 0; Offset := len D |}
    = (s1, Err ErrEOF).
Proof.
  pose proof blockSize_eq as Hbs. pose proof (len_nonneg D) as Hd.
  unfold chunkHeaderSize. intros Hready Hfit.
  destruct (readBlock_ready s D Hready) as (s1 & Hready1 & [Erb|[E Erb]]);
    [lia| |].
  - exists s1. unfold Read. destruct (Read_fuel_pos s) as (n & ->).
    cbn [Read_loop BlockId Offset SegmentId]. rewrite Erb.
    rewrite len_app, len_repeat.
    replace (len D >=? len D + Z.of_nat (Z.to_nat blockSize - Z.to_nat (len D)))
      with false by (symmetry; rewrite Z.geb_leb; apply Z.leb_gt; lia).
    replace (len D <? 0) with false by (symmetry; apply Z.ltb_ge; lia).
    rewrite slice_from_app_len.
    replace (Z.to_nat blockSize - Z.to_nat (len D))%nat
      with (7 + (Z.to_nat blockSize - Z.to_nat (len D) - 7))%nat by lia.
    rewrite repeat_app, <- chunkHeader_empty, readChunk_empty by lia.
    reflexivity.
  - exists s1. unfold Read. destruct (Read_fuel_pos s) as (n & ->).
    cbn [Read_loop BlockId Offset SegmentId]. now rewrite Erb.
Qed.

(** The calls of [Next] over the entries that remain, then the end. *)
Lemma read_all_ready (todo : list (list byte)) (done : list (list byte))
  (w : WAL) (s : Segment) :
  segments w !! 0 = Some s -> segments w !! 1 = None ->
  reader_ready s (frames (done ++ todo)) ->
  Forall (fun e => e <> []) todo ->
  len (frames (done ++ todo)) + chunkHeaderSize <= blockSize ->
  read_all (S (length todo))
    {| pos := {| SegmentId := 0; BlockId := 0; Offset := len (frames done) |};
       current := 0; rd_closed := false |} w
  = map Ok todo ++ [Err ErrEOF].
Proof.
  pose proof blockSize_eq as Hbs.
  revert done w s.
  induction todo as [|e rest IH]; intros done w s Hs Hn Hready Hne Hfit.
  - rewrite app_nil_r in *.
    destruct (Read_ready_end s (frames done) 0 Hready Hfit) as (s1 & Er).
    cbn [read_all length map app]. unfold Next. cbn [rd_closed].
    cbn [Next_loop current pos]. rewrite Hs, Er. cbv zeta.
    cbn [SegmentId set_segments segments]. change (0 + 1) with 1.
    rewrite lookup_insert_ne by lia. rewrite Hn. reflexivity.
  - apply Forall_cons in Hne as [He Hne].
    assert (Hsplit : frames (done ++ e :: rest)
                     = frames done ++ (chunkHeader e kFullType ++ e)
                       ++ frames rest).
    { rewrite frames_app. unfold frames. cbn [map concat].
      now rewrite <- !app_assoc. }
    rewrite Hsplit in Hready, Hfit.
    destruct (Read_ready_entry s (frames done) e (frames rest) 0 Hready He Hfit)
      as (s1 & Er & Hready1).
    assert (LD : len (frames done ++ (chunkHeader e kFullType ++ e)
                      ++ frames rest)
                 = len (frames done) + (7 + len e) + len (frames rest))
      by (rewrite !len_app, len_chunkHeader; unfold chunkHeaderSize; lia).
    pose proof (len_nonneg (frames done)) as Hd0.
    pose proof (len_nonneg (frames rest)) as Hr0.
    unfold chunkHeaderSize in *.
    change (read_all (S (length (e :: rest))))
      with (read_all (S (S (length rest)))).
    cbn [read_all]. unfold Next at 1. cbn [rd_closed].
    cbn [Next_loop current pos]. rewrite Hs, Er. cbv zeta.
    cbn [Offset BlockId SegmentId]. unfold chunkHeaderSize.
    replace (len (frames done) + (7 + len e) >=? blockSize) with false
      by (symmetry; rewrite Z.geb_leb; apply Z.leb_gt; lia).
    cbn [map app]. f_equal.
    replace (len (frames done) + (7 + len e)) with (len (frames (done ++ [e])))
      by (rewrite frames_app, len_app; unfold frames; cbn [map concat];
          rewrite app_nil_r, len_app, len_chunkHeader;
          unfold chunkHeaderSize; lia).
    apply (IH (done ++ [e]) _ s1).
    + cbn [set_segments segments]. apply lookup_insert_eq.
    + cbn [set_segments segments]. rewrite lookup_insert_ne by lia. exact Hn.
    + rewrite <- app_assoc. cbn [app]. now rewrite Hsplit.
    + exact Hne.
    + rewrite <- app_assoc. cbn [app]. rewrite Hsplit.
      unfold chunkHeaderSize. exact Hfit.
Qed.

(** X19: a reader yields the entries in order.  On a log opened on an
    empty directory with a positive segment size, after non-empty
    entries that together with their headers leave room for one more
    header in the first block have been written and synced, a reader
    created at the first position yields the entries one by one in the
    order written, and then reports [io.EOF]. *)
Theorem reader_yields_entries (o : Options) (es : list (list byte)) :
  0 < SegmentSize o ->
  Forall (fun e => e <> []) es ->
  framed_size es + chunkHeaderSize <= blockSize ->
  let w := fst (Log.Sync (fst (wal_run (Open o ∅) (map OpWrite es)))) in
  let p0 := {| SegmentId := 0; BlockId := 0; Offset := 0 |} in
  exists r,
    NewReader w p0 = Ok r
    /\ read_all (S (length es)) r w = map Ok es ++ [Err ErrEOF].
Proof.
  pose proof blockSize_eq as Hbs.
  intros Ho Hne Hfit. cbv zeta.
  pose proof (framed_size_nonneg es) as Hes. unfold chunkHeaderSize in *.
  assert (Hb0 : buffered (NewSegment 0 []) []).
  { unfold buffered. cbn [NewSegment seg_id closed fd currentBlock cachedBlock
                            blk_id data]. auto 10. }
  destruct (wal_run_buffered es (Open o ∅) (NewSegment 0 []) [])
    as (s1 & Ha & Hs & Hn & Hb); try assumption; try reflexivity.
  { change (len (@nil byte)) with 0. lia. }
  cbn [app] in Hb.
  set (w1 := fst (wal_run (Open o ∅) (map OpWrite es))) in *. clearbody w1.
  assert (Ld : len (frames es) < blockSize) by (rewrite len_frames; lia).
  destruct (Sync_buffered s1 (frames es) Hb Ld) as [_ Hready].
  unfold Log.Sync. rewrite Ha, Hs.
  destruct (Sync s1) as [s2 res]. cbn [fst] in *.
  eexists. split.
  - unfold NewReader. cbn [SegmentId set_segments segments].
    rewrite lookup_insert_eq. reflexivity.
  - apply (read_all_ready es [] _ s2).
    + cbn [set_segments segments]. apply lookup_insert_eq.
    + cbn [set_segments segments]. rewrite lookup_insert_ne by lia. exact Hn.
    + exact Hready.
    + exact Hne.
    + cbn [app]. rewrite len_frames. unfold chunkHeaderSize. lia.
Qed.

Lemma reader_yields_entries_witness :
  let o := mkOptions 1024 in
  let es := [[x61]; [x62; x63]; [x64]] in
  0 < SegmentSize o
  /\ Forall (fun e => e <> []) es
  /\ framed_size es + chunkHeaderSize <= blockSize
  /\ exists r,
       NewReader (fst (Log.Sync (fst (wal_run (Open o ∅) (map OpWrite es)))))
         {| SegmentId := 0; BlockId := 0; Offset := 0 |} = Ok r
       /\ read_all (S (length es)) r
            (fst (Log.Sync (fst (wal_run (Open o ∅) (map OpWrite es)))))
          = map Ok es ++ [Err ErrEOF].
Proof.
  intros o es.
  assert (H1 : 0 < SegmentSize o) by (cbn; lia).
  assert (H2 : Forall (fun e => e <> []) es) by (repeat constructor; discriminate).
  assert (H3 : framed_size es + chunkHeaderSize <= blockSize)
    by (vm_compute; discriminate).
  split; [exact H1|]. split; [exact H2|]. split; [exact H3|].
  exact (reader_yields_entries o es H1 H2 H3).
Defined.

(* ================================================================== *)
(** ** An entry that fits in the current block *)

Lemma nonempty_len (e : list byte) : e <> [] -> 0 < len e.
Proof.
  destruct e; [congruence|]. intros _. rewrite len_cons.
  pose proof (len_nonneg e). lia.
Qed.

(** X20: [Write] buffers.  On an open segment, a non-empty entry that
    fits with its header in what is left of the current block is
    appended to the block buffer as one FULL chunk; the position
    returned is the end of the buffer before the call, and neither the
    file nor [Size] changes. *)
Theorem Write_fits (s : Segment) (input : list byte) :
  closed s = false -> input <> [] ->
  len (data (currentBlock s)) + chunkHeaderSize + len input <= blockSize ->
  Write s input
  = (set_currentBlock s
       {| blk_id := blk_id (currentBlock s);
          data := (data (currentBlock s) ++ chunkHeader input kFullType)
                  ++ input;
          flushed := flushed (currentBlock s) |},
     Ok (Some (frontier s)))
  /\ fd (fst (Write s input)) = fd s
  /\ Size (fst (Write s input)) = Size s.
Proof.
  pose proof blockSize_eq as Hbs.
  intros Hc Hne Hfit. pose proof (nonempty_len input Hne) as He.
  pose proof (len_nonneg (data (currentBlock s))) as Hd.
  unfold chunkHeaderSize in *.
  assert (Hcs : splitIntoChunks s input
                = [{| chk_data := input; chunkType := kFullType |}]).
  { unfold splitIntoChunks. cbv zeta. unfold chunkHeaderSize.
    replace (blockSize - len (data (currentBlock s)) - 7 >? 0) with true
      by (symmetry; apply Z.gtb_lt; lia).
    assert (Hsz : (if blockSize - len (data (currentBlock s)) - 7 >? len input
                   then len input
                   else blockSize - len (data (currentBlock s)) - 7)
                  = len input).
    { destruct (Z.gtb_spec (blockSize - len (data (currentBlock s)) - 7)
                           (len input)); lia. }
    rewrite Hsz, !Z.eqb_refl. cbn [andb]. rewrite Z.add_0_l, Z.sub_diag.
    rewrite slice_0_len. f_equal.
    destruct (length input); reflexivity. }
  assert (Hw : Write s input
               = (set_currentBlock s
                    {| blk_id := blk_id (currentBlock s);
                       data := (data (currentBlock s)
                                ++ chunkHeader input kFullType) ++ input;
                       flushed := flushed (currentBlock s) |},
                  Ok (Some (frontier s)))).
  { unfold Write. rewrite Hc, Hcs.
    cbn [writeChunks chk_data chunkType]. unfold chunkHeaderSize.
    replace (len (data (currentBlock s)) + 7 + len input >? blockSize)
      with false by (symmetry; rewrite Z.gtb_ltb; apply Z.ltb_ge; lia).
    reflexivity. }
  split; [exact Hw|]. rewrite Hw. cbn [fst]. split; reflexivity.
Qed.

Lemma Write_fits_witness :
  let s := NewSegment 1 [] in
  let input := [x68; x69] in
  closed s = false /\ input <> []
  /\ len (data (currentBlock s)) + chunkHeaderSize + len input <= blockSize
  /\ Write s input
     = (set_currentBlock s
          {| blk_id := blk_id (currentBlock s);
             data := (data (currentBlock s) ++ chunkHeader input kFullType)
                     ++ input;
             flushed := flushed (currentBlock s) |},
        Ok (Some (frontier s)))
  /\ fd (fst (Write s input)) = fd s
  /\ Size (fst (Write s input)) = Size s.
Proof.
  intros s input.
  assert (H1 : closed s = false) by reflexivity.
  assert (H2 : input <> []) by discriminate.
  assert (H3 : len (data (currentBlock s)) + chunkHeaderSize + len input
               <= blockSize) by (vm_compute; discriminate).
  split; [exact H1|]. split; [exact H2|]. split; [exact H3|].
  exact (Write_fits s input H1 H2 H3).
Defined.

(* ================================================================== *)
(** ** A reader after an entry that spans blocks *)

(** [Read], through a cache in agreement with the file, where the file
    holds a non-empty chunk that continues an entry. *)
Lemma Read_continuation_coherent (s : Segment) (p : Position) (c : chunk) :
  wf s -> closed s = false -> cache_coherent s ->
  chunk_at (fd s) (BlockId p) (Offset p) c ->
  0 < len (chk_data c) ->
  chunkType c = kMiddleType \/ chunkType c = kLastType ->
  snd (Read s p) = Err (ErrInvalidFirstChunkType (chunkType c)).
Proof.
  pose proof blockSize_eq as Hbs.
  intros Hwf Hc Hco (HB & HO & Hfit & pre & post & Hfd & Hpre) Hpos Hty.
  assert (Lx : len (chunk_bytes c) = chunkHeaderSize + len (chk_data c))
    by (unfold chunk_bytes; rewrite len_app, len_chunkHeader; reflexivity).
  unfold chunkHeaderSize in *.
  destruct (readBlock_view s (BlockId p) (Offset p) pre (chunk_bytes c) post)
    as (s1 & buf & tl & Erb & Lbuf & Hbuf); try assumption; try lia.
  unfold Read. destruct (Read_fuel_pos s) as (n & ->).
  cbn [Read_loop BlockId Offset SegmentId]. rewrite Erb, Lbuf.
  replace (Offset p >=? blockSize) with false
    by (symmetry; rewrite Z.geb_leb; apply Z.leb_gt; lia).
  replace (Offset p <? 0) with false by (symmetry; apply Z.ltb_ge; lia).
  rewrite Hbuf. unfold chunk_bytes. rewrite <- app_assoc.
  assert (Ht : 0 <= chunkType c < 256)
    by (destruct Hty as [E|E]; rewrite E; unfold kMiddleType, kLastType; lia).
  rewrite readChunk_frame by (change (2 ^ 16) with 65536; lia).
  cbn [chk_data chunkType].
  replace (len (chk_data c) =? 0) with false by (symmetry; apply Z.eqb_neq; lia).
  change (len (@nil byte)) with 0.
  destruct Hty as [E|E]; rewrite E; reflexivity.
Qed.

(** The first chunk of an entry goes to the end of the buffer when the
    current block has room for more than a header. *)
Lemma Write_first_position (s : Segment) (input : list byte) :
  wf s -> closed s = false ->
  len (data (currentBlock s)) + chunkHeaderSize < blockSize ->
  snd (Write s input) = Ok (Some (frontier s)).
Proof.
  pose proof blockSize_eq as Hbs.
  intros Hwf Hc Hroom.
  destruct (splitIntoChunks_spec s input) as (Hsz & _ & _ & Hst).
  cbv zeta in Hst.
  replace (blockSize - len (data (currentBlock s)) - chunkHeaderSize >? 0)
    with true in Hst by (symmetry; apply Z.gtb_lt; lia).
  destruct Hst as (c & rest & Hcs & Hlen & _).
  unfold Write. rewrite Hc, Hcs. rewrite Hcs in Hsz.
  apply Forall_cons in Hsz as [_ Hrest].
  rewrite writeChunks_cons.
  replace (len (data (currentBlock s)) + chunkHeaderSize + len (chk_data c)
           >? blockSize)
    with false by (symmetry; rewrite Z.gtb_ltb; apply Z.ltb_ge; lia).
  cbv beta iota.
  destruct (writeChunk_spec s (chk_data c) (chunkType c) Hwf) as (s2 & E2 & W2 & _);
    [lia|].
  rewrite E2. cbv beta iota.
  destruct (writeChunks_spec rest s2 W2 Hrest) as (s3 & ps & E3 & _).
  rewrite E3. reflexivity.
Qed.

(** An entry too long for one block has a second chunk, at the start of
    the next block, that continues it. *)
Lemma entry_at_second_chunk (f : list byte) (p : Position) (e : list byte) :
  entry_at f p e -> blockSize - chunkHeaderSize < len e ->
  exists c2,
    chunk_at f (BlockId p + 1) 0 c2 /\ 0 < len (chk_data c2)
    /\ (chunkType c2 = kMiddleType \/ chunkType c2 = kLastType).
Proof.
  intros (cs & Hl & Hpos & Hty & Hcat) Hlong.
  destruct cs as [|c [|c2 rest]].
  - destruct Hty.
  - cbn [map concat] in Hcat. rewrite app_nil_r in Hcat.
    cbn [laid_out] in Hl. destruct Hl as [(_ & HO & Hfit & _) _].
    rewrite Hcat in Hfit. lia.
  - cbn [entry_types tail_types] in Hty. destruct Hty as [_ Hty].
    cbn [laid_out] in Hl. destruct Hl as (_ & _ & Hat2 & _).
    apply Forall_cons in Hpos as [_ Hpos].
    apply Forall_cons in Hpos as [Hpos2 _]. cbv beta in Hpos2.
    exists c2. split; [exact Hat2|]. split; [exact Hpos2|].
    destruct rest; [right; exact Hty|left; exact (proj1 Hty)].
Qed.

(** X21: a reader does not get past an entry that spans blocks.  On a
    log opened on an empty directory with a positive segment size,
    where the first entry written is too long for one block, whatever
    is written after it, a reader created at the first position yields
    that entry, and its next call of [Next] fails with the invalid
    first chunk type error: the reader has moved to the block where the
    entry continues. *)
Theorem reader_stuck_after_long_entry (o : Options) (e : list byte)
  (ops : list wal_op) :
  0 < SegmentSize o ->
  blockSize - chunkHeaderSize < len e ->
  writes_and_syncs ops ->
  let w := fst (Log.Sync (fst (wal_run (Open o ∅) (OpWrite e :: ops)))) in
  let p0 := {| SegmentId := 0; BlockId := 0; Offset := 0 |} in
  exists r t,
    NewReader w p0 = Ok r
    /\ (t = kMiddleType \/ t = kLastType)
    /\ read_all 2 r w = [Ok e; Err (ErrInvalidFirstChunkType t)].
Proof.
  pose proof blockSize_eq as Hbs.
  intros Ho Hlong Hops. cbv zeta.
  assert (Hne : e <> []).
  { intros ->. change (len (@nil byte)) with 0 in Hlong.
    unfold chunkHeaderSize in Hlong. lia. }
  assert (Hall : writes_and_syncs (OpWrite e :: ops))
    by (constructor; [exact Hne|exact Hops]).
  pose proof (written_inv_run _ _ [] (written_inv_Open o ∅) Hall) as H1.
  cbn [app] in H1. apply readable_after_Sync in H1.
  (* the first position *)
  assert (Hp0 : exists ps,
             snd (wal_run (Open o ∅) (OpWrite e :: ops))
             = {| SegmentId := 0; BlockId := 0; Offset := 0 |} :: ps).
  { cbn [wal_run wal_step].
    assert (Hw : snd (Log.Write (Open o ∅) e)
                 = Ok (Some {| SegmentId := 0; BlockId := 0; Offset := 0 |})).
    { unfold Log.Write, Open, initialize. cbv zeta.
      rewrite map_to_list_empty. cbn [fmap list_fmap merge_sort last].
      change (last (merge_sort Z.le [])) with (@None Z).
      cbn [segments segment opts]. rewrite lookup_insert_eq.
      change (Size (NewSegment 0 [])) with 0.
      replace (0 >=? SegmentSize o) with false
        by (symmetry; rewrite Z.geb_leb; apply Z.leb_gt; lia).
      cbv beta iota. cbn [segments segment]. rewrite lookup_insert_eq.
      pose proof (Write_first_position (NewSegment 0 []) e
                    (wf_NewSegment 0 []) eq_refl) as Hf.
      destruct (Write (NewSegment 0 []) e) as [s' r']. cbn [snd] in *.
      apply Hf. change (len (data (currentBlock (NewSegment 0 [])))) with 0.
      unfold chunkHeaderSize. lia. }
    destruct (Log.Write (Open o ∅) e) as [w1 r1]. cbn [snd] in Hw. subst r1.
    destruct (wal_run w1 ops) as [w2 ps]. cbn [snd]. now exists ps. }
  destruct Hp0 as (ps & Hps). rewrite Hps in H1.
  unfold inputs in H1. cbn [omap list_omap] in H1. fold (inputs ops) in H1.
  cbn [zip zip_with] in H1.
  set (w := fst (Log.Sync (fst (wal_run (Open o ∅) (OpWrite e :: ops))))) in *.
  clearbody w. destruct H1 as [Hsegs Hpairs].
  apply Forall_cons in Hpairs as [(s & Hs & Hat) _]. cbn [fst snd SegmentId] in *.
  destruct (Hsegs _ _ Hs) as (W & C & K).
  destruct (entry_at_second_chunk _ _ _ Hat Hlong) as (c2 & Hat2 & Hpos2 & Hty2).
  cbn [BlockId] in Hat2.
  exists {| pos := {| SegmentId := 0; BlockId := 0; Offset := 0 |};
            current := 0; rd_closed := false |}, (chunkType c2).
  split; [unfold NewReader; cbn [SegmentId]; now rewrite Hs|].
  split; [exact Hty2|].
  pose proof (Read_entry_at s _ e W C K Hat) as Hr.
  destruct (Read_preserves s {| SegmentId := 0; BlockId := 0; Offset := 0 |} W)
    as (W1 & _ & F1 & C1 & _).
  pose proof (Read_coherent s {| SegmentId := 0; BlockId := 0; Offset := 0 |}
                W K) as K1.
  cbn [read_all]. unfold Next at 1. cbn [rd_closed].
  cbn [Next_loop current pos]. rewrite Hs.
  destruct (Read s {| SegmentId := 0; BlockId := 0; Offset := 0 |})
    as [s1 res]. cbn [fst snd] in *. subst res. cbv zeta.
  cbn [Offset BlockId SegmentId]. unfold chunkHeaderSize in *.
  replace (0 + (7 + len e) >=? blockSize) with true
    by (symmetry; rewrite Z.geb_leb; apply Z.leb_le; lia).
  f_equal.
  unfold Next. cbn [rd_closed]. cbn [Next_loop current pos].
  cbn [set_segments segments]. rewrite lookup_insert_eq.
  assert (Hr2 : snd (Read s1 {| SegmentId := 0; BlockId := 0 + 1; Offset := 0 |})
                = Err (ErrInvalidFirstChunkType (chunkType c2))).
  { apply Read_continuation_coherent; try assumption.
    - congruence.
    - cbn [BlockId Offset]. now rewrite F1. }
  destruct (Read s1 {| SegmentId := 0; BlockId := 0 + 1; Offset := 0 |})
    as [s2 res2]. cbn [snd] in Hr2. subst res2. reflexivity.
Qed.

Lemma reader_stuck_after_long_entry_witness :
  let o := mkOptions 1024 in
  let e := repeat "a"%byte (Z.to_nat 40000) in
  let ops := [OpWrite [x62]; OpSync] in
  0 < SegmentSize o
  /\ blockSize - chunkHeaderSize < len e
  /\ writes_and_syncs ops
  /\ exists r t,
       NewReader (fst (Log.Sync (fst (wal_run (Open o ∅) (OpWrite e :: ops)))))
         {| SegmentId := 0; BlockId := 0; Offset := 0 |} = Ok r
       /\ (t = kMiddleType \/ t = kLastType)
       /\ read_all 2 r
            (fst (Log.Sync (fst (wal_run (Open o ∅) (OpWrite e :: ops)))))
          = [Ok e; Err (ErrInvalidFirstChunkType t)].
Proof.
  intros o e ops.
  assert (H1 : 0 < SegmentSize o) by (cbn; lia).
  assert (H2 : blockSize - chunkHeaderSize < len e).
  { unfold e. rewrite len_repeat. vm_compute. reflexivity. }
  assert (H3 : writes_and_syncs ops) by (repeat constructor; discriminate).
  split; [exact H1|]. split; [exact H2|]. split; [exact H3|].
  exact (reader_stuck_after_long_entry o e ops H1 H2 H3).
Defined.

(* ================================================================== *)
(** ** Opening a log again *)

(** On a log opened on the directory another log left, [Read] returns
    every entry that the files hold. *)
Lemma Read_reopened (o : Options) (m : gmap Z Segment) (p : Position)
  (e : list byte) (s : Segment) :
  m !! SegmentId p = Some s -> entry_at (fd s) p e ->
  snd (Log.Read (Open o (fd <$> m)) p) = Ok e.
Proof.
  intros Hs Hat.
  assert (Hne : fd <$> m <> ∅).
  { intros H. apply (f_equal (fun d => d !! SegmentId p)) in H.
    rewrite lookup_fmap, Hs, lookup_empty in H. discriminate. }
  destruct (initialize_segments o (fd <$> m)) as [_ Hn].
  destruct (Hn Hne) as (Hl & _).
  unfold Log.Read. rewrite Hl, lookup_fmap, Hs.
  cbn [fmap option_fmap option_map].
  pose proof (Read_entry_at (NewSegment (SegmentId p) (fd s)) p e
                (wf_NewSegment _ _) eq_refl) as Hr.
  destruct (Read (NewSegment (SegmentId p) (fd s)) p) as [s' r].
  cbn [snd] in *. apply Hr; [|exact Hat].
  intros H. cbn [NewSegment cachedBlock blk_id] in H. lia.
Qed.

Lemma closeC_rotate (w : WAL) : closeC (fst (Log.rotate w)) = closeC w.
Proof.
  unfold Log.rotate. destruct (segments w !! segment w) as [a|]; [|reflexivity].
  destruct (Sync a) as [a' [u|e]]; reflexivity.
Qed.

Lemma closeC_Write (w : WAL) (input : list byte) :
  closeC (fst (Log.Write w input)) = closeC w.
Proof.
  assert (Hplain : forall w1 : WAL,
    closeC (fst (match segments w1 !! segment w1 with
                 | None => (w1, Err ErrPanic)
                 | Some seg =>
                     let '(seg', r') := Write seg input in
                     (set_segments w1 (<[segment w1 := seg']> (segments w1)), r')
                 end)) = closeC w1).
  { intros w1. destruct (segments w1 !! segment w1) as [a|]; [|reflexivity].
    destruct (Write a input) as [a' r']. reflexivity. }
  unfold Log.Write. destruct (segments w !! segment w) as [a|]; [|reflexivity].
  destruct (Size a >=? SegmentSize (opts w)).
  - pose proof (closeC_rotate w) as Hr.
    destruct (Log.rotate w) as [w1 [u|e]]; cbn [fst] in Hr; cbv beta iota.
    + now rewrite Hplain.
    + exact Hr.
  - cbv beta iota. apply Hplain.
Qed.

Lemma closeC_Sync (w : WAL) : closeC (fst (Log.Sync w)) = closeC w.
Proof.
  unfold Log.Sync. destruct (segments w !! segment w) as [a|]; [|reflexivity].
  destruct (Sync a) as [a' r]. reflexivity.
Qed.

Lemma closeC_run (ops : list wal_op) (w : WAL) :
  writes_and_syncs ops -> closeC (fst (wal_run w ops)) = closeC w.
Proof.
  revert w. induction ops as [|op ops IH]; intros w Hops; [reflexivity|].
  apply Forall_cons in Hops as [Ho Hops]. cbn [wal_run].
  assert (H1 : closeC (fst (wal_step w op)) = closeC w).
  { destruct op as [input|p| | |r]; try contradiction; cbn [wal_step].
    - pose proof (closeC_Write w input) as H.
      destruct (Log.Write w input) as [w' [[q|]|err]]; exact H.
    - apply closeC_Sync. }
  destruct (wal_step w op) as [w1 po]. cbn [fst] in H1.
  specialize (IH w1 Hops). destruct (wal_run w1 ops) as [w2 ps].
  cbn [fst] in *. congruence.
Qed.

Lemma closeC_Open (o : Options) (dir : gmap Z (list byte)) :
  closeC (Open o dir) = false.
Proof.
  unfold Open, initialize. cbv zeta. destruct (last _); reflexivity.
Qed.

(** X22: the entries survive a restart.  Open a log on any directory,
    write any non-empty entries with syncs in between at will, then
    sync or close it: a log opened afterwards, with any options, on the
    directory left behind returns from [Read], at the position any of
    the writes returned, exactly the entry that write was given. *)
Theorem log_recovers_entries (o o' : Options) (dir : gmap Z (list byte))
  (ops : list wal_op) (p : Position) (e : list byte) :
  writes_and_syncs ops ->
  (p, e) ∈ zip (snd (wal_run (Open o dir) ops)) (inputs ops) ->
  snd (Log.Read
         (Open o' (directory (fst (Log.Sync (fst (wal_run (Open o dir) ops))))))
         p) = Ok e
  /\ snd (Log.Read
            (Open o' (directory (fst (Log.Close (fst (wal_run (Open o dir) ops))))))
            p) = Ok e.
Proof.
  intros Hops Hin.
  pose proof (written_inv_run ops _ [] (written_inv_Open o dir) Hops) as H1.
  cbn [app] in H1.
  assert (Ec : closeC (fst (wal_run (Open o dir) ops)) = false)
    by (rewrite closeC_run by exact Hops; apply closeC_Open).
  set (w1 := fst (wal_run (Open o dir) ops)) in *.
  set (pairs := zip (snd (wal_run (Open o dir) ops)) (inputs ops)) in *.
  clearbody w1 pairs. unfold directory. split.
  - apply readable_after_Sync in H1. destruct H1 as [_ Hp].
    rewrite Forall_forall in Hp. destruct (Hp _ Hin) as (s & Hs & He).
    cbn [fst snd] in Hs, He. now apply (Read_reopened o' _ p e s).
  - destruct H1 as (_ & Hall & Hp).
    rewrite Forall_forall in Hp. destruct (Hp _ Hin) as (s & Hs & He).
    cbn [fst snd] in Hs, He.
    destruct (Hall _ _ Hs) as (_ & W & C & _).
    apply (Read_reopened o' _ p e (fst (Close s))).
    + unfold Log.Close. rewrite Ec. cbn [fst segments].
      now rewrite lookup_fmap, Hs.
    + unfold Close. rewrite C.
      pose proof (flushBlock_pads s W) as Hpad.
      destruct (flushBlock s true) as [s1 [u|err]]; cbn [fst] in *.
      * unfold set_closed. cbn [fd]. rewrite Hpad. now apply entry_at_app.
      * rewrite Hpad. now apply entry_at_app.
Qed.

Lemma log_recovers_entries_witness :
  let o := mkOptions 5 in
  let o' := mkOptions 1024 in
  let ops := [OpWrite [x61; x62]; OpSync; OpWrite [x63; x64]] in
  let p := {| SegmentId := 1; BlockId := 0; Offset := 0 |} in
  let e := [x63; x64] in
  writes_and_syncs ops
  /\ (p, e) ∈ zip (snd (wal_run (Open o ∅) ops)) (inputs ops)
  /\ snd (Log.Read
            (Open o' (directory (fst (Log.Sync (fst (wal_run (Open o ∅) ops))))))
            p) = Ok e
  /\ snd (Log.Read
            (Open o' (directory (fst (Log.Close (fst (wal_run (Open o ∅) ops))))))
            p) = Ok e.
Proof.
  intros o o' ops p e.
  assert (H1 : writes_and_syncs ops).
  { repeat constructor; discriminate. }
  assert (H3 : (p, e) ∈ zip (snd (wal_run (Open o ∅) ops)) (inputs ops)).
  { replace (zip (snd (wal_run (Open o ∅) ops)) (inputs ops))
      with [({| SegmentId := 0; BlockId := 0; Offset := 0 |}, [x61; x62]);
            (p, e)] by (vm_compute; reflexivity).
    apply list_elem_of_further, list_elem_of_here. }
  split; [exact H1|]. split; [exact H3|].
  exact (log_recovers_entries o o' ∅ ops p e H1 H3).
Defined.
